(** * OpenSeadragon ImageLoader: a shallow embedding of [src/imageloader.js]

    The file models the two classes of [imageloader.js], [ImageJob] and
    [ImageLoader], together with the private function [completeJob], and
    proves properties of the dispatcher (admission, queueing, promotion,
    clearing) and of the per-job completion paths (image events, timer,
    XHR, SignalR).

    JavaScript runs the code on one thread: every entry into the program is
    either a call of the public API ([addJob], [clear]) or the delivery of a
    browser event to a closure the program registered earlier.  The model is
    therefore a step function on a [World] (the heap of the objects the file
    creates plus the browser-side state of timers, images and requests) that
    is driven by a list of [Event]s. *)

From Stdlib Require Import ZArith String Ascii List Bool Lia DecimalString.
From stdpp Require Import base tactics list strings sorting.

Open Scope Z_scope.

(** ** JavaScript primitives used by the file *)

Module JS.

(** Strings are sequences of code units; the model uses Rocq's 8-bit
    characters, which covers URLs. *)

(** [s.indexOf(sub) !== -1] *)
Fixpoint includes (sub s : string) : bool :=
  String.prefix sub s ||
  match s with
  | EmptyString => false
  | String _ s' => includes sub s'
  end.

(** [s.split(sep)] for a non-empty separator string (JavaScript compares
    the separator literally when it is a string).  [skip] counts the
    characters of a separator occurrence that are still to be dropped and
    [cur] is the piece under construction. *)
Fixpoint split_go (sep : string) (skip : nat) (cur s : string) : list string :=
  match s with
  | EmptyString => [cur]
  | String c s' =>
      match skip with
      | S k => split_go sep k cur s'
      | O =>
          if String.prefix sep s
          then cur :: split_go sep (String.length sep - 1) EmptyString s'
          else split_go sep 0 (cur +:+ String c EmptyString) s'
      end
  end.

Definition split (sep s : string) : list string := split_go sep 0 EmptyString s.

(** [a.slice(-1)[0]]: the last element; [undefined] on the empty array. *)
Definition last_elem (a : list string) : option string := List.last (map Some a) None.

(** Reading an array element that may be absent and then using it as a
    string: [undefined] converts to the text [undefined]. *)
Definition to_string (v : option string) : string :=
  match v with Some s => s | None => "undefined" end.

(** The Number results that matter here: [NaN], or an integer given by its
    mathematical value (before rounding to a double). *)
Inductive number : Type :=
| NaN
| Int (z : Z).

Definition is_white (c : ascii) : bool :=
  let n := nat_of_ascii c in
  ((9 <=? n) && (n <=? 13) || (n =? 32) || (n =? 160))%nat.

Definition is_digit (c : ascii) : bool :=
  let n := nat_of_ascii c in ((48 <=? n) && (n <=? 57))%nat.

Definition digit_val (c : ascii) : Z := Z.of_nat (nat_of_ascii c) - 48.

Fixpoint trim_start (s : string) : string :=
  match s with
  | String c s' => if is_white c then trim_start s' else s
  | EmptyString => s
  end.

(** The longest prefix of decimal digits, as a number; [None] when the
    string does not start with a digit. *)
Fixpoint digits (acc : option Z) (s : string) : option Z :=
  match s with
  | String c s' =>
      if is_digit c
      then digits (Some (10 * default 0 acc + digit_val c)) s'
      else acc
  | EmptyString => acc
  end.

(** [parseInt(s, 10)] *)
Definition parseInt (s : string) : number :=
  let unsigned (t : string) (sign : Z) :=
    match digits None t with
    | Some v => Int (sign * v)
    | None => NaN
    end in
  match trim_start s with
  | String "-" t => unsigned t (-1)
  | String "+" t => unsigned t 1
  | t => unsigned t 1
  end.

(** [n % 2 === 0].  [NaN % 2] is [NaN].  An integer below 2^53 is held
    exactly; from 2^53 on the nearest double is an even integer, until the
    value rounds to [Infinity] (from 2^1024 - 2^970 on), and
    [Infinity % 2] is [NaN]. *)
Definition rem2_is_zero (n : number) : bool :=
  match n with
  | NaN => false
  | Int z =>
      if Z.abs z <? 2 ^ 53 then Z.even z
      else Z.abs z <? 2 ^ 1024 - 2 ^ 970
  end.

(** [String(n)] for an integer Number of magnitude below 10^21, which
    JavaScript prints in plain decimal. *)
Definition number_to_string (z : Z) : string := NilZero.string_of_int (Z.to_int z).

(** Truthiness of a Number that is not [NaN]. *)
Definition truthy (z : Z) : bool := negb (z =? 0).

End JS.

(** ** Objects *)

(** ImageJob objects are named by their position in the heap [jobs] of the
    world, images by their position in [images]. *)
Abbreviation JobId := nat (only parsing).

(** Functions supplied by the caller ([options.callback], [options.abort],
    the handlers of [tile-load-start]) are opaque: the model names each by a
    number and records its calls.  An abort function or an event handler is
    taken to return without calling the loader.  A callback may call it:
    the call of the callback is the last thing [completeJob] does, so that
    what the callback does to the loader is the same as events that follow
    the step. *)
Abbreviation UserFn := nat (only parsing).

(** The value of the [abort] property of a job: something that is not a
    function (such as [undefined]), the caller's function, or the closure
    that [start] installs for an AJAX job, which aborts the request of job
    [self] and then calls the value found before if it is a function. *)
Inductive AbortFn : Type :=
| NotAFunction
| UserAbort (f : UserFn)
| RequestAbort (self : JobId) (selfAbort : AbortFn).

(** The argument of [ImageLoader.addJob].  [tiledImage] is taken to be
    present, [signalRHub] is a hub proxy object when it is given, and
    [multiServers] is an array.  [opt_timeout] is a value a caller may put
    in the object although [addJob] documents no such option. *)
Record Options : Type := mkOptions {
  opt_src : string;
  opt_loadWithSignalR : bool;
  opt_signalRHub : option nat;
  opt_loadWithAjax : bool;
  opt_ajaxHeaders : option string;
  opt_loadWithMultiServers : bool;
  opt_multiServers : list string;
  opt_crossOriginPolicy : option string;   (* [None] is [false] *)
  opt_ajaxWithCredentials : bool;
  opt_callback : UserFn;
  opt_abort : option UserFn;
  opt_timeout : option Z
}.

(** What an [Image] element was given as [src]. *)
Inductive Source : Type :=
| Url (u : string)
| BlobUrl (request : nat).     (* [createObjectURL] of the blob of a request *)

(** An [Image] element.  The handlers are closures of [start]; each is
    represented by the job it captured as [self].  [loading] is browser
    state: a load started by assigning [src] has not reported yet. *)
Record Image : Type := mkImage {
  onload : option JobId;
  onerror : option JobId;
  onabort : option JobId;
  crossOrigin : option string;
  img_src : option Source;
  loading : bool
}.

Record ImageJob : Type := mkImageJob {
  src : string;
  loadWithSignalR : bool;
  signalRHub : option nat;
  loadWithAjax : bool;
  ajaxHeaders : option string;
  loadWithMultiServers : bool;
  multiServers : list string;
  crossOriginPolicy : option string;
  ajaxWithCredentials : bool;
  callback : UserFn;            (* the closure [complete], which holds [options.callback] *)
  abort : AbortFn;
  timeout : Z;
  jobId : option nat;           (* timer handle *)
  image : option nat;           (* reference to an [Image], or [null] *)
  errorMsg : option string;
  request : option nat          (* XHR handle *)
}.

Record ImageLoader : Type := mkImageLoader {
  jobLimit : Z;
  loader_timeout : Z;
  jobQueue : list JobId;
  jobsInProgress : Z
}.

(** [$.DEFAULT_SETTINGS], defined elsewhere in OpenSeadragon. *)
Record Settings : Type := mkSettings {
  default_imageLoaderLimit : Z;
  default_timeout : Z
}.

(** Operations handed to the transport layer whose callbacks are still to
    come; each holds closures over the job that issued it. *)
Inductive Pending : Type :=
| PXhr (x : nat) (self : JobId)     (* [$.makeAjaxRequest]: success / error *)
| PGetTile (self : JobId)           (* [hub.server.getTile]: done / fail *)
| PHubStart (self : JobId).         (* [$.connection.hub.start]: done / fail *)

(** What the program does to its surroundings, in order. *)
Inductive Effect : Type :=
| TileLoadStart (j : JobId) (s : string)
| SetTimeout (h : nat) (j : JobId) (ms : Z)
| ClearTimeout (h : nat)
| Callback (j : JobId) (f : UserFn) (img : option nat) (err : option string) (req : option nat)
| AbortCalled (j : JobId) (f : UserFn)
| XhrAbort (x : nat)
| ConsoleError (msg : string)
| Uncaught (j : JobId).             (* a TypeError left an event handler *)

Record World : Type := mkWorld {
  DEFAULT_SETTINGS : Settings;
  loader : ImageLoader;
  jobs : list ImageJob;
  images : list Image;
  timers : list (nat * JobId);      (* armed timeouts and the job of their closure *)
  nextTimer : nat;
  pending : list Pending;
  nextRequest : nat;
  connected : bool;                 (* state of the SignalR connection *)
  log : list Effect
}.

#[global] Instance Pending_eq_dec : EqDecision Pending.
Proof. solve_decision. Defined.

(** *** Field updates *)

Definition set_abort (v : AbortFn) (b : ImageJob) : ImageJob :=
  mkImageJob (src b) (loadWithSignalR b) (signalRHub b) (loadWithAjax b) (ajaxHeaders b)
    (loadWithMultiServers b) (multiServers b) (crossOriginPolicy b) (ajaxWithCredentials b)
    (callback b) v (timeout b) (jobId b) (image b) (errorMsg b) (request b).
Definition set_jobId (v : option nat) (b : ImageJob) : ImageJob :=
  mkImageJob (src b) (loadWithSignalR b) (signalRHub b) (loadWithAjax b) (ajaxHeaders b)
    (loadWithMultiServers b) (multiServers b) (crossOriginPolicy b) (ajaxWithCredentials b)
    (callback b) (abort b) (timeout b) v (image b) (errorMsg b) (request b).
Definition set_image (v : option nat) (b : ImageJob) : ImageJob :=
  mkImageJob (src b) (loadWithSignalR b) (signalRHub b) (loadWithAjax b) (ajaxHeaders b)
    (loadWithMultiServers b) (multiServers b) (crossOriginPolicy b) (ajaxWithCredentials b)
    (callback b) (abort b) (timeout b) (jobId b) v (errorMsg b) (request b).
Definition set_errorMsg (v : option string) (b : ImageJob) : ImageJob :=
  mkImageJob (src b) (loadWithSignalR b) (signalRHub b) (loadWithAjax b) (ajaxHeaders b)
    (loadWithMultiServers b) (multiServers b) (crossOriginPolicy b) (ajaxWithCredentials b)
    (callback b) (abort b) (timeout b) (jobId b) (image b) v (request b).
Definition set_request (v : option nat) (b : ImageJob) : ImageJob :=
  mkImageJob (src b) (loadWithSignalR b) (signalRHub b) (loadWithAjax b) (ajaxHeaders b)
    (loadWithMultiServers b) (multiServers b) (crossOriginPolicy b) (ajaxWithCredentials b)
    (callback b) (abort b) (timeout b) (jobId b) (image b) (errorMsg b) v.

Definition set_handlers (v : option JobId) (m : Image) : Image :=
  mkImage v v v (crossOrigin m) (img_src m) (loading m).
Definition set_crossOrigin (v : option string) (m : Image) : Image :=
  mkImage (onload m) (onerror m) (onabort m) v (img_src m) (loading m).
(** Assigning [src] makes the browser start a load. *)
Definition set_img_src (v : Source) (m : Image) : Image :=
  mkImage (onload m) (onerror m) (onabort m) (crossOrigin m) (Some v) true.
Definition set_loading (v : bool) (m : Image) : Image :=
  mkImage (onload m) (onerror m) (onabort m) (crossOrigin m) (img_src m) v.

Definition set_jobQueue (v : list JobId) (l : ImageLoader) : ImageLoader :=
  mkImageLoader (jobLimit l) (loader_timeout l) v (jobsInProgress l).
Definition set_jobsInProgress (v : Z) (l : ImageLoader) : ImageLoader :=
  mkImageLoader (jobLimit l) (loader_timeout l) (jobQueue l) v.

Definition on_loader (f : ImageLoader -> ImageLoader) (w : World) : World :=
  mkWorld (DEFAULT_SETTINGS w) (f (loader w)) (jobs w) (images w) (timers w) (nextTimer w)
    (pending w) (nextRequest w) (connected w) (log w).
Definition on_jobs (f : list ImageJob -> list ImageJob) (w : World) : World :=
  mkWorld (DEFAULT_SETTINGS w) (loader w) (f (jobs w)) (images w) (timers w) (nextTimer w)
    (pending w) (nextRequest w) (connected w) (log w).
Definition on_images (f : list Image -> list Image) (w : World) : World :=
  mkWorld (DEFAULT_SETTINGS w) (loader w) (jobs w) (f (images w)) (timers w) (nextTimer w)
    (pending w) (nextRequest w) (connected w) (log w).
Definition on_timers (f : list (nat * JobId) -> list (nat * JobId)) (w : World) : World :=
  mkWorld (DEFAULT_SETTINGS w) (loader w) (jobs w) (images w) (f (timers w)) (nextTimer w)
    (pending w) (nextRequest w) (connected w) (log w).
Definition set_nextTimer (v : nat) (w : World) : World :=
  mkWorld (DEFAULT_SETTINGS w) (loader w) (jobs w) (images w) (timers w) v
    (pending w) (nextRequest w) (connected w) (log w).
Definition on_pending (f : list Pending -> list Pending) (w : World) : World :=
  mkWorld (DEFAULT_SETTINGS w) (loader w) (jobs w) (images w) (timers w) (nextTimer w)
    (f (pending w)) (nextRequest w) (connected w) (log w).
Definition set_nextRequest (v : nat) (w : World) : World :=
  mkWorld (DEFAULT_SETTINGS w) (loader w) (jobs w) (images w) (timers w) (nextTimer w)
    (pending w) v (connected w) (log w).
Definition set_connected (v : bool) (w : World) : World :=
  mkWorld (DEFAULT_SETTINGS w) (loader w) (jobs w) (images w) (timers w) (nextTimer w)
    (pending w) (nextRequest w) v (log w).
Definition emit (e : Effect) (w : World) : World :=
  mkWorld (DEFAULT_SETTINGS w) (loader w) (jobs w) (images w) (timers w) (nextTimer w)
    (pending w) (nextRequest w) (connected w) (log w ++ [e]).

Definition on_job (j : JobId) (f : ImageJob -> ImageJob) : World -> World :=
  on_jobs (alter f j).
Definition on_image (i : nat) (f : Image -> Image) : World -> World :=
  on_images (alter f i).

(** ** The program *)

(** The result of running a piece of an event handler: it returned, or a
    TypeError was thrown after the changes made so far. *)
Inductive Outcome : Type :=
| Done (w : World)
| Throw (w : World).

Definition world_of (r : Outcome) : World :=
  match r with Done w | Throw w => w end.

(** [window.setTimeout(closure of self, ms)]; the handle it returns is
    [nextTimer] of the world it is called in. *)
Definition setTimeout (self : JobId) (ms : Z) (w : World) : World :=
  let h := nextTimer w in
  emit (SetTimeout h self ms) (set_nextTimer (S h) (on_timers (fun t => t ++ [(h, self)]) w)).

(** [window.clearTimeout(h)] *)
Definition clearTimeout (h : nat) (w : World) : World :=
  emit (ClearTimeout h) (on_timers (filter (fun t => t.1 ≠ h)) w).

(** The multi-server branch of [start]: the value assigned to [image.src]. *)
Definition balanced_src (b : ImageJob) : string :=
  if JS.includes "labels_" (src b) || JS.includes "predictions_" (src b)
  then src b
  else
    let coords :=
      JS.split "_"
        (JS.to_string (head (JS.split "\." (JS.to_string (JS.last_elem (JS.split "/" (src b))))))) in
    let col := JS.parseInt (JS.to_string (coords !! 0%nat)) in
    let row := JS.parseInt (JS.to_string (coords !! 1%nat)) in
    if JS.rem2_is_zero col
    then
      if JS.rem2_is_zero row
      then JS.to_string (multiServers b !! 0%nat) +:+ src b
      else JS.to_string (multiServers b !! 1%nat) +:+ src b
    else
      if JS.rem2_is_zero row
      then JS.to_string (multiServers b !! 2%nat) +:+ src b
      else JS.to_string (multiServers b !! 3%nat) +:+ src b.

Arguments balanced_src : simpl never.

(** [signalRDownloadImageDataFromServer]: the remote call [getTile(self.src)]. *)
Definition signalRDownloadImageDataFromServer (self : JobId) (w : World) : World :=
  on_pending (fun p => p ++ [PGetTile self]) w.

(** [if (this.crossOriginPolicy !== false) this.image.crossOrigin = ...] *)
Definition apply_crossOrigin (b : ImageJob) (m : Image) : Image :=
  match crossOriginPolicy b with
  | Some p => set_crossOrigin (Some p) m
  | None => m
  end.

(** [ImageJob.prototype.start] *)
Definition start (self : JobId) (w : World) : World :=
  match jobs w !! self with
  | None => w
  | Some b =>
      let selfAbort := abort b in
      (* this.image = new Image() *)
      let i := length (images w) in
      let w := on_images (fun ms => ms ++ [mkImage None None None None None false]) w in
      let w := on_job self (set_image (Some i)) w in
      let w := emit (TileLoadStart self (src b)) w in
      let w := on_image i (set_handlers (Some self)) w in
      let h := nextTimer w in
      let w := setTimeout self (timeout b) w in
      let w := on_job self (set_jobId (Some h)) w in
      if loadWithSignalR b && bool_decide (is_Some (signalRHub b)) then
        if negb (connected w)
        then on_pending (fun p => p ++ [PHubStart self]) w
        else signalRDownloadImageDataFromServer self w
      else if loadWithAjax b then
        let x := nextRequest w in
        let w := set_nextRequest (S x) (on_pending (fun p => p ++ [PXhr x self]) w) in
        let w := on_job self (set_request (Some x)) w in
        on_job self (set_abort (RequestAbort self selfAbort)) w
      else if loadWithMultiServers b then
        let w := on_image i (apply_crossOrigin b) w in
        on_image i (set_img_src (Url (balanced_src b))) w
      else
        let w := on_image i (apply_crossOrigin b) w in
        on_image i (set_img_src (Url (src b))) w
  end.

(** [completeJob(loader, job, callback)] *)
Definition completeJob (job : JobId) (callback : UserFn) (w : World) : World :=
  let w := on_loader (fun l => set_jobsInProgress (jobsInProgress l - 1) l) w in
  let w :=
    if (negb (JS.truthy (jobLimit (loader w)))
        || (jobsInProgress (loader w) <? jobLimit (loader w)))
       && (0 <? length (jobQueue (loader w)))%nat
    then
      match jobQueue (loader w) with
      | nextJob :: rest =>
          let w := on_loader (set_jobQueue rest) w in
          let w := start nextJob w in
          on_loader (fun l => set_jobsInProgress (jobsInProgress l + 1) l) w
      | [] => w
      end
    else w in
  match jobs w !! job with
  | Some b => emit (Callback job callback (image b) (errorMsg b) (request b)) w
  | None => w
  end.

(** [ImageJob.prototype.finish]; [this.callback] is the closure [complete]
    made by [addJob], which calls [completeJob] with [options.callback]. *)
Definition finish (self : JobId) (successful : bool) (w : World) : Outcome :=
  match jobs w !! self with
  | None => Done w
  | Some b =>
      match image b with
      | None => Throw w                       (* this.image.onload on null *)
      | Some i =>
          let w := on_image i (set_handlers None) w in
          let w := if successful then w else on_job self (set_image None) w in
          let w :=
            match jobId b with
            | Some h => if bool_decide (h ≠ 0%nat) then clearTimeout h w else w
            | None => w
            end in
          Done (completeJob self (callback b) w)
      end
  end.

(** [new ImageJob(jobOptions)] for the [jobOptions] that [addJob] builds;
    the job's [timeout] is the loader's. *)
Definition new_ImageJob (l : ImageLoader) (options : Options) : ImageJob :=
  {| src := opt_src options;
     loadWithSignalR := opt_loadWithSignalR options;
     signalRHub := if opt_loadWithSignalR options then opt_signalRHub options else None;
     loadWithAjax := opt_loadWithAjax options;
     ajaxHeaders := if opt_loadWithAjax options then opt_ajaxHeaders options else None;
     loadWithMultiServers := opt_loadWithMultiServers options;
     multiServers := opt_multiServers options;
     crossOriginPolicy := opt_crossOriginPolicy options;
     ajaxWithCredentials := opt_ajaxWithCredentials options;
     callback := opt_callback options;
     abort := match opt_abort options with Some f => UserAbort f | None => NotAFunction end;
     timeout := loader_timeout l;
     jobId := None;
     image := None;
     errorMsg := None;
     request := None |}.

(** [ImageLoader.prototype.addJob]; the method returns nothing. *)
Definition addJob (options : Options) (w : World) : World :=
  let newJob := length (jobs w) in
  let w := on_jobs (fun js => js ++ [new_ImageJob (loader w) options]) w in
  if negb (JS.truthy (jobLimit (loader w)))
     || (jobsInProgress (loader w) <? jobLimit (loader w))
  then
    let w := start newJob w in
    on_loader (fun l => set_jobsInProgress (jobsInProgress l + 1) l) w
  else
    on_loader (fun l => set_jobQueue (jobQueue l ++ [newJob]) l) w.

(** Calling the value of a job's [abort] property when it is a function. *)
Fixpoint call_abort (j : JobId) (f : AbortFn) (w : World) : World :=
  match f with
  | NotAFunction => w
  | UserAbort u => emit (AbortCalled j u) w
  | RequestAbort self selfAbort =>
      let w :=
        match jobs w !! self with
        | Some b => match request b with Some x => emit (XhrAbort x) w | None => w end
        | None => w
        end in
      call_abort j selfAbort w
  end.

(** [ImageLoader.prototype.clear] *)
Definition clear (w : World) : World :=
  let w :=
    fold_left
      (fun w job =>
         match jobs w !! job with
         | Some b => call_abort job (abort b) w
         | None => w
         end)
      (jobQueue (loader w)) w in
  on_loader (set_jobQueue []) w.

(** [new $.ImageLoader(options)]: absent options take the defaults. *)
Definition new_ImageLoader (d : Settings) (limit time : option Z) : ImageLoader :=
  {| jobLimit := default (default_imageLoaderLimit d) limit;
     loader_timeout := default (default_timeout d) time;
     jobQueue := [];
     jobsInProgress := 0 |}.

(** The world just after the loader has been made. *)
Definition init (d : Settings) (limit time : option Z) : World :=
  {| DEFAULT_SETTINGS := d;
     loader := new_ImageLoader d limit time;
     jobs := [];
     images := [];
     timers := [];
     nextTimer := 1;
     pending := [];
     nextRequest := 0;
     connected := false;
     log := [] |}.

(** *** The closures registered by [start] *)

(** The function given to [setTimeout]. *)
Definition timer_fn (self : JobId) (w : World) : Outcome :=
  match jobs w !! self with
  | None => Done w
  | Some b =>
      let msg := "Image load exceeded timeout (" +:+ JS.number_to_string (timeout b) +:+ " ms)" in
      finish self false (on_job self (set_errorMsg (Some msg)) w)
  end.

(** [image.onload] *)
Definition onload_fn (self : JobId) (w : World) : Outcome :=
  finish self true w.

(** [image.onabort] and [image.onerror] *)
Definition onerror_fn (self : JobId) (w : World) : Outcome :=
  finish self false (on_job self (set_errorMsg (Some "Image load aborted")) w).

(** [self.image.src = v]: a TypeError when [self.image] is [null]. *)
Definition assign_image_src (self : JobId) (v : Source) (w : World) : Outcome :=
  match jobs w !! self with
  | None => Done w
  | Some b =>
      match image b with
      | Some i => Done (on_image i (set_img_src v) w)
      | None => Throw w
      end
  end.

(** The [success] function of the AJAX request [x].  [blob] is the size of
    the Blob made from the response, or [None] when no Blob could be made
    and [blb] stays [undefined]. *)
Definition xhr_success_fn (self : JobId) (x : nat) (blob : option N) (w : World) : Outcome :=
  match blob with
  | None => Throw w                                   (* blb.size on undefined *)
  | Some size =>
      let r :=
        if (size =? 0)%N
        then finish self false (on_job self (set_errorMsg (Some "Empty image response.")) w)
        else Done w in
      match r with
      | Throw w => Throw w
      | Done w => assign_image_src self (BlobUrl x) w
      end
  end.

(** The [error] function of the AJAX request. *)
Definition xhr_error_fn (self : JobId) (w : World) : Outcome :=
  finish self false (on_job self (set_errorMsg (Some "Image load aborted - XHR error")) w).

(** The [done] function of [getTile]; [data] is the pair of its [Mime] and
    [Base64] properties, or [None] when the server returned nothing. *)
Definition getTile_done_fn (self : JobId) (data : option (string * string)) (w : World) : Outcome :=
  match data with
  | Some (mime, base64) =>
      assign_image_src self (Url ("data:" +:+ mime +:+ ";base64," +:+ base64)) w
  | None =>
      finish self false
        (on_job self (set_errorMsg (Some "Image load aborted - Empty image response.")) w)
  end.

(** The [fail] function of [getTile]. *)
Definition getTile_fail_fn (self : JobId) (error : string) (w : World) : Outcome :=
  finish self false
    (on_job self (set_errorMsg (Some ("Image load aborted - SignalR error: " +:+ error))) w).

(** The [done] function of [hub.start()]. *)
Definition hubStart_done_fn (self : JobId) (w : World) : Outcome :=
  Done (signalRDownloadImageDataFromServer self w).

(** The [fail] function of [hub.start()]. *)
Definition hubStart_fail_fn (self : JobId) (w : World) : Outcome :=
  Done (emit (ConsoleError "SignalR could not Connect!") w).

(** ** The surroundings *)

(** What can happen: a call of the public API, or the browser, the network
    or SignalR delivering an event that is due. *)
Inductive Event : Type :=
| CallAddJob (options : Options)
| CallClear
| TimerFires (h : nat)
| ImageLoads (i : nat)
| ImageErrors (i : nat)
| ImageAborts (i : nat)
| XhrSucceeds (x : nat) (self : JobId) (blob : option N)
| XhrFails (x : nat) (self : JobId)
| GetTileDone (self : JobId) (data : option (string * string))
| GetTileFails (self : JobId) (error : string)
| HubStartDone (self : JobId)
| HubStartFails (self : JobId)
| ConnectionChanges (state : bool).

(** The closure of an armed timer. *)
Fixpoint timer_closure (h : nat) (ts : list (nat * JobId)) : option JobId :=
  match ts with
  | [] => None
  | (h', j) :: ts' => if bool_decide (h' = h) then Some j else timer_closure h ts'
  end.

Fixpoint remove_first (p : Pending) (l : list Pending) : list Pending :=
  match l with
  | [] => []
  | q :: l' => if bool_decide (q = p) then l' else q :: remove_first p l'
  end.

(** An exception that leaves an event handler is reported and dropped. *)
Definition settle (self : JobId) (r : Outcome) : World :=
  match r with
  | Done w => w
  | Throw w => emit (Uncaught self) w
  end.

(** An operation settles: it stops being pending and one of its callbacks runs. *)
Definition deliver (p : Pending) (self : JobId) (fn : World -> Outcome) (w : World) : option World :=
  if bool_decide (p ∈ pending w)
  then Some (settle self (fn (on_pending (remove_first p) w)))
  else None.

(** An image reports the end of its load to the handler in [slot], if any. *)
Definition image_event (i : nat) (slot : Image -> option JobId)
    (fn : JobId -> World -> Outcome) (w : World) : option World :=
  match images w !! i with
  | Some m =>
      if loading m
      then
        let w := on_image i (set_loading false) w in
        match slot m with
        | Some self => Some (settle self (fn self w))
        | None => Some w
        end
      else None
  | None => None
  end.

(** One step; [None] when the event cannot happen in this world. *)
Definition step (e : Event) (w : World) : option World :=
  match e with
  | CallAddJob options => Some (addJob options w)
  | CallClear => Some (clear w)
  | TimerFires h =>
      match timer_closure h (timers w) with
      | Some self =>
          Some (settle self (timer_fn self (on_timers (filter (fun t => t.1 ≠ h)) w)))
      | None => None
      end
  | ImageLoads i => image_event i onload onload_fn w
  | ImageErrors i => image_event i onerror onerror_fn w
  | ImageAborts i => image_event i onabort onerror_fn w
  | XhrSucceeds x self blob => deliver (PXhr x self) self (xhr_success_fn self x blob) w
  | XhrFails x self => deliver (PXhr x self) self (xhr_error_fn self) w
  | GetTileDone self data => deliver (PGetTile self) self (getTile_done_fn self data) w
  | GetTileFails self error => deliver (PGetTile self) self (getTile_fail_fn self error) w
  | HubStartDone self =>
      deliver (PHubStart self) self (fun w => hubStart_done_fn self (set_connected true w)) w
  | HubStartFails self => deliver (PHubStart self) self (hubStart_fail_fn self) w
  | ConnectionChanges state => Some (set_connected state w)
  end.

Fixpoint run (es : list Event) (w : World) : option World :=
  match es with
  | [] => Some w
  | e :: es' =>
      match step e w with
      | Some w' => run es' w'
      | None => None
      end
  end.

(** The worlds that a loader made with the given options can get into. *)
Definition reachable (d : Settings) (limit time : option Z) (w : World) : Prop :=
  ∃ es, run es (init d limit time) = Some w.

(** ** Observations and invariants *)

(** The job whose closures an outstanding operation holds. *)
Definition owner (p : Pending) : JobId :=
  match p with PXhr _ s | PGetTile s | PHubStart s => s end.

(** The operations of job [j] that are still outstanding. *)
Definition pend_of (j : JobId) (ps : list Pending) : list Pending :=
  filter (λ p, owner p = j) ps.

(** The jobs whose [start] ran, in the order in which they started. *)
Definition starts (l : list Effect) : list JobId :=
  omap (λ e, match e with TileLoadStart j _ => Some j | _ => None end) l.

(** The calls of callers' callbacks: job, image and error message. *)
Definition callbacks (l : list Effect) : list (JobId * (option nat * option string)) :=
  omap (λ e, match e with Callback j _ i m _ => Some (j, (i, m)) | _ => None end) l.

(** The arguments with which the callback of job [j] was called. *)
Definition callbacks_of (j : JobId) (l : list Effect) : list (option nat * option string) :=
  (filter (λ c, c.1 = j) (callbacks l)).*2.

Definition handled_by (j : JobId) (m : Image) : Prop :=
  onload m = Some j ∧ onerror m = Some j ∧ onabort m = Some j.

Definition handler_free (m : Image) : Prop :=
  onload m = None ∧ onerror m = None ∧ onabort m = None.

(** Job [j] has been reported to its caller once, with arguments that
    satisfy [r]; or, when [j] is the job [c] that [finish] is about to hand
    to [completeJob], not yet. *)
Definition reported (c : option JobId) (j : JobId) (l : list Effect)
    (r : option nat * option string → Prop) : Prop :=
  if decide (c = Some j) then callbacks_of j l = []
  else ∃ x, callbacks_of j l = [x] ∧ r x.

(** The [abort] property is still what [addJob] put there. *)
Definition plain_abort (f : AbortFn) : Prop :=
  match f with RequestAbort _ _ => False | _ => True end.

(** A job is waiting or dropped (no timer handle yet), in progress, loaded,
    or failed. *)
Definition job_ok (c : option JobId) (w : World) (j : JobId) (b : ImageJob) : Prop :=
  match jobId b with
  | None =>
      image b = None ∧ errorMsg b = None ∧ request b = None
      ∧ plain_abort (abort b)
      ∧ pend_of j (pending w) = [] ∧ callbacks_of j (log w) = []
      ∧ (j ∉ starts (log w)) ∧ c ≠ Some j
  | Some h =>
      j ∈ starts (log w) ∧
      (match image b with
      | Some i =>
          ∃ m, images w !! i = Some m ∧
            (handled_by j m ∧ h ≠ 0%nat ∧ (h, j) ∈ timers w ∧ errorMsg b = None
               ∧ callbacks_of j (log w) = [] ∧ c ≠ Some j
               ∧ (length (pend_of j (pending w)) + (if loading m then 1 else 0) ≤ 1)%nat
             ∨ handler_free m ∧ loading m = false ∧ errorMsg b = None
               ∧ (∀ h', (h', j) ∉ timers w) ∧ pend_of j (pending w) = []
               ∧ reported c j (log w) (λ x, x = (Some i, None)))
      | None =>
          (∀ h', (h', j) ∉ timers w) ∧ is_Some (errorMsg b)
          ∧ reported c j (log w) (λ x, x.1 = None ∧ is_Some x.2)
      end)
  end.

(** How the heap, the browser state and the log hang together.  [c] is the
    job that [finish] has retired and is about to report, if any. *)
Record consistent (c : option JobId) (w : World) : Prop := {
  c_jobs : ∀ j b, jobs w !! j = Some b → job_ok c w j b;
  c_queue_nodup : NoDup (jobQueue (loader w));
  c_queue : ∀ j, j ∈ jobQueue (loader w) → ∃ b, jobs w !! j = Some b ∧ jobId b = None;
  c_handles : (0 < nextTimer w)%nat;
  c_timers : ∀ h j, (h, j) ∈ timers w →
      (h < nextTimer w)%nat ∧ ∃ b, jobs w !! j = Some b ∧ jobId b = Some h;
  c_timers_fun : ∀ h j1 j2, (h, j1) ∈ timers w → (h, j2) ∈ timers w → j1 = j2;
  c_images : ∀ i m j, images w !! i = Some m →
      onload m = Some j ∨ onerror m = Some j ∨ onabort m = Some j →
      ∃ b, jobs w !! j = Some b ∧ image b = Some i;
  c_unique : ∀ j1 j2 b1 b2 i, jobs w !! j1 = Some b1 → jobs w !! j2 = Some b2 →
      image b1 = Some i → image b2 = Some i → j1 = j2;
  c_pending : ∀ p, p ∈ pending w → (owner p < length (jobs w))%nat;
  c_log : ∀ j, j ∈ starts (log w) ∨ callbacks_of j (log w) ≠ [] → (j < length (jobs w))%nat;
  c_retired : ∀ j, c = Some j → (j < length (jobs w))%nat;
  c_timeout : ∀ j b, jobs w !! j = Some b → timeout b = loader_timeout (loader w)
}.

(** The loader's counter is the number of starts minus the number of
    reports. *)
Definition accounted (w : World) : Prop :=
  jobsInProgress (loader w)
  = Z.of_nat (length (starts (log w))) - Z.of_nat (length (callbacks (log w))).

(** With a positive limit the counter stays within it. *)
Definition bounded (w : World) : Prop :=
  0 < jobLimit (loader w) → jobsInProgress (loader w) ≤ jobLimit (loader w).

(** Jobs are numbered in the order of their submission; they start, and
    wait, in that order, and jobs wait only when the loader is full. *)
Record fifo (w : World) : Prop := {
  f_sorted : StronglySorted lt (starts (log w) ++ jobQueue (loader w));
  f_known : Forall (λ j, (j < length (jobs w))%nat) (starts (log w) ++ jobQueue (loader w));
  f_full : jobQueue (loader w) ≠ [] →
      jobLimit (loader w) ≠ 0 ∧ jobLimit (loader w) ≤ jobsInProgress (loader w)
}.

Arguments pend_of : simpl never.
Arguments starts : simpl never.
Arguments callbacks : simpl never.
Arguments callbacks_of : simpl never.

(** *** Vocabulary of the proofs *)

Definition has_room (l : ImageLoader) : Prop :=
  jobLimit l = 0 ∨ jobsInProgress l < jobLimit l.

Definition leave (w : World) : World :=
  on_loader (λ l, set_jobsInProgress (jobsInProgress l - 1) l) w.
Definition enter (w : World) : World :=
  on_loader (λ l, set_jobsInProgress (jobsInProgress l + 1) l) w.
Definition report (j : JobId) (cb : UserFn) (w : World) : World :=
  match jobs w !! j with
  | Some b => emit (Callback j cb (image b) (errorMsg b) (request b)) w
  | None => w
  end.

(** The state in which [finish] calls [this.callback]. *)
Definition retired (j : JobId) (ok : bool) (b : ImageJob) (i : nat) (w : World) : World :=
  let w := on_image i (set_handlers None) w in
  let w := if ok then w else on_job j (set_image None) w in
  match jobId b with
  | Some h => if bool_decide (h ≠ 0%nat) then clearTimeout h w else w
  | None => w
  end.

Definition emits (es : list Effect) (w : World) : World :=
  mkWorld (DEFAULT_SETTINGS w) (loader w) (jobs w) (images w) (timers w) (nextTimer w)
    (pending w) (nextRequest w) (connected w) (log w ++ es).

(** The effects of calling an [abort] value. *)
Fixpoint abort_trace (js : list ImageJob) (j : JobId) (f : AbortFn) : list Effect :=
  match f with
  | NotAFunction => []
  | UserAbort u => [AbortCalled j u]
  | RequestAbort self selfAbort =>
      match js !! self with
      | Some b => match request b with Some x => [XhrAbort x] | None => [] end
      | None => []
      end ++ abort_trace js j selfAbort
  end.

Definition clear_trace (js : list ImageJob) (queue : list JobId) : list Effect :=
  flat_map (λ j, match js !! j with Some b => abort_trace js j (abort b) | None => [] end) queue.

(** Effects that neither start nor report a job. *)
Definition quiet (e : Effect) : Prop :=
  match e with TileLoadStart _ _ | Callback _ _ _ _ _ => False | _ => True end.

Record dispatch_inv (w : World) : Prop := {
  d_accounted : accounted w;
  d_bounded : bounded w;
  d_fifo : fifo w
}.

(** Changes that the dispatcher's invariants do not see. *)
Record same_dispatch (w w' : World) : Prop := {
  sd_loader : loader w' = loader w;
  sd_starts : starts (log w') = starts (log w);
  sd_callbacks : callbacks (log w') = callbacks (log w);
  sd_length : length (jobs w') = length (jobs w)
}.

(** Job [j] has started and nothing has ended it yet. *)
Definition in_progress (w : World) (j : JobId) (b : ImageJob) (h i : nat) (m : Image) : Prop :=
  jobId b = Some h ∧ h ≠ 0%nat ∧ image b = Some i ∧ images w !! i = Some m
  ∧ handled_by j m ∧ (h, j) ∈ timers w ∧ errorMsg b = None
  ∧ callbacks_of j (log w) = []
  ∧ (length (pend_of j (pending w)) + (if loading m then 1 else 0) ≤ 1)%nat.

(** Job [j] has failed: its image is gone. *)
Definition failed (b : ImageJob) : Prop := is_Some (jobId b) ∧ image b = None.

(** The effects of the promotion that [completeJob] makes in [w]: nothing,
    when no job waits or the loader is still full after the counter has been
    lowered; otherwise the start of the head of the queue. *)
Definition promotion (w : World) (es : list Effect) : Prop :=
  (jobQueue (loader w) = [] ∨ ¬ has_room (loader (leave w))) ∧ es = []
  ∨ ∃ n bn, jobs w !! n = Some bn ∧ head (jobQueue (loader w)) = Some n
            ∧ has_room (loader (leave w))
            ∧ es = [TileLoadStart n (src bn); SetTimeout (nextTimer w) n (timeout bn)].

(** Every failure path: the message is stored and [finish(false)] runs. *)
Definition fail_with (j : JobId) (msg : string) (w : World) : Outcome :=
  finish j false (on_job j (set_errorMsg (Some msg)) w).

(** What a job that ends leaves behind. *)
Record ended (j : JobId) (cb : UserFn) (img : option nat) (err : option string)
    (req : option nat) (h : nat) (w w' : World) : Prop := {
  e_cons : consistent None w';
  e_job : ∃ b', jobs w' !! j = Some b' ∧ image b' = img ∧ errorMsg b' = err;
  e_log : ∃ es, promotion w es
      ∧ log w' = log w ++ [ClearTimeout h] ++ es ++ [Callback j cb img err req]
}.

Record evolves (w w' : World) : Prop := {
  ev_settings : DEFAULT_SETTINGS w' = DEFAULT_SETTINGS w;
  ev_limit : jobLimit (loader w') = jobLimit (loader w);
  ev_timeout : loader_timeout (loader w') = loader_timeout (loader w);
  ev_log : log w `prefix_of` log w';
  ev_jobs : (length (jobs w) ≤ length (jobs w'))%nat;
  ev_members : ∀ k, k ∈ starts (log w') ++ jobQueue (loader w') →
      k ∈ starts (log w) ++ jobQueue (loader w) ∨ (length (jobs w) ≤ k)%nat
}.



(** The message of the function given to [setTimeout]. *)
Definition timeout_message (ms : Z) : string :=
  "Image load exceeded timeout (" +:+ JS.number_to_string ms +:+ " ms)".

(** The calls of the callers' abort functions that [clear] makes. *)
Definition abort_hooks (w : World) : list Effect :=
  flat_map
    (λ j, match jobs w !! j with
          | Some b => match abort b with UserAbort f => [AbortCalled j f] | _ => [] end
          | None => []
          end)
    (jobQueue (loader w)).

(** The last segment of the URL. *)
Definition file_name (url : string) : string :=
  JS.to_string (JS.last_elem (JS.split "/" url)).

(** The two numbers that the code reads from a URL: from the first and the
    second piece of the file name between underscores. *)
Definition coordinates (url : string) : JS.number * JS.number :=
  let tokens := JS.split "_" (JS.to_string (head (JS.split "\." (file_name url)))) in
  (JS.parseInt (JS.to_string (tokens !! 0%nat)), JS.parseInt (JS.to_string (tokens !! 1%nat))).

(** (even, even) is 0, (even, odd) 1, (odd, even) 2 and (odd, odd) 3; a
    number that is not even, [NaN] included, counts as odd. *)
Definition endpoint_index (col row : JS.number) : nat :=
  (if JS.rem2_is_zero col then 0 else 2) + (if JS.rem2_is_zero row then 0 else 1).

(** The rule in the words of the specification: reserved prefixes of the
    file name, and the second-to-last and third-to-last pieces. *)
Definition from_end (k : nat) (l : list string) : option string :=
  if (length l <? k)%nat then None else l !! (length l - k)%nat.

Definition spec_balanced_src (b : ImageJob) : string :=
  if String.prefix "labels_" (file_name (src b))
     || String.prefix "predictions_" (file_name (src b))
  then src b
  else
    let tokens := JS.split "_" (file_name (src b)) in
    let col := JS.parseInt (JS.to_string (from_end 2 tokens)) in
    let row := JS.parseInt (JS.to_string (from_end 3 tokens)) in
    JS.to_string (multiServers b !! endpoint_index col row) +:+ src b.

Fixpoint has_char (c : ascii) (s : string) : bool :=
  match s with
  | EmptyString => false
  | String x s' => bool_decide (c = x) || has_char c s'
  end.

Fixpoint all_digits (s : string) : bool :=
  match s with
  | EmptyString => true
  | String c s' => JS.is_digit c && all_digits s'
  end.

(** The number that a string of decimal digits denotes. *)
Fixpoint decimal (acc : Z) (s : string) : Z :=
  match s with
  | EmptyString => acc
  | String c s' => decimal (10 * acc + JS.digit_val c) s'
  end.

Definition starts_with_digit (s : string) : bool :=
  match s with String c _ => JS.is_digit c | EmptyString => false end.

Definition sample_settings : Settings :=
  {| default_imageLoaderLimit := 0; default_timeout := 30000 |}.

(** A plain request for [url] with callback [cb] and an abort function. *)
Definition plain (url : string) (cb : nat) : Options :=
  mkOptions url false None false None false [] None false cb (Some (100 + cb)%nat) None.


Definition ajax (url : string) (cb : nat) : Options :=
  mkOptions url false None true None false [] None false cb None None.

Definition signalR (url : string) (cb : nat) : Options :=
  mkOptions url true (Some 0%nat) false None false [] None false cb None None.

Definition sharded (url : string) (cb : nat) : Options :=
  mkOptions url false None false None true ["s0"; "s1"; "s2"; "s3"] None false cb None None.

(** The world after the events [es], or [w] when one of them cannot happen. *)
Definition after (es : list Event) (w : World) : World := default w (run es w).

(** A loader with limit 2 that was given three requests. *)
Definition three_requests : list Event :=
  [CallAddJob (plain "a" 1); CallAddJob (plain "b" 2); CallAddJob (plain "c" 3)].

Definition busy : World :=
  Eval vm_compute in after three_requests (init sample_settings (Some 2) None).


(** The same loader after [clear] and the load of the first image. *)
Definition cleared_then_loaded : World :=
  Eval vm_compute in after [ImageLoads 0] (clear busy).

(** The same loader after the timer of its first job has fired. *)
Definition timed_out : World := Eval vm_compute in after [TimerFires 1] busy.

(** A loader that was given one AJAX request. *)
Definition fetching : World :=
  Eval vm_compute in after [CallAddJob (ajax "a" 1)] (init sample_settings None None).

Definition fetching_job : ImageJob :=
  Eval vm_compute in default (new_ImageJob (loader fetching) (ajax "a" 1)) (jobs fetching !! 0%nat).

(** A loader whose only job, a SignalR job, found the connection not
    started. *)
Definition connecting : World :=
  Eval vm_compute in after [CallAddJob (signalR "a" 1)] (init sample_settings (Some 2) None).

(** *** Vocabulary of the further properties *)

(** The step from [w] to [w'] ends job [j] and hands [img] and [err] to
    its caller: the job's timer is cleared, a waiting job is promoted if
    there is room, the callback is called once, with the job's request as
    its third argument, and the counter goes down by one and up again by
    the number of jobs promoted. *)
Definition reports (w w' : World) (j : JobId) (img : option nat) (err : option string) : Prop :=
  ∃ h b es,
    jobs w !! j = Some b ∧ (h, j) ∈ timers w ∧ promotion w es
    ∧ log w' = log w ++ [ClearTimeout h] ++ es ++ [Callback j (callback b) img err (request b)]
    ∧ (∀ h', (h', j) ∉ timers w')
    ∧ (∃ b', jobs w' !! j = Some b' ∧ image b' = img ∧ errorMsg b' = err)
    ∧ jobsInProgress (loader w')
      = jobsInProgress (loader w) - 1 + Z.of_nat (length (starts es)).

(** The image of the first job of [busy]. *)
Definition first_image : Image :=
  Eval vm_compute in default (mkImage None None None None None false) (images busy !! 0%nat).

(** A loader whose only job, a SignalR job, has called [getTile]. *)
Definition asking : World :=
  Eval vm_compute in
    after [CallAddJob (signalR "a" 1); HubStartDone 0] (init sample_settings None None).

Definition asking_job : ImageJob :=
  Eval vm_compute in default (new_ImageJob (loader asking) (signalR "a" 1)) (jobs asking !! 0%nat).

(** The callback of the operation [p] ran for a job that had lost its
    image: it stored the message [err], if it is one that stores a message,
    and ended in a TypeError, which is all that is seen of it. *)
Definition dropped (w w' : World) (p : Pending) (err : option string) : Prop :=
  log w' = log w ++ [Uncaught (owner p)]
  ∧ callbacks (log w') = callbacks (log w)
  ∧ loader w' = loader w ∧ timers w' = timers w ∧ images w' = images w
  ∧ pending w' = remove_first p (pending w)
  ∧ jobs w' = match err with
              | Some msg => alter (set_errorMsg (Some msg)) (owner p) (jobs w)
              | None => jobs w
              end.

(** A loader whose only job, an AJAX job, has run into its timeout. *)
Definition late : World :=
  Eval vm_compute in
    after [CallAddJob (ajax "a" 1); TimerFires 1] (init sample_settings None None).

Definition late_job : ImageJob :=
  Eval vm_compute in default (new_ImageJob (loader late) (ajax "a" 1)) (jobs late !! 0%nat).

(** A loader with a negative limit: nothing has started. *)
Definition idle (w : World) : Prop :=
  jobLimit (loader w) < 0 ∧ jobsInProgress (loader w) = 0 ∧ Forall quiet (log w)
  ∧ timers w = [] ∧ images w = [] ∧ pending w = [].

(** A loader that was made with limit -1 and given three requests. *)
Definition stuck : World :=
  Eval vm_compute in after three_requests (init sample_settings (Some (-1)) None).

(** The part of a job that comes from the caller's options. *)
Definition same_options (b b' : ImageJob) : Prop :=
  src b' = src b ∧ loadWithSignalR b' = loadWithSignalR b ∧ signalRHub b' = signalRHub b
  ∧ loadWithAjax b' = loadWithAjax b ∧ ajaxHeaders b' = ajaxHeaders b
  ∧ loadWithMultiServers b' = loadWithMultiServers b ∧ multiServers b' = multiServers b
  ∧ crossOriginPolicy b' = crossOriginPolicy b
  ∧ ajaxWithCredentials b' = ajaxWithCredentials b
  ∧ callback b' = callback b ∧ timeout b' = timeout b.

(** The effects that are made outside of [start] and of a job's [abort]. *)
Definition plain_effect (e : Effect) : Prop :=
  match e with
  | TileLoadStart _ _ | SetTimeout _ _ _ | ClearTimeout _ | XhrAbort _ => False
  | _ => True
  end.

(** What a step that is not a submission keeps: the number of jobs, the
    options of every job, and an empty queue, with which nothing starts. *)
Definition calm (w w' : World) : Prop :=
  length (jobs w') = length (jobs w)
  ∧ (∀ j b, jobs w !! j = Some b → ∃ b', jobs w' !! j = Some b' ∧ same_options b b')
  ∧ (jobQueue (loader w) = [] →
     jobQueue (loader w') = [] ∧ starts (log w') = starts (log w)).

Definition is_addJob (e : Event) : bool :=
  match e with CallAddJob _ => true | _ => false end.

(** A loader without a limit that was given three requests. *)
Definition unlimited : World :=
  Eval vm_compute in after three_requests (init sample_settings (Some 0) None).




(** The handles of the armed timers are distinct and were all given out
    by [setTimeout]. *)
Definition timers_ok (w : World) : Prop :=
  NoDup (timers w).*1 ∧ ∀ t, t ∈ timers w → (t.1 < nextTimer w)%nat.

Definition no_request_aborted (w : World) : Prop := ∀ x, XhrAbort x ∉ log w.

(** The new job and its image just after a submission that was started. *)
Definition admitted (o : Options) (w w1 : World) (b : ImageJob) (m : Image) : Prop :=
  let j := length (jobs w) in
  log w1 = log w ++ [TileLoadStart j (opt_src o);
                     SetTimeout (nextTimer w) j (loader_timeout (loader w))]
  ∧ timers w1 = timers w ++ [(nextTimer w, j)]
  ∧ loader w1 = loader (enter w)
  ∧ jobs w1 !! j = Some b ∧ callback b = opt_callback o
  ∧ image b = Some (length (images w))
  ∧ images w1 !! length (images w) = Some m
  ∧ crossOrigin m = None ∧ img_src m = None ∧ loading m = false.

(** A SignalR request with a hub and a CORS policy. *)
Definition signalR_cors : Options :=
  mkOptions "a" true (Some 0%nat) false None false [] (Some "anonymous") false 1 None None.

Definition ajax_cors : Options :=
  mkOptions "a" false None true None false [] (Some "anonymous") false 1 (Some 7%nat) None.

(** * Lemmas *)

Lemma alter_snoc {A} (f : A → A) (l : list A) (x : A) :
  alter f (length l) (l ++ [x]) = l ++ [f x].
Proof. rewrite alter_app_r_alt by lia. by rewrite Nat.sub_diag. Qed.

Lemma starts_app l1 l2 : starts (l1 ++ l2) = starts l1 ++ starts l2.
Proof. apply omap_app. Qed.

Lemma callbacks_app l1 l2 : callbacks (l1 ++ l2) = callbacks l1 ++ callbacks l2.
Proof. apply omap_app. Qed.

Lemma starts_cons e l :
  starts (e :: l) = match e with TileLoadStart j _ => j :: starts l | _ => starts l end.
Proof. by destruct e. Qed.

Lemma callbacks_cons e l :
  callbacks (e :: l)
  = match e with Callback j _ i m _ => (j, (i, m)) :: callbacks l | _ => callbacks l end.
Proof. by destruct e. Qed.

Lemma starts_nil : starts [] = [].
Proof. done. Qed.

Lemma callbacks_nil : callbacks [] = [].
Proof. done. Qed.

Lemma callbacks_of_app j l1 l2 :
  callbacks_of j (l1 ++ l2) = callbacks_of j l1 ++ callbacks_of j l2.
Proof. unfold callbacks_of. by rewrite callbacks_app, filter_app, fmap_app. Qed.

(** ** What [start] changes *)

Ltac start_unfold Hb :=
  unfold start; rewrite Hb;
  unfold signalRDownloadImageDataFromServer, apply_crossOrigin;
  repeat case_match; cbn; rewrite ?length_alter, ?alter_snoc; cbn.

Section Start.
Context (n : JobId) (b : ImageJob) (w : World) (Hb : jobs w !! n = Some b).

Lemma start_loader : loader (start n w) = loader w.
Proof using Hb. start_unfold Hb; done. Qed.

Lemma start_settings : DEFAULT_SETTINGS (start n w) = DEFAULT_SETTINGS w.
Proof using Hb. start_unfold Hb; done. Qed.

Lemma start_length : length (jobs (start n w)) = length (jobs w).
Proof using Hb. start_unfold Hb; done. Qed.

Lemma start_other k : k ≠ n → jobs (start n w) !! k = jobs w !! k.
Proof using Hb.
  intros Hk. start_unfold Hb; rewrite ?list_lookup_alter_ne by done; done.
Qed.

Lemma start_timers : timers (start n w) = timers w ++ [(nextTimer w, n)].
Proof using Hb. start_unfold Hb; done. Qed.

Lemma start_nextTimer : nextTimer (start n w) = S (nextTimer w).
Proof using Hb. start_unfold Hb; done. Qed.

Lemma start_log :
  log (start n w)
  = log w ++ [TileLoadStart n (src b); SetTimeout (nextTimer w) n (timeout b)].
Proof using Hb. start_unfold Hb; rewrite <- ?app_assoc; done. Qed.

Lemma start_self :
  ∃ b', jobs (start n w) !! n = Some b'
    ∧ jobId b' = Some (nextTimer w) ∧ image b' = Some (length (images w))
    ∧ errorMsg b' = errorMsg b ∧ callback b' = callback b ∧ timeout b' = timeout b
    ∧ src b' = src b.
Proof using Hb.
  start_unfold Hb; rewrite ?list_lookup_alter_eq, Hb; cbn;
    eexists; (split; [reflexivity|]); cbn; tauto.
Qed.

Lemma start_images :
  ∃ m, images (start n w) = images w ++ [m]
    ∧ handled_by n m
    ∧ ((loading m = false ∧ ∃ p, pending (start n w) = pending w ++ [p] ∧ owner p = n)
       ∨ pending (start n w) = pending w).
Proof using Hb.
  start_unfold Hb; eexists; (split; [reflexivity|]); cbn; repeat split; eauto.
Qed.
End Start.

(** ** What [completeJob] does *)

Lemma room_test l :
  negb (JS.truthy (jobLimit l)) || (jobsInProgress l <? jobLimit l) = true ↔ has_room l.
Proof.
  unfold has_room, JS.truthy. rewrite orb_true_iff, negb_true_iff, negb_false_iff.
  rewrite Z.eqb_eq, Z.ltb_lt. tauto.
Qed.

Lemma completeJob_cases j cb w :
  (∃ n rest, jobQueue (loader w) = n :: rest ∧ has_room (loader (leave w))
     ∧ completeJob j cb w
       = report j cb (enter (start n (on_loader (set_jobQueue rest) (leave w)))))
  ∨ ((jobQueue (loader w) = [] ∨ ¬ has_room (loader (leave w)))
     ∧ completeJob j cb w = report j cb (leave w)).
Proof.
  unfold completeJob. fold (leave w).
  destruct (negb _ || _) eqn:Hroom; cbn [andb].
  - apply room_test in Hroom.
    change (jobQueue (loader (leave w))) with (jobQueue (loader w)).
    destruct (jobQueue (loader w)) as [|n rest] eqn:Hq; cbn.
    + right. split; [by left|done].
    + left. exists n, rest. done.
  - right. split; [|done]. right. intros H%room_test. congruence.
Qed.

(** ** What [finish] does *)

Lemma finish_unfold j ok w b :
  jobs w !! j = Some b →
  finish j ok w =
    match image b with
    | None => Throw w
    | Some i => Done (completeJob j (callback b) (retired j ok b i w))
    end.
Proof. intros Hb. unfold finish. by rewrite Hb. Qed.

(** ** What [clear] does *)

Lemma emits_nil w : emits [] w = w.
Proof. destruct w. unfold emits. cbn. by rewrite app_nil_r. Qed.

Lemma emits_emits es1 es2 w : emits es2 (emits es1 w) = emits (es1 ++ es2) w.
Proof. unfold emits. cbn. by rewrite app_assoc. Qed.

Lemma call_abort_emits j f w : call_abort j f w = emits (abort_trace (jobs w) j f) w.
Proof.
  revert w. induction f as [|u|self f IH]; intros w; cbn.
  - by rewrite emits_nil.
  - done.
  - rewrite IH. repeat case_match; cbn; try done.
    change (emit ?e ?w) with (emits [e] w). by rewrite emits_emits.
Qed.

Lemma clear_fold queue w :
  fold_left
    (λ w job, match jobs w !! job with Some b => call_abort job (abort b) w | None => w end)
    queue w
  = emits (clear_trace (jobs w) queue) w.
Proof.
  revert w. induction queue as [|j queue IH]; intros w; cbn.
  - by rewrite emits_nil.
  - unfold clear_trace. cbn. destruct (jobs w !! j) as [b|]; [|apply IH].
    rewrite IH, call_abort_emits. cbn. by rewrite emits_emits.
Qed.

Lemma clear_emits w :
  clear w = on_loader (set_jobQueue []) (emits (clear_trace (jobs w) (jobQueue (loader w))) w).
Proof. unfold clear. by rewrite clear_fold. Qed.

Lemma abort_trace_quiet js j f : Forall quiet (abort_trace js j f).
Proof.
  induction f as [|u|self f IH]; cbn; [constructor|by repeat constructor|].
  apply Forall_app. split; [|done].
  repeat case_match; by repeat constructor.
Qed.

Lemma clear_trace_quiet js queue : Forall quiet (clear_trace js queue).
Proof.
  unfold clear_trace. induction queue as [|j queue IH]; cbn; [constructor|].
  apply Forall_app. split; [|done].
  case_match; [apply abort_trace_quiet|constructor].
Qed.

Lemma quiet_starts es : Forall quiet es → starts es = [].
Proof. induction 1 as [|e es He _ IH]; [done|]. by destruct e. Qed.

Lemma quiet_callbacks es : Forall quiet es → callbacks es = [].
Proof. induction 1 as [|e es He _ IH]; [done|]. by destruct e. Qed.

Lemma quiet_callbacks_of j es : Forall quiet es → callbacks_of j es = [].
Proof. intros H. unfold callbacks_of. by rewrite quiet_callbacks. Qed.

(** ** The dispatcher's invariants *)

Lemma same_dispatch_refl w : same_dispatch w w.
Proof. done. Qed.

Lemma same_dispatch_trans w1 w2 w3 :
  same_dispatch w1 w2 → same_dispatch w2 w3 → same_dispatch w1 w3.
Proof. intros [] []. split; congruence. Qed.

Lemma same_dispatch_inv w w' : same_dispatch w w' → dispatch_inv w → dispatch_inv w'.
Proof.
  intros [Hl Hs Hc Hn] [Ha Hb [F1 F2 F3]].
  split; [| |split]; unfold accounted, bounded in *; rewrite ?Hl, ?Hs, ?Hc, ?Hn; done.
Qed.

Lemma sd_on_job j f w : same_dispatch w (on_job j f w).
Proof. split; cbn; rewrite ?length_alter; done. Qed.
Lemma sd_on_image i f w : same_dispatch w (on_image i f w).
Proof. done. Qed.
Lemma sd_on_timers f w : same_dispatch w (on_timers f w).
Proof. done. Qed.
Lemma sd_on_pending f w : same_dispatch w (on_pending f w).
Proof. done. Qed.
Lemma sd_set_connected v w : same_dispatch w (set_connected v w).
Proof. done. Qed.
Lemma sd_emits es w : Forall quiet es → same_dispatch w (emits es w).
Proof.
  intros He. split; try done; change (log (emits es w)) with (log w ++ es).
  - rewrite starts_app, (quiet_starts es) by done. apply app_nil_r.
  - rewrite callbacks_app, (quiet_callbacks es) by done. apply app_nil_r.
Qed.
Lemma sd_emit e w : quiet e → same_dispatch w (emit e w).
Proof. intros He. apply (sd_emits [e]). by constructor. Qed.
Lemma sd_clearTimeout h w : same_dispatch w (clearTimeout h w).
Proof. unfold clearTimeout. eapply same_dispatch_trans; [apply sd_on_timers|by apply sd_emit]. Qed.

Lemma report_log j cb b w :
  jobs w !! j = Some b →
  log (report j cb w) = log w ++ [Callback j cb (image b) (errorMsg b) (request b)].
Proof. intros Hb. unfold report. by rewrite Hb. Qed.

Lemma report_loader j cb w : loader (report j cb w) = loader w.
Proof. unfold report. by case_match. Qed.

Lemma report_jobs j cb w : jobs (report j cb w) = jobs w.
Proof. unfold report. by case_match. Qed.

Lemma StronglySorted_snoc_lt (l : list nat) (x : nat) :
  StronglySorted lt l → Forall (λ y, (y < x)%nat) l → StronglySorted lt (l ++ [x]).
Proof.
  induction 1 as [|y l Hl IH Hy]; intros Hx; cbn.
  - repeat constructor.
  - inversion_clear Hx. constructor; [by apply IH|].
    apply Forall_app. split; [done|by constructor].
Qed.

Lemma StronglySorted_app_l (l k : list nat) :
  StronglySorted lt (l ++ k) → StronglySorted lt l.
Proof.
  induction l as [|x l IH]; cbn; [constructor|].
  intros H. inversion_clear H as [|? ? Hs Hf]. constructor; [by apply IH|].
  by apply Forall_app in Hf as [? _].
Qed.

Lemma completeJob_dispatch j cb w :
  (j < length (jobs w))%nat → dispatch_inv w → dispatch_inv (completeJob j cb w).
Proof.
  intros Hj [Ha Hb [F1 F2 F3]]. unfold accounted, bounded in *.
  destruct (lookup_lt_is_Some_2 _ _ Hj) as [b Hjb].
  destruct (completeJob_cases j cb w) as [(n & rest & Hq & Hroom & ->)|[Hno ->]].
  - assert (Hn : (n < length (jobs w))%nat).
    { rewrite Hq in F2. apply Forall_app in F2 as [_ F2]. by inversion F2. }
    destruct (lookup_lt_is_Some_2 _ _ Hn) as [bn Hbn].
    set (w1 := on_loader (set_jobQueue rest) (leave w)).
    assert (Hbn1 : jobs w1 !! n = Some bn) by done.
    assert (Hj2 : is_Some (jobs (enter (start n w1)) !! j)).
    { apply lookup_lt_is_Some_2. cbn. by rewrite (start_length _ _ _ Hbn1). }
    destruct Hj2 as [b2 Hb2].
    split; [| |split]; unfold accounted, bounded;
      rewrite ?report_loader, ?report_jobs, ?(report_log _ _ _ _ Hb2); cbn;
      rewrite ?(start_loader _ _ _ Hbn1), ?(start_log _ _ _ Hbn1), ?(start_length _ _ _ Hbn1); cbn;
      rewrite ?starts_app, ?callbacks_app, ?starts_cons, ?callbacks_cons, ?starts_nil, ?callbacks_nil, ?length_app; cbn; rewrite ?app_nil_r.
    + lia.
    + destruct Hroom as [Hr|Hr]; cbn in Hr; lia.
    + rewrite <- app_assoc. cbn. by rewrite <- Hq.
    + rewrite <- app_assoc. cbn. by rewrite <- Hq.
    + intros _. rewrite Hq in F3. destruct F3 as [? ?]; [done|]. split; [done|lia].
  - split; [| |split]; unfold accounted, bounded;
      rewrite ?report_loader, ?report_jobs, ?(report_log j cb b (leave w) Hjb); cbn;
      rewrite ?starts_app, ?callbacks_app, ?starts_cons, ?callbacks_cons, ?starts_nil, ?callbacks_nil, ?length_app; cbn; rewrite ?app_nil_r.
    + lia.
    + intros H. specialize (Hb H). lia.
    + done.
    + done.
    + intros Hq. destruct Hno as [?|Hno]; [done|].
      unfold has_room in Hno. cbn in Hno. lia.
Qed.

Lemma sd_retired j ok b i w : same_dispatch w (retired j ok b i w).
Proof.
  unfold retired.
  repeat first
    [ apply same_dispatch_refl
    | case_match
    | (eapply same_dispatch_trans; [|apply sd_clearTimeout])
    | (eapply same_dispatch_trans; [|apply sd_on_job])
    | (eapply same_dispatch_trans; [|apply sd_on_image]) ].
Qed.

Lemma finish_dispatch j ok w : dispatch_inv w → dispatch_inv (world_of (finish j ok w)).
Proof.
  intros Hw. destruct (jobs w !! j) as [b|] eqn:Hb.
  - rewrite (finish_unfold _ _ _ _ Hb). destruct (image b) as [i|]; [|done]. cbn.
    apply completeJob_dispatch.
    + rewrite (sd_length _ _ (sd_retired j ok b i w)). by eapply lookup_lt_Some.
    + by eapply same_dispatch_inv; [apply sd_retired|].
  - unfold finish. by rewrite Hb.
Qed.

Lemma settle_dispatch j r : dispatch_inv (world_of r) → dispatch_inv (settle j r).
Proof. destruct r as [w|w]; cbn; [done|]. by apply (same_dispatch_inv w), sd_emit. Qed.

Lemma fail_dispatch j msg w :
  dispatch_inv w →
  dispatch_inv (world_of (finish j false (on_job j (set_errorMsg msg) w))).
Proof. intros Hw. by apply finish_dispatch, (same_dispatch_inv w), Hw; apply sd_on_job. Qed.

Lemma assign_dispatch j v w : dispatch_inv w → dispatch_inv (world_of (assign_image_src j v w)).
Proof.
  intros Hw. unfold assign_image_src. repeat case_match; cbn; try done.
  by eapply same_dispatch_inv; [apply sd_on_image|].
Qed.

Lemma addJob_dispatch o w : dispatch_inv w → dispatch_inv (addJob o w).
Proof.
  intros [Ha Hb [F1 F2 F3]]. unfold accounted, bounded in *. unfold addJob.
  set (w1 := on_jobs _ w).
  assert (Hnew : jobs w1 !! length (jobs w) = Some (new_ImageJob (loader w) o)).
  { cbn. by apply list_lookup_middle. }
  assert (F2' : Forall (λ j, (j < length (jobs w1))%nat) (starts (log w) ++ jobQueue (loader w))).
  { cbn. rewrite length_app. cbn. eapply Forall_impl; [done|]. cbn. lia. }
  change (loader w1) with (loader w).
  destruct (negb _ || _) eqn:Hroom.
  - apply room_test in Hroom.
    assert (Hq : jobQueue (loader w) = []).
    { destruct (jobQueue (loader w)) eqn:Hq; [done|].
      destruct F3 as [? ?]; [done|]. unfold has_room in Hroom. lia. }
    split; [| |split]; unfold accounted, bounded; cbn;
      rewrite ?(start_loader _ _ _ Hnew), ?(start_log _ _ _ Hnew), ?(start_length _ _ _ Hnew);
      cbn; rewrite ?starts_app, ?callbacks_app, ?starts_cons, ?callbacks_cons, ?starts_nil, ?callbacks_nil, ?length_app; cbn; rewrite ?app_nil_r, ?Hq in *.
    + lia.
    + unfold has_room in Hroom. lia.
    + rewrite app_nil_r in *. by apply StronglySorted_snoc_lt.
    + rewrite app_nil_r in *. apply Forall_app. split; [|repeat constructor; lia].
      eapply Forall_impl; [exact F2|]. cbn. lia.
    + done.
  - assert (Hfull : ¬ has_room (loader w)) by (rewrite <- room_test; congruence).
    split; [| |split]; unfold accounted, bounded; cbn.
    + done.
    + done.
    + rewrite app_assoc. by apply StronglySorted_snoc_lt.
    + rewrite app_assoc. apply Forall_app. split; [done|]. repeat constructor.
      rewrite length_app. cbn. lia.
    + intros _. unfold has_room in Hfull. lia.
Qed.

Lemma clear_dispatch w : dispatch_inv w → dispatch_inv (clear w).
Proof.
  intros [Ha Hb [F1 F2 F3]]. rewrite clear_emits.
  pose proof (clear_trace_quiet (jobs w) (jobQueue (loader w))) as Hq.
  split; [| |split]; unfold accounted, bounded in *; cbn;
    rewrite ?starts_app, ?callbacks_app, ?(quiet_starts (clear_trace _ _)),
      ?(quiet_callbacks (clear_trace _ _)), ?app_nil_r by done.
  - done.
  - done.
  - by eapply StronglySorted_app_l.
  - by apply Forall_app in F2 as [? _].
  - done.
Qed.

Lemma deliver_dispatch p j fn w w' :
  (∀ w, dispatch_inv w → dispatch_inv (world_of (fn w))) →
  deliver p j fn w = Some w' → dispatch_inv w → dispatch_inv w'.
Proof.
  intros Hfn. unfold deliver. case_bool_decide; [|done]. intros [= <-] Hw.
  apply settle_dispatch, Hfn. by eapply same_dispatch_inv; [apply sd_on_pending|].
Qed.

Lemma image_event_dispatch i slot fn w w' :
  (∀ j w, dispatch_inv w → dispatch_inv (world_of (fn j w))) →
  image_event i slot fn w = Some w' → dispatch_inv w → dispatch_inv w'.
Proof.
  intros Hfn. unfold image_event. repeat case_match; try done; intros [= <-] Hw.
  - apply settle_dispatch, Hfn. by eapply same_dispatch_inv; [apply sd_on_image|].
  - by eapply same_dispatch_inv; [apply sd_on_image|].
Qed.

Lemma step_dispatch e w w' : step e w = Some w' → dispatch_inv w → dispatch_inv w'.
Proof.
  destruct e; cbn.
  - intros [= <-]. apply addJob_dispatch.
  - intros [= <-]. apply clear_dispatch.
  - case_match; [|done]. intros [= <-] Hw. apply settle_dispatch.
    unfold timer_fn. cbn. case_match; [|by eapply same_dispatch_inv; [apply sd_on_timers|]].
    apply fail_dispatch. by eapply same_dispatch_inv; [apply sd_on_timers|].
  - apply image_event_dispatch. intros. by apply finish_dispatch.
  - apply image_event_dispatch. intros. by apply fail_dispatch.
  - apply image_event_dispatch. intros. by apply fail_dispatch.
  - apply deliver_dispatch. intros w0 Hw0. unfold xhr_success_fn.
    destruct blob as [size|]; [|done]. destruct (size =? 0)%N.
    + pose proof (fail_dispatch self (Some "Empty image response."%string) w0 Hw0) as H.
      destruct (finish _ _ _); [|done]. by apply assign_dispatch.
    + by apply assign_dispatch.
  - apply deliver_dispatch. intros. by apply fail_dispatch.
  - apply deliver_dispatch. intros w0 Hw0. unfold getTile_done_fn.
    destruct data as [[mime base64]|]; [by apply assign_dispatch|by apply fail_dispatch].
  - apply deliver_dispatch. intros. by apply fail_dispatch.
  - apply deliver_dispatch. intros w0 Hw0. cbn.
    apply (same_dispatch_inv w0); [|done].
    eapply same_dispatch_trans; [apply sd_set_connected|].
    unfold signalRDownloadImageDataFromServer. apply sd_on_pending.
  - apply deliver_dispatch. intros w0 Hw0. cbn.
    by apply (same_dispatch_inv w0); [apply sd_emit|].
  - intros [= <-]. by apply (same_dispatch_inv w), sd_set_connected.
Qed.

Lemma init_dispatch d limit time : dispatch_inv (init d limit time).
Proof.
  split; [| |split]; unfold accounted, bounded; cbn; try done.
  - lia.
  - constructor.
Qed.

Lemma run_dispatch es w w' : run es w = Some w' → dispatch_inv w → dispatch_inv w'.
Proof.
  revert w. induction es as [|e es IH]; intros w; cbn.
  - by intros [= <-].
  - destruct (step e w) as [w1|] eqn:He; [|done].
    intros Hrun Hw. eapply IH; [done|]. by eapply step_dispatch.
Qed.

Lemma reachable_dispatch d limit time w : reachable d limit time w → dispatch_inv w.
Proof. intros [es He]. eapply run_dispatch; [done|apply init_dispatch]. Qed.

(** ** The consistency invariant *)

Lemma reported_transfer c c' j l l' r :
  callbacks_of j l' = callbacks_of j l → (c' = Some j ↔ c = Some j) →
  reported c j l r → reported c' j l' r.
Proof.
  unfold reported. intros -> Hc. repeat case_decide; try done; tauto.
Qed.

(** A job that an operation does not touch stays in order. *)
Lemma job_ok_transfer c c' w w' j b :
  (∀ i, image b = Some i → images w' !! i = images w !! i) →
  (∀ h, (h, j) ∈ timers w' ↔ (h, j) ∈ timers w) →
  (length (pend_of j (pending w')) ≤ length (pend_of j (pending w)))%nat →
  callbacks_of j (log w') = callbacks_of j (log w) →
  (j ∈ starts (log w') ↔ j ∈ starts (log w)) →
  (c' = Some j ↔ c = Some j) →
  job_ok c w j b → job_ok c' w' j b.
Proof.
  intros Hi Ht Hp Hl Hs Hc. unfold job_ok.
  assert (Hnil : pend_of j (pending w) = [] → pend_of j (pending w') = []).
  { intros H. rewrite H in Hp. destruct (pend_of j (pending w')); [done|cbn in Hp; lia]. }
  destruct (jobId b) as [h|].
  - rewrite Hs. intros [? H]. split; [done|].
    destruct (image b) as [i|].
    + destruct H as (m & Hm & H). exists m. rewrite (Hi i eq_refl), Hl, Ht.
      split; [done|].
      destruct H as [H|H]; [left|right].
      * rewrite Hc. destruct H as (? & ? & ? & ? & ? & ? & ?). split_and!; try done. lia.
      * destruct H as (? & ? & ? & Hno & ? & ?). split_and!; auto.
        -- intros h'. rewrite Ht. apply Hno.
        -- by eapply reported_transfer.
    + destruct H as (Hno & ? & ?). split_and!; try done.
      * intros h'. rewrite Ht. apply Hno.
      * by eapply reported_transfer.
  - rewrite Hl, Hs, Hc. intros (? & ? & ? & ? & ? & ? & ? & ?). split_and!; auto.
Qed.

Lemma cons_on_loader c f w :
  loader_timeout (f (loader w)) = loader_timeout (loader w) →
  NoDup (jobQueue (f (loader w))) →
  (∀ j, j ∈ jobQueue (f (loader w)) → j ∈ jobQueue (loader w)) →
  consistent c w → consistent c (on_loader f w).
Proof.
  intros Hto Hnd Hsub [].
  split; try done.
  - intros j Hj. apply c_queue0. by apply Hsub.
  - cbn. by rewrite Hto.
Qed.

Lemma cons_leave c w : consistent c w → consistent c (leave w).
Proof. intros H. apply cons_on_loader; [done|apply H|done|done]. Qed.

Lemma cons_enter c w : consistent c w → consistent c (enter w).
Proof. intros H. apply cons_on_loader; [done|apply H|done|done]. Qed.

Lemma cons_set_connected c v w : consistent c w → consistent c (set_connected v w).
Proof. by intros []. Qed.

Lemma cons_emits c es w : Forall quiet es → consistent c w → consistent c (emits es w).
Proof.
  intros Hq [].
  assert (Hs : starts (log (emits es w)) = starts (log w)).
  { change (log (emits es w)) with (log w ++ es).
    rewrite starts_app, (quiet_starts es) by done. apply app_nil_r. }
  assert (Hc : ∀ j, callbacks_of j (log (emits es w)) = callbacks_of j (log w)).
  { intros j. change (log (emits es w)) with (log w ++ es).
    rewrite callbacks_of_app, (quiet_callbacks_of j es) by done. apply app_nil_r. }
  split; try done.
  - intros j b Hb.
    apply (job_ok_transfer c c w); [done|done|done|apply Hc|by rewrite Hs|done|by apply c_jobs0].
  - intros j. rewrite Hs, Hc. apply c_log0.
Qed.

Lemma cons_emit c e w : quiet e → consistent c w → consistent c (emit e w).
Proof. intros He. apply (cons_emits c [e]). by constructor. Qed.

Lemma remove_first_subset p q ps : q ∈ remove_first p ps → q ∈ ps.
Proof.
  induction ps as [|x ps IH]; cbn; [done|].
  case_bool_decide; [by right|].
  intros [->|?]%elem_of_cons; [by left|right; auto].
Qed.

Lemma pend_of_remove_first_le j p ps :
  (length (pend_of j (remove_first p ps)) ≤ length (pend_of j ps))%nat.
Proof.
  unfold pend_of. induction ps as [|x ps IH]; cbn [remove_first]; [done|].
  case_bool_decide; subst.
  - rewrite filter_cons. case_decide; cbn [length]; lia.
  - rewrite !filter_cons. case_decide; cbn [length]; lia.
Qed.

Lemma pend_of_remove_first j p ps :
  p ∈ ps → owner p = j →
  S (length (pend_of j (remove_first p ps))) = length (pend_of j ps).
Proof.
  unfold pend_of. intros Hp Hj. induction ps as [|x ps IH]; cbn [remove_first].
  - by apply elem_of_nil in Hp.
  - case_bool_decide; subst.
    + by rewrite filter_cons_True.
    + apply elem_of_cons in Hp as [->|Hp]; [done|].
      rewrite !filter_cons. case_decide; cbn [length]; rewrite <- IH by done; done.
Qed.

Lemma cons_remove_pending c p w :
  consistent c w → consistent c (on_pending (remove_first p) w).
Proof.
  intros []. split; try done.
  - intros j b Hb.
    apply (job_ok_transfer c c w); [done|done| |done|done|done|by apply c_jobs0].
    apply pend_of_remove_first_le.
  - intros q Hq. cbn in *. by apply c_pending0, (remove_first_subset p).
Qed.

(** Changing an image without touching its handlers. *)
Lemma cons_on_image c i f w :
  (∀ m, onload (f m) = onload m ∧ onerror (f m) = onerror m ∧ onabort (f m) = onabort m) →
  (∀ m, images w !! i = Some m → loading (f m) = true →
        loading m = true ∨ ∃ j, onload m = Some j ∧ pend_of j (pending w) = []) →
  consistent c w → consistent c (on_image i f w).
Proof.
  intros Hf Hload Hw. pose proof Hw as [].
  split; try done.
  - intros j b Hb. specialize (c_jobs0 j b Hb). unfold job_ok in *.
    destruct (jobId b) as [h|]; [|done]. destruct c_jobs0 as [? H]. split; [done|].
    destruct (image b) as [i'|]; [|done].
    destruct H as (m & Hm & H). cbn. rewrite list_lookup_alter.
    case_decide as Hi; [subst i'|eauto]. rewrite Hm. cbn. eexists. split; [done|].
    destruct (Hf m) as (Hf1 & Hf2 & Hf3). unfold handled_by, handler_free. rewrite Hf1, Hf2, Hf3.
    destruct H as [H|H]; [left|right].
    + destruct H as ((Hh & ? & ?) & ? & ? & ? & ? & ? & Hcount).
      split_and!; try done.
      destruct (loading (f m)) eqn:Hl; [|destruct (loading m); lia].
      destruct (Hload m Hm Hl) as [Hl'|(j' & Hj' & Hnil)]; [by rewrite Hl' in Hcount|].
      assert (j' = j) as -> by congruence. rewrite Hnil. cbn. lia.
    + destruct H as ((Hh & ? & ?) & Hfalse & ? & ? & ? & ?). split_and!; try done.
      destruct (loading (f m)) eqn:Hl; [|done].
      destruct (Hload m Hm Hl) as [?|(j' & Hj' & Hnil)]; congruence.
  - intros i' m j. cbn. rewrite list_lookup_alter. case_decide; [subst|by apply c_images0].
    destruct (images w !! i') as [m'|] eqn:Hm'; [|done]. cbn. intros [= <-].
    destruct (Hf m') as (-> & -> & ->). by apply c_images0.
Qed.

Lemma pend_of_nil_iff j ps : pend_of j ps = [] ↔ ∀ p, p ∈ ps → owner p ≠ j.
Proof.
  unfold pend_of. split.
  - intros H p Hp Hj. assert (p ∈ filter (λ p, owner p = j) ps) as Hin
      by (by apply list_elem_of_filter).
    rewrite H in Hin. by apply elem_of_nil in Hin.
  - intros H. induction ps as [|p ps IH]; [done|].
    rewrite filter_cons_False; [|apply H; by left].
    apply IH. intros q Hq. apply H. by right.
Qed.

Lemma callbacks_of_nil_iff j l : callbacks_of j l = [] ↔ ∀ x, (j, x) ∉ callbacks l.
Proof.
  unfold callbacks_of. split.
  - intros H x Hx.
    assert ((j, x) ∈ filter (λ c : nat * _, c.1 = j) (callbacks l)) as Hin
      by (by apply list_elem_of_filter).
    apply fmap_nil_inv in H. rewrite H in Hin. by apply elem_of_nil in Hin.
  - intros H. induction (callbacks l) as [|[k x] cs IH]; [done|].
    rewrite filter_cons_False.
    + apply IH. intros y Hy. apply (H y). by right.
    + cbn. intros ->. apply (H x). by left.
Qed.

(** A new job object. *)
Lemma cons_alloc c b0 w :
  jobId b0 = None → image b0 = None → errorMsg b0 = None → request b0 = None →
  plain_abort (abort b0) → timeout b0 = loader_timeout (loader w) →
  consistent c w → consistent c (on_jobs (λ js, js ++ [b0]) w).
Proof.
  intros B1 B2 B3 B4 B5 B6 Hw. pose proof Hw as [].
  assert (Hold : ∀ j b, jobs w !! j = Some b → (jobs w ++ [b0]) !! j = Some b).
  { intros j b Hb. by apply lookup_app_l_Some. }
  assert (Hcases : ∀ j b, (jobs w ++ [b0]) !! j = Some b →
            jobs w !! j = Some b ∨ j = length (jobs w) ∧ b = b0).
  { intros j b [?|[? [? ?]%list_lookup_singleton_Some]]%lookup_app_Some; [by left|right].
    split; [lia|done]. }
  split; cbn; try done.
  - intros j b [Hb|[-> ->]]%Hcases.
    + by apply (job_ok_transfer c c w), c_jobs0.
    + unfold job_ok. rewrite B1. cbn. split_and!; try done.
      * apply pend_of_nil_iff. intros p Hp%c_pending0. lia.
      * destruct (callbacks_of (length (jobs w)) (log w)) eqn:E; [done|].
        assert (length (jobs w) < length (jobs w))%nat; [|lia].
        apply c_log0. right. by rewrite E.
      * intros H. assert (length (jobs w) < length (jobs w))%nat; [|lia]. apply c_log0. by left.
      * intros H%c_retired0. lia.
  - intros j (b & ? & ?)%c_queue0. eauto.
  - intros h j [? (b & ? & ?)]%c_timers0. eauto.
  - intros i m j Hm H. destruct (c_images0 i m j Hm H) as (b & ? & ?). eauto.
  - intros j1 j2 b1 b2 i [?|[-> ->]]%Hcases [?|[-> ->]]%Hcases; try congruence. eauto.
  - intros p Hp%c_pending0. rewrite length_app. cbn. lia.
  - intros j Hj%c_log0. rewrite length_app. cbn. lia.
  - intros j Hj%c_retired0. rewrite length_app. cbn. lia.
  - intros j b [Hb|[-> ->]]%Hcases; [by eapply c_timeout0|done].
Qed.

(** A job that has not started joins the queue. *)
Lemma cons_enqueue c j b w :
  jobs w !! j = Some b → jobId b = None → j ∉ jobQueue (loader w) →
  consistent c w →
  consistent c (on_loader (λ l, set_jobQueue (jobQueue l ++ [j]) l) w).
Proof.
  intros Hb Hid Hnew Hw. pose proof Hw as []. split; cbn; try done.
  - apply NoDup_app. split_and!; [done| |apply NoDup_singleton].
    intros k Hk Hk'%list_elem_of_singleton. by subst.
  - intros k [Hk|Hk%list_elem_of_singleton]%elem_of_app; subst; eauto.
Qed.

Lemma pend_of_app j ps qs : pend_of j (ps ++ qs) = pend_of j ps ++ pend_of j qs.
Proof. apply filter_app. Qed.

Lemma callbacks_of_quiet j l es :
  Forall quiet es → callbacks_of j (l ++ es) = callbacks_of j l.
Proof. intros H. rewrite callbacks_of_app, (quiet_callbacks_of j es) by done. apply app_nil_r. Qed.

Lemma job_image_known c w j b i :
  consistent c w → jobs w !! j = Some b → image b = Some i → is_Some (images w !! i).
Proof.
  intros Hw Hb Hi. pose proof (c_jobs _ _ Hw j b Hb) as H. unfold job_ok in H.
  rewrite Hi in H. destruct (jobId b); [|by destruct H].
  destruct H as (_ & m & -> & _). eauto.
Qed.

(** A waiting job starts. *)
Lemma cons_start c n b w :
  jobs w !! n = Some b → jobId b = None → n ∉ jobQueue (loader w) →
  consistent c w → consistent c (start n w).
Proof.
  intros Hb Hid Hq Hw. pose proof Hw as [].
  pose proof (c_jobs0 n b Hb) as Hn. unfold job_ok in Hn. rewrite Hid in Hn.
  destruct Hn as (N1 & N2 & N3 & N4 & N5 & N6 & N7 & N8).
  destruct (start_self n b w Hb) as (b' & Hb' & S1 & S2 & S3 & S4 & S5 & S6).
  destruct (start_images n b w Hb) as (m & Him & Hm & Hpend).
  pose proof (start_other n b w Hb) as Hother.
  pose proof (start_log n b w Hb) as Hlog.
  pose proof (start_timers n b w Hb) as Htim.
  assert (Hquiet : ∀ k, k ≠ n → callbacks_of k (log (start n w)) = callbacks_of k (log w)).
  { intros k _. rewrite Hlog, callbacks_of_app. unfold callbacks_of at 2.
    rewrite !callbacks_cons, callbacks_nil. apply app_nil_r. }
  assert (Hcb : ∀ k, callbacks_of k (log (start n w)) = callbacks_of k (log w)).
  { intros k. rewrite Hlog, callbacks_of_app. unfold callbacks_of at 2.
    rewrite !callbacks_cons, callbacks_nil. apply app_nil_r. }
  assert (Hst : starts (log (start n w)) = starts (log w) ++ [n]).
  { by rewrite Hlog, starts_app, !starts_cons, starts_nil. }
  assert (Hpk : ∀ k, k ≠ n → pend_of k (pending (start n w)) = pend_of k (pending w)).
  { intros k Hk. destruct Hpend as [(_ & p & -> & Hp)| ->]; [|done].
    rewrite pend_of_app. unfold pend_of at 2. rewrite filter_cons_False by congruence.
    apply app_nil_r. }
  assert (Hjobs : ∀ k bk, jobs (start n w) !! k = Some bk →
            k ≠ n ∧ jobs w !! k = Some bk ∨ k = n ∧ bk = b').
  { intros k bk Hk. destruct (decide (k = n)) as [->|Hne]; [right|left].
    - split; [done|congruence].
    - by rewrite Hother in Hk. }
  split.
  - intros k bk [[Hk Hbk]|[-> ->]]%Hjobs.
    + apply (job_ok_transfer c c w); [| | | | |done|by apply c_jobs0].
      * intros i Hi. destruct (job_image_known c w k bk i Hw Hbk Hi) as [mi Hmi].
        rewrite Him, Hmi. by apply lookup_app_l_Some.
      * intros h. rewrite Htim, elem_of_app, list_elem_of_singleton.
        split; [intros [?|?]; [done|congruence]|by left].
      * by rewrite Hpk.
      * by apply Hquiet.
      * rewrite Hst, elem_of_app, list_elem_of_singleton.
        split; [intros [?|?]; [done|congruence]|by left].
    + unfold job_ok. rewrite S1, S2. split.
      { rewrite Hst. apply elem_of_app. right. by left. }
      exists m. split.
      { rewrite Him. by apply list_lookup_middle. }
      left. split_and!; try done.
      * lia.
      * rewrite Htim. apply elem_of_app. right. by left.
      * congruence.
      * by rewrite Hcb.
      * destruct Hpend as [(Hl & p & -> & Hp)| ->].
        -- rewrite Hl, pend_of_app, N5. unfold pend_of. by rewrite filter_cons_True.
        -- rewrite N5. destruct (loading m); cbn; lia.
  - by rewrite (start_loader n b w Hb).
  - rewrite (start_loader n b w Hb). intros k Hk.
    destruct (c_queue0 k Hk) as (bk & ? & ?). exists bk. split; [|done].
    rewrite Hother; [done|]. by intros ->.
  - rewrite (start_nextTimer n b w Hb). lia.
  - intros h k. rewrite Htim, (start_nextTimer n b w Hb), elem_of_app, list_elem_of_singleton.
    intros [Hk|[= -> ->]].
    + destruct (c_timers0 h k Hk) as (? & bk & Hbk & ?). split; [lia|].
      exists bk. split; [|done]. rewrite Hother; [done|]. intros ->. congruence.
    + split; [lia|]. eauto.
  - intros h k1 k2. rewrite Htim, !elem_of_app, !list_elem_of_singleton.
    intros [H1|H1] [H2|H2]; simplify_eq; try done.
    + by eapply c_timers_fun0.
    + apply c_timers0 in H1 as [? _]. lia.
    + apply c_timers0 in H2 as [? _]. lia.
  - intros i mi k. rewrite Him. intros [Hi|[Hi Hmi]]%lookup_app_Some Hh.
    + destruct (c_images0 i mi k Hi Hh) as (bk & Hbk & Hik). exists bk. split; [|done].
      rewrite Hother; [done|]. intros ->. congruence.
    + apply list_lookup_singleton_Some in Hmi as [Hz <-].
      destruct Hm as (M1 & M2 & M3). rewrite M1, M2, M3 in Hh.
      assert (k = n) as -> by (destruct Hh as [?|[?|?]]; congruence).
      exists b'. split; [done|]. rewrite S2. f_equal. lia.
  - intros k1 k2 b1 b2 i [[? H1]|[-> ->]]%Hjobs [[? H2]|[-> ->]]%Hjobs I1 I2; try done.
    + by eapply c_unique0.
    + rewrite S2 in I2. injection I2 as <-.
      apply (job_image_known c w k1 b1 _ Hw H1) in I1 as [? I1%lookup_lt_Some]. lia.
    + rewrite S2 in I1. injection I1 as <-.
      apply (job_image_known c w k2 b2 _ Hw H2) in I2 as [? I2%lookup_lt_Some]. lia.
  - rewrite (start_length n b w Hb). intros p.
    destruct Hpend as [(_ & q & -> & Hq')| ->]; [|by apply c_pending0].
    intros [Hp|Hp%list_elem_of_singleton]%elem_of_app; [by apply c_pending0|].
    subst. by eapply lookup_lt_Some.
  - rewrite (start_length n b w Hb). intros k. rewrite Hst, Hcb, elem_of_app, list_elem_of_singleton.
    intros [[Hk| ->]|Hk]; [apply c_log0; by left|by eapply lookup_lt_Some|apply c_log0; by right].
  - rewrite (start_length n b w Hb). done.
  - rewrite (start_loader n b w Hb).
    intros k bk [[? ?]|[-> ->]]%Hjobs; [by eapply c_timeout0|]. rewrite S5. by eapply c_timeout0.
Qed.

(** The retired job is reported. *)
Lemma cons_report j cb w : consistent (Some j) w → consistent None (report j cb w).
Proof.
  intros Hw. pose proof Hw as [].
  destruct (lookup_lt_is_Some_2 (jobs w) j) as [b Hb]; [by apply c_retired0|].
  assert (Heq : report j cb w = emit (Callback j cb (image b) (errorMsg b) (request b)) w).
  { unfold report. by rewrite Hb. }
  rewrite Heq. set (e := Callback j cb (image b) (errorMsg b) (request b)).
  assert (Hst : starts (log (emit e w)) = starts (log w)).
  { cbn. rewrite starts_app, starts_cons, starts_nil. apply app_nil_r. }
  assert (Hcb : ∀ k, k ≠ j → callbacks_of k (log (emit e w)) = callbacks_of k (log w)).
  { intros k Hk. cbn. rewrite callbacks_of_app. unfold callbacks_of at 2.
    rewrite callbacks_cons, callbacks_nil. unfold e. rewrite filter_cons_False by (cbn; congruence).
    apply app_nil_r. }
  assert (Hcj : callbacks_of j (log (emit e w))
                = callbacks_of j (log w) ++ [(image b, errorMsg b)]).
  { cbn. rewrite callbacks_of_app. unfold callbacks_of at 2.
    rewrite callbacks_cons, callbacks_nil. unfold e. by rewrite filter_cons_True. }
  split; try done.
  - intros k bk Hk. destruct (decide (k = j)) as [->|Hne].
    + assert (bk = b) as -> by (cbn in Hk; congruence). specialize (c_jobs0 j b Hb).
      unfold job_ok in *. destruct (jobId b) as [h|]; [|by destruct c_jobs0 as (_&_&_&_&_&_&_&?)].
      rewrite Hst. destruct c_jobs0 as [? H]. split; [done|].
      destruct (image b) as [i|].
      * destruct H as (m & Hm & [H|H]); [by destruct H as (_&_&_&_&_&?&_)|].
        exists m. split; [done|]. right.
        destruct H as (? & ? & ? & ? & ? & Hr). split_and!; try done.
        unfold reported in *. rewrite decide_True in Hr by done.
        rewrite decide_False by done. rewrite Hcj, Hr. eexists. split; [done|]. congruence.
      * destruct H as (? & ? & Hr). split_and!; try done.
        unfold reported in *. rewrite decide_True in Hr by done.
        rewrite decide_False by done. rewrite Hcj, Hr. eexists. split; [done|]. done.
    + apply (job_ok_transfer (Some j) None w); [done|done|done| | | |by apply c_jobs0].
      * by apply Hcb.
      * by rewrite Hst.
      * split; [done|congruence].
  - intros k. rewrite Hst. destruct (decide (k = j)) as [->|Hne]; [by intros _; apply c_retired0|].
    rewrite Hcb by done. apply c_log0.
Qed.

Lemma timer_in_progress c w h j :
  consistent c w → (h, j) ∈ timers w →
  ∃ b i m, jobs w !! j = Some b ∧ in_progress w j b h i m.
Proof.
  intros Hw Ht. destruct (c_timers _ _ Hw h j Ht) as (_ & b & Hb & Hid).
  pose proof (c_jobs _ _ Hw j b Hb) as H. unfold job_ok in H. rewrite Hid in H.
  destruct H as [_ H]. destruct (image b) as [i|] eqn:Hi.
  - destruct H as (m & Hm & [H|H]).
    + exists b, i, m. split; [done|]. unfold in_progress.
      destruct H as (? & ? & ? & ? & ? & ? & ?). split_and!; done.
    + destruct H as (_ & _ & _ & Hno & _). by destruct (Hno h).
  - destruct H as (Hno & _). by destruct (Hno h).
Qed.

Lemma handler_in_progress c w i m j :
  consistent c w → images w !! i = Some m →
  onload m = Some j ∨ onerror m = Some j ∨ onabort m = Some j →
  ∃ b h, jobs w !! j = Some b ∧ in_progress w j b h i m.
Proof.
  intros Hw Hm Hh. destruct (c_images _ _ Hw i m j Hm Hh) as (b & Hb & Hi).
  pose proof (c_jobs _ _ Hw j b Hb) as H. unfold job_ok in H. rewrite Hi in H.
  destruct (jobId b) as [h|] eqn:Hid; [|by destruct H].
  destruct H as (_ & m' & Hm' & H). assert (m' = m) as -> by congruence.
  destruct H as [H|H].
  - exists b, h. split; [done|]. unfold in_progress.
    destruct H as (? & ? & ? & ? & ? & ? & ?). split_and!; done.
  - destruct H as ((? & ? & ?) & _). destruct Hh as [?|[?|?]]; congruence.
Qed.

Lemma owner_cases c w p :
  consistent c w → p ∈ pending w →
  ∃ b, jobs w !! owner p = Some b
       ∧ ((∃ h i m, in_progress w (owner p) b h i m ∧ loading m = false
                    ∧ length (pend_of (owner p) (pending w)) = 1%nat)
          ∨ failed b).
Proof.
  intros Hw Hp.
  destruct (lookup_lt_is_Some_2 (jobs w) (owner p)) as [b Hb]; [by eapply c_pending|].
  assert (Hin : p ∈ pend_of (owner p) (pending w)) by (by apply list_elem_of_filter).
  assert (Hlen : (0 < length (pend_of (owner p) (pending w)))%nat).
  { destruct (pend_of _ _); [by apply elem_of_nil in Hin|cbn; lia]. }
  exists b. split; [done|].
  pose proof (c_jobs _ _ Hw _ b Hb) as H. unfold job_ok in H.
  destruct (jobId b) as [h|] eqn:Hid.
  - destruct H as [_ H]. destruct (image b) as [i|] eqn:Hi; [|right; split; eauto].
    destruct H as (m & Hm & [H|H]).
    + left. exists h, i, m. unfold in_progress.
      destruct H as (? & ? & ? & ? & ? & ? & ?). destruct (loading m); split_and!; try done; lia.
    + destruct H as (_ & _ & _ & _ & Hnil & _). rewrite Hnil in Hlen. cbn in Hlen. lia.
  - destruct H as (_ & _ & _ & _ & Hnil & _). rewrite Hnil in Hlen. cbn in Hlen. lia.
Qed.

(** The job in progress is retired: its handlers and its timer go, and it
    keeps its image or drops it with an error message. *)
Lemma cons_retire j b h i m b' w w' :
  consistent None w → jobs w !! j = Some b → in_progress w j b h i m →
  jobId b' = Some h → timeout b' = timeout b →
  (image b' = None ∧ is_Some (errorMsg b')
   ∨ image b' = Some i ∧ errorMsg b' = None ∧ pend_of j (pending w) = [] ∧ loading m = false) →
  loader w' = loader w → jobs w' = <[j := b']> (jobs w) →
  images w' = alter (set_handlers None) i (images w) →
  (∀ t, t ∈ timers w' ↔ t ∈ timers w ∧ t.1 ≠ h) →
  nextTimer w' = nextTimer w → pending w' = pending w →
  starts (log w') = starts (log w) →
  (∀ k, callbacks_of k (log w') = callbacks_of k (log w)) →
  consistent (Some j) w'.
Proof.
  intros Hw Hb (P1 & P2 & P3 & P4 & P5 & P6 & P7 & P8 & P9) B1 B3 B2 El Ej Ei Et En Ep Es Ec.
  pose proof Hw as [].
  assert (Hj : (j < length (jobs w))%nat) by (by eapply lookup_lt_Some).
  assert (Hjobs : ∀ k bk, jobs w' !! k = Some bk →
            k ≠ j ∧ jobs w !! k = Some bk ∨ k = j ∧ bk = b').
  { intros k bk. rewrite Ej. destruct (decide (k = j)) as [->|Hne].
    - rewrite list_lookup_insert_eq by done. intros [= <-]. by right.
    - rewrite list_lookup_insert_ne by done. by left. }
  assert (Hkeep : ∀ k bk, k ≠ j → jobs w !! k = Some bk → jobs w' !! k = Some bk).
  { intros k bk Hne Hk. rewrite Ej. by rewrite list_lookup_insert_ne. }
  assert (Hself : jobs w' !! j = Some b').
  { rewrite Ej. by apply list_lookup_insert_eq. }
  assert (Hmine : ∀ h', (h', j) ∈ timers w → h' = h).
  { intros h' Ht. destruct (c_timers0 h' j Ht) as (_ & b0 & ? & ?). congruence. }
  assert (Hgone : ∀ h', (h', j) ∉ timers w').
  { intros h'. rewrite Et. cbn. intros [Ht%Hmine ?]. done. }
  assert (Hothers : ∀ k h', k ≠ j → (h', k) ∈ timers w' ↔ (h', k) ∈ timers w).
  { intros k h' Hne. rewrite Et. cbn. split; [tauto|]. intros Ht. split; [done|].
    intros ->. apply Hne. by eapply c_timers_fun0. }
  split.
  - intros k bk [[Hne Hk]|[-> ->]]%Hjobs.
    + apply (job_ok_transfer None (Some j) w); [| | | | | |by apply c_jobs0].
      * intros ik Hik. rewrite Ei. apply list_lookup_alter_ne. intros <-.
        apply Hne. by eapply c_unique0.
      * intros h'. by apply Hothers.
      * by rewrite Ep.
      * apply Ec.
      * by rewrite Es.
      * split; [congruence|done].
    + pose proof (c_jobs0 j b Hb) as Hok. unfold job_ok in Hok. rewrite P1 in Hok.
      destruct Hok as [Hst _].
      unfold job_ok. rewrite B1, Es. split; [done|].
      destruct B2 as [(-> & ?)|(-> & ? & ? & ?)].
      * split_and!; try done. unfold reported. rewrite decide_True by done. by rewrite Ec.
      * exists (set_handlers None m). split.
        { rewrite Ei, list_lookup_alter_eq, P4. done. }
        right. rewrite Ep. split_and!; try done.
        unfold reported. rewrite decide_True by done. by rewrite Ec.
  - by rewrite El.
  - rewrite El. intros k Hk. destruct (c_queue0 k Hk) as (bk & ? & ?). exists bk.
    split; [|done]. apply Hkeep; [|done]. intros ->. congruence.
  - by rewrite En.
  - intros h' k. rewrite Et, En. cbn. intros [Ht _].
    destruct (c_timers0 h' k Ht) as (? & bk & Hbk & Hid). split; [done|].
    destruct (decide (k = j)) as [->|Hne].
    + exists b'. split; [done|]. rewrite B1. f_equal. symmetry. by apply Hmine.
    + exists bk. split; [by apply Hkeep|done].
  - intros h' k1 k2. rewrite !Et. intros [? _] [? _]. by eapply c_timers_fun0.
  - intros i' m' k. rewrite Ei, list_lookup_alter. case_decide as Hi.
    + subst i'. rewrite P4. cbn. intros [= <-]. cbn. intros [?|[?|?]]; done.
    + intros Hm' Hh. destruct (c_images0 i' m' k Hm' Hh) as (bk & Hbk & Hik).
      exists bk. split; [|done]. apply Hkeep; [|done]. intros ->. congruence.
  - assert (Himg : ∀ x, image b' = Some x → image b = Some x).
    { intros x. destruct B2 as [(-> & ?)|(-> & ?)]; [done|congruence]. }
    intros k1 k2 b1 b2 x [[? H1]|[-> ->]]%Hjobs [[? H2]|[-> ->]]%Hjobs I1 I2; try done.
    + by eapply c_unique0.
    + eapply c_unique0; [exact H1|exact Hb|done|by apply Himg].
    + eapply c_unique0; [exact Hb|exact H2|by apply Himg|done].
  - rewrite Ep, Ej, length_insert. apply c_pending0.
  - rewrite Ej, length_insert. intros k. rewrite Es, Ec. apply c_log0.
  - rewrite Ej, length_insert. by intros k [= <-].
  - rewrite El. intros k bk [[? ?]|[-> ->]]%Hjobs; [by eapply c_timeout0|].
    rewrite B3. by eapply c_timeout0.
Qed.

Lemma retired_job_not_queued j w :
  consistent (Some j) w → j ∉ jobQueue (loader w).
Proof.
  intros Hw Hq. destruct (c_queue _ _ Hw j Hq) as (b & Hb & Hid).
  pose proof (c_jobs _ _ Hw j b Hb) as H. unfold job_ok in H. rewrite Hid in H.
  by destruct H as (_&_&_&_&_&_&_&?).
Qed.

Lemma completeJob_cons j cb b w :
  consistent (Some j) w → jobs w !! j = Some b →
  consistent None (completeJob j cb w)
  ∧ jobs (completeJob j cb w) !! j = Some b
  ∧ ∃ es, promotion w es
      ∧ log (completeJob j cb w)
        = log w ++ es ++ [Callback j cb (image b) (errorMsg b) (request b)].
Proof.
  intros Hw Hb. pose proof (retired_job_not_queued j w Hw) as Hnq.
  destruct (completeJob_cases j cb w) as [(n & rest & Hq & Hroom & ->)|[Hno ->]].
  - set (w2 := on_loader (set_jobQueue rest) (leave w)).
    assert (Hn : n ∈ jobQueue (loader w)) by (rewrite Hq; by left).
    destruct (c_queue _ _ Hw n Hn) as (bn & Hbn & Hid).
    assert (Hne : j ≠ n) by (by intros ->).
    pose proof (c_queue_nodup _ _ Hw) as Hnd. rewrite Hq in Hnd.
    apply NoDup_cons in Hnd as [Hnr Hnd].
    assert (Hw2 : consistent (Some j) w2).
    { apply cons_on_loader; [done|done| |by apply cons_leave].
      intros k Hk. cbn in *. rewrite Hq. by right. }
    assert (Hbn2 : jobs w2 !! n = Some bn) by done.
    assert (Hw3 : consistent (Some j) (enter (start n w2))).
    { apply cons_enter, (cons_start _ n bn); done. }
    assert (Hj3 : jobs (enter (start n w2)) !! j = Some b).
    { cbn. by rewrite (start_other n bn w2 Hbn2). }
    split_and!.
    + by apply cons_report.
    + by rewrite report_jobs.
    + eexists. split; [right; exists n, bn; split_and!; [done|by rewrite Hq|done|done]|].
      rewrite (report_log j cb b _ Hj3). cbn.
      rewrite (start_log n bn w2 Hbn2). cbn. by rewrite <- app_assoc.
  - split_and!.
    + by apply cons_report, cons_leave.
    + by rewrite report_jobs.
    + exists []. split; [by left|]. by rewrite (report_log j cb b (leave w) Hb).
Qed.

Lemma insert_alter_eq {A} (f : A → A) (l : list A) (i : nat) (x : A) :
  l !! i = Some x → alter f i l = <[i := f x]> l.
Proof.
  intros Hx. apply list_eq. intros k. destruct (decide (k = i)) as [->|Hne].
  - rewrite list_lookup_alter_eq, Hx, list_lookup_insert_eq; [done|by eapply lookup_lt_Some].
  - by rewrite list_lookup_alter_ne, list_lookup_insert_ne.
Qed.

Lemma fail_in_progress j b h i m msg w0 w :
  consistent None w0 → jobs w0 !! j = Some b → in_progress w0 j b h i m →
  (** [w] is [w0], possibly without the timer of [j] *)
  loader w = loader w0 → jobs w = jobs w0 → images w = images w0 →
  (timers w = timers w0 ∨ timers w = filter (λ t, t.1 ≠ h) (timers w0)) →
  nextTimer w = nextTimer w0 → pending w = pending w0 → log w = log w0 →
  ∃ w', fail_with j msg w = Done w'
        ∧ ended j (callback b) None (Some msg) (request b) h w w'.
Proof.
  intros Hw0 Hb Hp El Ej Ei Et En Ep Elog. pose proof Hp as (P1 & P2 & P3 & P4 & _).
  assert (Hb1 : jobs (on_job j (set_errorMsg (Some msg)) w) !! j
                = Some (set_errorMsg (Some msg) b)).
  { cbn. by rewrite list_lookup_alter_eq, Ej, Hb. }
  unfold fail_with. rewrite (finish_unfold _ _ _ _ Hb1). cbn [image callback set_errorMsg].
  rewrite P3. eexists. split; [done|].
  set (b' := set_image None (set_errorMsg (Some msg) b)).
  assert (Hret : retired j false (set_errorMsg (Some msg) b) i
                   (on_job j (set_errorMsg (Some msg)) w)
                 = clearTimeout h (on_job j (set_image None)
                     (on_image i (set_handlers None)
                        (on_job j (set_errorMsg (Some msg)) w)))).
  { unfold retired. cbn [jobId set_errorMsg]. by rewrite P1, bool_decide_true. }
  rewrite Hret. set (w4 := clearTimeout _ _).
  assert (Hj4 : jobs w4 !! j = Some b').
  { cbn. by rewrite !list_lookup_alter_eq, Ej, Hb. }
  assert (Hw4 : consistent (Some j) w4).
  { apply (cons_retire j b h i m b' w0); try done.
    - left. split; [done|]. by eexists.
    - cbn. rewrite Ej, list_alter_alter_eq. by rewrite (insert_alter_eq _ _ _ b).
    - cbn. by rewrite Ei.
    - intros t. cbn. rewrite list_elem_of_filter. destruct Et as [-> | ->]; [tauto|].
      rewrite list_elem_of_filter. tauto.
    - cbn. rewrite Elog, starts_app, starts_cons, starts_nil. apply app_nil_r.
    - intros k. cbn. rewrite Elog. apply callbacks_of_quiet. by repeat constructor. }
  destruct (completeJob_cons j (callback b) b' w4 Hw4 Hj4) as (C1 & C2 & es & C3 & C4).
  split.
  - done.
  - exists b'. done.
  - exists es. split.
    + change (loader w4) with (loader w) in C3.
      destruct C3 as [[? ->]|(n & bn & Hn & Hq & ? & ->)]; [by left|right].
      exists n, bn. split_and!; [|done|done|done].
      revert Hn. cbn. destruct (decide (n = j)) as [->|Hne].
      * exfalso. apply (retired_job_not_queued j w4 Hw4). by apply head_Some_elem_of.
      * by rewrite !list_lookup_alter_ne.
    + rewrite C4. cbn. by rewrite <- !app_assoc.
Qed.

Lemma finish_ok_in_progress j b h i m w :
  consistent None w → jobs w !! j = Some b → in_progress w j b h i m →
  pend_of j (pending w) = [] → loading m = false →
  ∃ w', finish j true w = Done w'
        ∧ ended j (callback b) (Some i) None (request b) h w w'.
Proof.
  intros Hw Hb Hp Hnil Hload. pose proof Hp as (P1 & P2 & P3 & P4 & P5 & P6 & P7 & _).
  rewrite (finish_unfold _ _ _ _ Hb), P3. eexists. split; [done|].
  assert (Hret : retired j true b i w = clearTimeout h (on_image i (set_handlers None) w)).
  { unfold retired. by rewrite P1, bool_decide_true. }
  rewrite Hret. set (w4 := clearTimeout _ _).
  assert (Hj4 : jobs w4 !! j = Some b) by exact Hb.
  assert (Hw4 : consistent (Some j) w4).
  { apply (cons_retire j b h i m b w); try done.
    - right. done.
    - cbn. by rewrite list_insert_id.
    - intros t. cbn. rewrite list_elem_of_filter. tauto.
    - cbn. rewrite starts_app, starts_cons, starts_nil. apply app_nil_r.
    - intros k. cbn. apply callbacks_of_quiet. by repeat constructor. }
  destruct (completeJob_cons j (callback b) b w4 Hw4 Hj4) as (C1 & C2 & es & C3 & C4).
  split.
  - done.
  - exists b. done.
  - exists es. split; [done|]. rewrite C4, P3, P7. cbn. by rewrite <- !app_assoc.
Qed.

(** A failure path that runs for a job that has failed before: the message
    is replaced and [finish] throws. *)
Lemma fail_failed c j b msg w :
  consistent c w → jobs w !! j = Some b → failed b →
  fail_with j msg w = Throw (on_job j (set_errorMsg (Some msg)) w)
  ∧ consistent c (on_job j (set_errorMsg (Some msg)) w).
Proof.
  intros Hw Hb [[h Hid] Hi]. split.
  - unfold fail_with.
    assert (Hb1 : jobs (on_job j (set_errorMsg (Some msg)) w) !! j
                  = Some (set_errorMsg (Some msg) b)).
    { cbn. by rewrite list_lookup_alter_eq, Hb. }
    rewrite (finish_unfold _ _ _ _ Hb1). cbn [image set_errorMsg]. by rewrite Hi.
  - pose proof Hw as [].
    assert (Hjobs : ∀ k bk, jobs (on_job j (set_errorMsg (Some msg)) w) !! k = Some bk →
              ∃ bk0, jobs w !! k = Some bk0 ∧ jobId bk = jobId bk0 ∧ image bk = image bk0
                     ∧ (k ≠ j → bk = bk0) ∧ (k = j → bk0 = b ∧ is_Some (errorMsg bk))
                     ∧ timeout bk = timeout bk0).
    { intros k bk. cbn. destruct (decide (k = j)) as [->|Hne].
      - rewrite list_lookup_alter_eq, Hb. intros [= <-]. exists b. split_and!; try done.
      - rewrite list_lookup_alter_ne by done. intros Hk. exists bk. split_and!; done. }
    assert (Hkeep : ∀ k bk, jobs w !! k = Some bk →
              ∃ bk', jobs (on_job j (set_errorMsg (Some msg)) w) !! k = Some bk'
                     ∧ jobId bk' = jobId bk ∧ image bk' = image bk).
    { intros k bk Hk. cbn. destruct (decide (k = j)) as [->|Hne].
      - rewrite list_lookup_alter_eq, Hk. cbn. eauto.
      - rewrite list_lookup_alter_ne by done. eauto. }
    split; cbn [loader on_job on_jobs images timers nextTimer pending log];
      rewrite ?length_alter; try done.
    + intros k bk (bk0 & Hk0 & E1 & E2 & E3 & E4 & _)%Hjobs.
      destruct (decide (k = j)) as [->|Hne].
      * destruct (E4 eq_refl) as [-> Herr]. specialize (c_jobs0 j b Hb).
        unfold job_ok in *. rewrite E1, E2, Hid, Hi in *.
        destruct c_jobs0 as (? & ? & ? & ?). split_and!; done.
      * rewrite (E3 Hne). by apply (job_ok_transfer c c w), c_jobs0.
    + intros k (bk & Hk & ?)%c_queue0. destruct (Hkeep k bk Hk) as (bk' & ? & ? & ?).
      exists bk'. split; [done|congruence].
    + intros h' k Ht. destruct (c_timers0 h' k Ht) as (? & bk & Hk & ?). split; [done|].
      destruct (Hkeep k bk Hk) as (bk' & ? & ? & ?). exists bk'. split; [done|congruence].
    + intros i m k Hm Hh. destruct (c_images0 i m k Hm Hh) as (bk & Hk & ?).
      destruct (Hkeep k bk Hk) as (bk' & ? & ? & ?). exists bk'. split; [done|congruence].
    + intros k1 k2 b1 b2 i (b10 & K1 & _ & I1 & _)%Hjobs (b20 & K2 & _ & I2 & _)%Hjobs ? ?.
      apply (c_unique0 k1 k2 b10 b20 i K1 K2); congruence.
    + intros p Hp. cbn. rewrite length_alter. by apply c_pending0.
    + intros k Hk. cbn. rewrite length_alter. by apply c_log0.
    + intros k Hk. cbn. rewrite length_alter. by apply c_retired0.
    + intros k bk (bk0 & Hk0 & _ & _ & _ & _ & ->)%Hjobs. by eapply c_timeout0.
Qed.

(** One outstanding operation of a job is replaced by another. *)
Lemma cons_replace_pending c p q w :
  p ∈ pending w → owner q = owner p →
  consistent c w → consistent c (on_pending (λ ps, remove_first p ps ++ [q]) w).
Proof.
  intros Hp Hq Hw. pose proof Hw as []. split; try done.
  - intros j b Hb.
    apply (job_ok_transfer c c w); [done|done| |done|done|done|by apply c_jobs0].
    cbn. rewrite pend_of_app. unfold pend_of at 2.
    destruct (decide (owner p = j)) as [Hj|Hj].
    + rewrite filter_cons_True by congruence. rewrite length_app. cbn.
      rewrite <- (pend_of_remove_first j p (pending w)) by done. lia.
    + rewrite filter_cons_False by congruence. rewrite app_nil_r.
      apply pend_of_remove_first_le.
  - intros x. cbn. intros [Hx|Hx%list_elem_of_singleton]%elem_of_app.
    + by apply c_pending0, (remove_first_subset p).
    + subst. rewrite Hq. by apply c_pending0.
Qed.

(** [self.image.src = v] in the callback of an operation that has just
    settled. *)
Lemma cons_assign c j v w :
  consistent c w →
  (∀ b i m, jobs w !! j = Some b → image b = Some i → images w !! i = Some m →
            onload m = Some j ∧ pend_of j (pending w) = []) →
  consistent c (world_of (assign_image_src j v w)).
Proof.
  intros Hw Hj. unfold assign_image_src.
  destruct (jobs w !! j) as [b|] eqn:Hb; [|done].
  destruct (image b) as [i|] eqn:Hi; [|done]. cbn.
  apply cons_on_image; [done| |done].
  intros m Hm _. right. exists j. by eapply Hj.
Qed.

(** After one of its operations has settled, a job in progress has none
    left and its image is not loading. *)
Lemma settled_job c p w b i m :
  consistent c w → p ∈ pending w →
  jobs w !! owner p = Some b → image b = Some i → images w !! i = Some m →
  onload m = Some (owner p)
  ∧ pend_of (owner p) (pending (on_pending (remove_first p) w)) = [].
Proof.
  intros Hw Hp Hb Hi Hm.
  destruct (owner_cases c w p Hw Hp) as (b0 & Hb0 & [(h & i0 & m0 & Hin & Hl & Hlen)|[_ Hf]]).
  - assert (b0 = b) as -> by congruence.
    destruct Hin as (_ & _ & Hi0 & Hm0 & (Hh & _) & _).
    assert (i0 = i) as -> by congruence. assert (m0 = m) as -> by congruence.
    split; [done|]. cbn.
    pose proof (pend_of_remove_first (owner p) p (pending w) Hp eq_refl) as Hs.
    destruct (pend_of _ (remove_first _ _)); [done|]. cbn in Hs. lia.
  - congruence.
Qed.

Lemma timer_closure_elem h j ts : timer_closure h ts = Some j → (h, j) ∈ ts.
Proof.
  induction ts as [|[h' j'] ts IH]; cbn; [done|].
  case_bool_decide; [intros [= <-]; subst; by left|]. intros Hc. right. auto.
Qed.

Lemma timer_closure_armed c w h j :
  consistent c w → (h, j) ∈ timers w → timer_closure h (timers w) = Some j.
Proof.
  intros Hw Hin. destruct (timer_closure h (timers w)) as [j'|] eqn:E.
  - f_equal. apply timer_closure_elem in E. by eapply c_timers_fun.
  - exfalso. clear Hw. induction (timers w) as [|[h' j'] ts IH]; [by apply elem_of_nil in Hin|].
    cbn in E. case_bool_decide; [done|].
    apply elem_of_cons in Hin as [[= -> ->]|?]; [done|auto].
Qed.

Lemma settle_cons c j r : consistent c (world_of r) → consistent c (settle j r).
Proof. destruct r; cbn; [done|]. by apply cons_emit. Qed.

Lemma in_progress_remove p w j b h i m :
  in_progress w j b h i m → in_progress (on_pending (remove_first p) w) j b h i m.
Proof.
  intros (? & ? & ? & ? & ? & ? & ? & ? & Hc). split_and!; try done. cbn.
  pose proof (pend_of_remove_first_le j p (pending w)). lia.
Qed.

(** A failure path keeps the world consistent, and leaves the job without
    an image. *)
Lemma fail_cons j b msg w :
  consistent None w → jobs w !! j = Some b →
  (∃ h i m, in_progress w j b h i m) ∨ failed b →
  consistent None (world_of (fail_with j msg w))
  ∧ ∃ b', jobs (world_of (fail_with j msg w)) !! j = Some b' ∧ image b' = None.
Proof.
  intros Hw Hb [(h & i & m & Hin)|Hf].
  - destruct (fail_in_progress j b h i m msg w w Hw Hb Hin) as (w' & -> & [? (b' & ? & ? & _) _]);
      try done; [by left|].
    split; [done|]. by exists b'.
  - destruct (fail_failed None j b msg w Hw Hb Hf) as [-> ?]. split; [done|]. cbn.
    rewrite list_lookup_alter_eq, Hb. eexists. split; [done|]. by destruct Hf.
Qed.

Lemma addJob_cons o w : consistent None w → consistent None (addJob o w).
Proof.
  intros Hw. unfold addJob.
  set (b0 := new_ImageJob (loader w) o).
  set (w1 := on_jobs _ w).
  assert (Hw1 : consistent None w1).
  { apply cons_alloc; try done. cbn. by destruct (opt_abort o). }
  assert (Hnew : jobs w1 !! length (jobs w) = Some b0) by (cbn; by apply list_lookup_middle).
  assert (Hnq : length (jobs w) ∉ jobQueue (loader w1)).
  { intros (b & Hb%lookup_lt_Some & _)%(c_queue _ _ Hw). lia. }
  change (loader w1) with (loader w). destruct (negb _ || _).
  - apply cons_enter, (cons_start _ _ b0); done.
  - by apply (cons_enqueue _ _ b0).
Qed.

Lemma clear_cons w : consistent None w → consistent None (clear w).
Proof.
  intros Hw. rewrite clear_emits. apply cons_on_loader; cbn.
  - done.
  - apply NoDup_nil_2.
  - by intros j ?%elem_of_nil.
  - apply cons_emits; [apply clear_trace_quiet|done].
Qed.

Lemma deliver_cons p fn w w' :
  (p ∈ pending w → consistent None (world_of (fn (on_pending (remove_first p) w)))) →
  deliver p (owner p) fn w = Some w' → consistent None w'.
Proof.
  intros Hfn. unfold deliver. case_bool_decide; [|done]. intros [= <-].
  by apply settle_cons, Hfn.
Qed.

Lemma delivered_job p w :
  consistent None w → p ∈ pending w →
  let w1 := on_pending (remove_first p) w in
  consistent None w1
  ∧ ∃ b, jobs w1 !! owner p = Some b
         ∧ ((∃ h i m, in_progress w1 (owner p) b h i m) ∨ failed b).
Proof.
  intros Hw Hp. split; [by apply cons_remove_pending|].
  destruct (owner_cases None w p Hw Hp) as (b & Hb & [(h & i & m & Hin & _)|Hf]).
  - exists b. split; [done|]. left. exists h, i, m. by apply in_progress_remove.
  - exists b. split; [done|]. by right.
Qed.

Lemma fail_delivered p msg w :
  consistent None w → p ∈ pending w →
  consistent None (world_of (fail_with (owner p) msg (on_pending (remove_first p) w))).
Proof.
  intros Hw Hp. destruct (delivered_job p w Hw Hp) as (Hw1 & b & Hb & Hcase).
  by apply (fail_cons _ b).
Qed.

Lemma assign_delivered p v w :
  consistent None w → p ∈ pending w →
  consistent None (world_of (assign_image_src (owner p) v (on_pending (remove_first p) w))).
Proof.
  intros Hw Hp. apply cons_assign; [by apply cons_remove_pending|].
  intros b i m Hb Hi Hm. by apply (settled_job None p w b i m).
Qed.

Lemma image_event_cons i slot fn w w' :
  (∀ m, slot m = onload m ∨ slot m = onerror m ∨ slot m = onabort m) →
  (∀ j b h m w1, consistent None w1 → jobs w1 !! j = Some b → in_progress w1 j b h i m →
     pend_of j (pending w1) = [] → loading m = false →
     consistent None (world_of (fn j w1))) →
  image_event i slot fn w = Some w' → consistent None w → consistent None w'.
Proof.
  intros Hslot Hfn. unfold image_event.
  destruct (images w !! i) as [m|] eqn:Hm; [|done].
  destruct (loading m) eqn:Hl; [|done].
  set (w1 := on_image i (set_loading false) w).
  intros Hev Hw.
  assert (Hw1 : consistent None w1) by (by apply cons_on_image).
  destruct (slot m) as [j|] eqn:Hs; [|by injection Hev as <-].
  injection Hev as <-. apply settle_cons.
  assert (Hh : onload m = Some j ∨ onerror m = Some j ∨ onabort m = Some j).
  { destruct (Hslot m) as [E|[E|E]]; rewrite E in Hs; auto. }
  destruct (handler_in_progress None w i m j Hw Hm Hh) as (b & h & Hb & Hin).
  assert (Hm1 : images w1 !! i = Some (set_loading false m)).
  { cbn. by rewrite list_lookup_alter_eq, Hm. }
  destruct (handler_in_progress None w1 i _ j Hw1 Hm1 Hh) as (b1 & h1 & Hb1 & Hin1).
  apply (Hfn j b1 h1 (set_loading false m) w1); try done.
  destruct Hin as (_ & _ & _ & Hm' & _ & _ & _ & _ & Hc).
  rewrite Hl in Hc. cbn. destruct (pend_of j (pending w)); [done|cbn in Hc; lia].
Qed.

Lemma step_cons e w w' : step e w = Some w' → consistent None w → consistent None w'.
Proof.
  destruct e; cbn.
  - intros [= <-]. apply addJob_cons.
  - intros [= <-]. apply clear_cons.
  - destruct (timer_closure h (timers w)) as [j|] eqn:Ht; [|done].
    intros [= <-] Hw. apply settle_cons. apply timer_closure_elem in Ht.
    destruct (timer_in_progress None w h j Hw Ht) as (b & i & m & Hb & Hin).
    unfold timer_fn. cbn [jobs on_timers]. rewrite Hb.
    edestruct (fail_in_progress j b h i m) as (w2 & Hf & [? _ _]); [exact Hw|done|done|..].
    8: { unfold fail_with in Hf. rewrite Hf. done. }
    all: try done. by right.
  - apply image_event_cons; [by left|]. intros j b h m w1 Hw1 Hb Hin Hnil Hl.
    unfold onload_fn.
    destruct (finish_ok_in_progress j b h i m w1 Hw1 Hb Hin Hnil Hl) as (w2 & -> & [? _ _]).
    done.
  - apply image_event_cons; [by right; left|]. intros j b h m w1 Hw1 Hb Hin Hnil Hl.
    apply (fail_cons j b); [done|done|]. left. eauto.
  - apply image_event_cons; [by right; right|]. intros j b h m w1 Hw1 Hb Hin Hnil Hl.
    apply (fail_cons j b); [done|done|]. left. eauto.
  - intros Hd Hw. apply (deliver_cons (PXhr x self)) in Hd; [done|]. intros Hp.
    unfold xhr_success_fn. destruct blob as [size|]; [|by apply cons_remove_pending].
    destruct (size =? 0)%N.
    + destruct (delivered_job _ w Hw Hp) as (Hw1 & b & Hb & Hcase).
      destruct (fail_cons self b "Empty image response." _ Hw1 Hb Hcase) as (Hc & b' & Hb' & Hi').
      unfold fail_with in *. cbn [owner] in *. destruct (finish _ _ _) as [w2|w2]; [|done].
      unfold assign_image_src. cbn in Hb'. by rewrite Hb', Hi'.
    + by apply (assign_delivered (PXhr x self)).
  - intros Hd Hw. apply (deliver_cons (PXhr x self)) in Hd; [done|]. intros Hp.
    by apply (fail_delivered (PXhr x self)).
  - intros Hd Hw. apply (deliver_cons (PGetTile self)) in Hd; [done|]. intros Hp.
    unfold getTile_done_fn. destruct data as [[mime base64]|].
    + by apply (assign_delivered (PGetTile self)).
    + by apply (fail_delivered (PGetTile self)).
  - intros Hd Hw. apply (deliver_cons (PGetTile self)) in Hd; [done|]. intros Hp.
    by apply (fail_delivered (PGetTile self)).
  - intros Hd Hw. apply (deliver_cons (PHubStart self)) in Hd; [done|]. intros Hp.
    apply cons_set_connected with (v := true) in Hw.
    by apply (cons_replace_pending None (PHubStart self) (PGetTile self)) in Hw.
  - intros Hd Hw. apply (deliver_cons (PHubStart self)) in Hd; [done|]. intros Hp.
    cbn. apply cons_emit; [done|]. by apply cons_remove_pending.
  - intros [= <-]. apply cons_set_connected.
Qed.

Lemma init_cons d limit time : consistent None (init d limit time).
Proof.
  split; cbn; try done.
  - apply NoDup_nil_2.
  - by intros j ?%elem_of_nil.
  - lia.
  - by intros h j ?%elem_of_nil.
  - by intros h j1 j2 ?%elem_of_nil.
  - by intros p ?%elem_of_nil.
  - intros j [?%elem_of_nil|?]; done.
Qed.

Lemma run_cons es w w' : run es w = Some w' → consistent None w → consistent None w'.
Proof.
  revert w. induction es as [|e es IH]; intros w; cbn.
  - by intros [= <-].
  - destruct (step e w) as [w1|] eqn:He; [|done].
    intros Hrun Hw. eapply IH; [done|]. by eapply step_cons.
Qed.

Lemma reachable_cons d limit time w : reachable d limit time w → consistent None w.
Proof. intros [es He]. eapply run_cons; [done|apply init_cons]. Qed.

(** ** What never changes, and what only grows *)

Lemma evolves_refl w : evolves w w.
Proof. split; try done. auto. Qed.

Lemma evolves_trans w1 w2 w3 : evolves w1 w2 → evolves w2 w3 → evolves w1 w3.
Proof.
  intros [] []. split; try congruence.
  - by etrans.
  - lia.
  - intros k Hk. destruct (ev_members1 k Hk) as [H|H]; [|right; lia].
    apply ev_members0 in H. done.
Qed.

(** A change that starts and queues nothing. *)
Lemma evolves_quiet w w' es :
  DEFAULT_SETTINGS w' = DEFAULT_SETTINGS w → loader w' = loader w →
  log w' = log w ++ es → Forall quiet es → length (jobs w') = length (jobs w) →
  evolves w w'.
Proof.
  intros Hs Hl Hlog Hq Hn. split; rewrite ?Hl; try done.
  - rewrite Hlog. by apply prefix_app_r.
  - lia.
  - rewrite Hlog, starts_app, (quiet_starts es), app_nil_r by done. auto.
Qed.

Lemma ev_on_job j f w : evolves w (on_job j f w).
Proof. apply (evolves_quiet _ _ []); cbn; rewrite ?app_nil_r, ?length_alter; done. Qed.
Lemma ev_on_image i f w : evolves w (on_image i f w).
Proof. apply (evolves_quiet _ _ []); cbn; rewrite ?app_nil_r; done. Qed.
Lemma ev_on_timers f w : evolves w (on_timers f w).
Proof. apply (evolves_quiet _ _ []); cbn; rewrite ?app_nil_r; done. Qed.
Lemma ev_on_pending f w : evolves w (on_pending f w).
Proof. apply (evolves_quiet _ _ []); cbn; rewrite ?app_nil_r; done. Qed.
Lemma ev_set_connected v w : evolves w (set_connected v w).
Proof. apply (evolves_quiet _ _ []); cbn; rewrite ?app_nil_r; done. Qed.
Lemma ev_emits es w : Forall quiet es → evolves w (emits es w).
Proof. intros. by apply (evolves_quiet _ _ es). Qed.
Lemma ev_emit e w : quiet e → evolves w (emit e w).
Proof. intros. apply (ev_emits [e]). by constructor. Qed.
Lemma ev_clearTimeout h w : evolves w (clearTimeout h w).
Proof. by apply (evolves_quiet _ _ [ClearTimeout h]); [..|repeat constructor|]. Qed.

Lemma ev_retired j ok b i w : evolves w (retired j ok b i w).
Proof.
  unfold retired.
  repeat first
    [ apply evolves_refl
    | case_match
    | (eapply evolves_trans; [|apply ev_clearTimeout])
    | (eapply evolves_trans; [|apply ev_on_job])
    | (eapply evolves_trans; [|apply ev_on_image]) ].
Qed.

Lemma start_absent n w : jobs w !! n = None → start n w = w.
Proof. intros H. unfold start. by rewrite H. Qed.

Lemma ev_report j cb w : evolves w (report j cb w).
Proof.
  unfold report. case_match; [|apply evolves_refl].
  split; try done.
  - by apply prefix_app_r.
  - cbn. rewrite starts_app, starts_cons, starts_nil, app_nil_r. auto.
Qed.

(** Starting the job at the head of the queue. *)
Lemma ev_promote n rest w :
  jobQueue (loader w) = n :: rest →
  evolves w (start n (on_loader (set_jobQueue rest) w)).
Proof.
  intros Hq. set (w2 := on_loader _ w).
  destruct (jobs w2 !! n) as [bn|] eqn:Hn.
  - split; rewrite ?(start_settings n bn w2 Hn), ?(start_loader n bn w2 Hn),
      ?(start_log n bn w2 Hn), ?(start_length n bn w2 Hn); try done.
    + by apply prefix_app_r.
    + cbn. rewrite starts_app, !starts_cons, starts_nil, Hq, <- app_assoc. auto.
  - rewrite (start_absent n w2 Hn). split; try done. cbn. intros k Hk. left. rewrite Hq.
    apply elem_of_app in Hk as [?|?]; apply elem_of_app; [by left|right; by right].
Qed.

Lemma ev_on_loader f w :
  jobLimit (f (loader w)) = jobLimit (loader w) →
  loader_timeout (f (loader w)) = loader_timeout (loader w) →
  (∀ k, k ∈ jobQueue (f (loader w)) → k ∈ jobQueue (loader w)) →
  evolves w (on_loader f w).
Proof.
  intros Hl Ht Hq. split; try done. cbn. intros k Hk. left.
  apply elem_of_app in Hk as [?|?]; apply elem_of_app; auto.
Qed.

Lemma ev_completeJob j cb w : evolves w (completeJob j cb w).
Proof.
  destruct (completeJob_cases j cb w) as [(n & rest & Hq & Hroom & ->)|[Hno ->]].
  - eapply evolves_trans; [|apply ev_report].
    eapply evolves_trans; [|by apply ev_on_loader].
    eapply evolves_trans; [|by apply ev_promote].
    by apply ev_on_loader.
  - eapply evolves_trans; [|apply ev_report]. by apply ev_on_loader.
Qed.

Lemma ev_finish j ok w : evolves w (world_of (finish j ok w)).
Proof.
  unfold finish. destruct (jobs w !! j) as [b|]; [|apply evolves_refl].
  destruct (image b) as [i|]; [|apply evolves_refl]. cbn.
  eapply evolves_trans; [|apply ev_completeJob]. apply (ev_retired j ok b i w).
Qed.

Lemma ev_settle j r w : evolves w (world_of r) → evolves w (settle j r).
Proof. destruct r; cbn; [done|]. intros H. eapply evolves_trans; [done|by apply ev_emit]. Qed.

Lemma ev_fail j msg w : evolves w (world_of (finish j false (on_job j (set_errorMsg msg) w))).
Proof. eapply evolves_trans; [apply ev_on_job|apply ev_finish]. Qed.

Lemma ev_assign j v w : evolves w (world_of (assign_image_src j v w)).
Proof.
  unfold assign_image_src. repeat case_match; cbn; try apply evolves_refl. apply ev_on_image.
Qed.

Lemma ev_addJob o w : evolves w (addJob o w).
Proof.
  unfold addJob. set (b0 := new_ImageJob (loader w) o). set (w1 := on_jobs _ w).
  assert (Hnew : jobs w1 !! length (jobs w) = Some b0) by (cbn; by apply list_lookup_middle).
  change (loader w1) with (loader w). destruct (negb _ || _).
  - split; cbn; rewrite ?(start_settings _ _ _ Hnew), ?(start_loader _ _ _ Hnew),
      ?(start_log _ _ _ Hnew), ?(start_length _ _ _ Hnew); cbn; try done.
    + by apply prefix_app_r.
    + rewrite length_app. lia.
    + rewrite starts_app, !starts_cons, starts_nil. intros k.
      rewrite !elem_of_app, list_elem_of_singleton. intros [[?|?]|?]; subst; auto.
  - split; cbn; try done.
    + rewrite length_app. lia.
    + intros k. rewrite !elem_of_app, list_elem_of_singleton. intros [?|[?|?]]; subst; auto.
Qed.

Lemma ev_clear w : evolves w (clear w).
Proof.
  rewrite clear_emits. eapply evolves_trans; [apply ev_emits, clear_trace_quiet|].
  apply ev_on_loader; cbn; try done. by intros k ?%elem_of_nil.
Qed.

Lemma ev_deliver p j fn w w' :
  (∀ w, evolves w (world_of (fn w))) → deliver p j fn w = Some w' → evolves w w'.
Proof.
  intros Hfn. unfold deliver. case_bool_decide; [|done]. intros [= <-].
  apply ev_settle. eapply evolves_trans; [apply ev_on_pending|apply Hfn].
Qed.

Lemma ev_image_event i slot fn w w' :
  (∀ j w, evolves w (world_of (fn j w))) → image_event i slot fn w = Some w' → evolves w w'.
Proof.
  intros Hfn. unfold image_event. repeat case_match; try done; intros [= <-].
  - apply ev_settle. eapply evolves_trans; [apply ev_on_image|apply Hfn].
  - apply ev_on_image.
Qed.

Lemma ev_step e w w' : step e w = Some w' → evolves w w'.
Proof.
  destruct e; cbn.
  - intros [= <-]. apply ev_addJob.
  - intros [= <-]. apply ev_clear.
  - case_match; [|done]. intros [= <-]. apply ev_settle.
    eapply evolves_trans; [apply ev_on_timers|]. unfold timer_fn.
    case_match; [apply ev_fail|apply evolves_refl].
  - apply ev_image_event. intros. apply ev_finish.
  - apply ev_image_event. intros. apply ev_fail.
  - apply ev_image_event. intros. apply ev_fail.
  - apply ev_deliver. intros w0. unfold xhr_success_fn.
    destruct blob as [size|]; [|apply evolves_refl]. destruct (size =? 0)%N.
    + pose proof (ev_fail self (Some "Empty image response."%string) w0) as H.
      destruct (finish _ _ _); [|done]. eapply evolves_trans; [done|apply ev_assign].
    + apply ev_assign.
  - apply ev_deliver. intros. apply ev_fail.
  - apply ev_deliver. intros w0. unfold getTile_done_fn.
    destruct data as [[mime base64]|]; [apply ev_assign|apply ev_fail].
  - apply ev_deliver. intros. apply ev_fail.
  - apply ev_deliver. intros w0. cbn.
    eapply evolves_trans; [apply ev_set_connected|].
    unfold signalRDownloadImageDataFromServer. apply ev_on_pending.
  - apply ev_deliver. intros w0. cbn. by apply ev_emit.
  - intros [= <-]. apply ev_set_connected.
Qed.

Lemma ev_run es w w' : run es w = Some w' → evolves w w'.
Proof.
  revert w. induction es as [|e es IH]; intros w; cbn.
  - intros [= <-]. apply evolves_refl.
  - destruct (step e w) as [w1|] eqn:He; [|done].
    intros Hrun. eapply evolves_trans; [by eapply ev_step|by apply IH].
Qed.

Lemma run_app es1 es2 w :
  run (es1 ++ es2) w = match run es1 w with Some w1 => run es2 w1 | None => None end.
Proof.
  revert w. induction es1 as [|e es1 IH]; intros w; cbn; [done|].
  destruct (step e w); [apply IH|done].
Qed.

Lemma reachable_config d limit time es w :
  run es (init d limit time) = Some w →
  DEFAULT_SETTINGS w = d
  ∧ jobLimit (loader w) = default (default_imageLoaderLimit d) limit
  ∧ loader_timeout (loader w) = default (default_timeout d) time.
Proof. intros [? ? ? _ _ _]%ev_run. done. Qed.

Lemma callbacks_of_singleton j k cb img err req :
  callbacks_of j [Callback k cb img err req] = if decide (k = j) then [(img, err)] else [].
Proof.
  unfold callbacks_of. rewrite callbacks_cons, callbacks_nil, filter_cons. cbn.
  by case_decide.
Qed.

Lemma promotion_callbacks w es j : promotion w es → callbacks_of j es = [].
Proof.
  intros [[_ ->]|(n & bn & _ & _ & _ & ->)]; [done|].
  unfold callbacks_of. by rewrite !callbacks_cons, callbacks_nil.
Qed.

Lemma ended_callbacks j cb img err req h w w' k :
  ended j cb img err req h w w' →
  callbacks_of k (log w')
  = callbacks_of k (log w) ++ if decide (j = k) then [(img, err)] else [].
Proof.
  intros [_ _ (es & Hes & ->)].
  rewrite !callbacks_of_app, (promotion_callbacks w es k Hes), callbacks_of_singleton.
  by rewrite (quiet_callbacks_of k [ClearTimeout h]) by (by repeat constructor).
Qed.

(** The timer of a job in progress can fire, and that ends the job with the
    timeout message. *)
Lemma timer_ends_job w h j :
  consistent None w → (h, j) ∈ timers w →
  ∃ b w', jobs w !! j = Some b
    ∧ step (TimerFires h) w = Some w'
    ∧ ended j (callback b) None (Some (timeout_message (timeout b))) (request b) h w w'
    ∧ callbacks_of j (log w) = [].
Proof.
  intros Hw Ht. destruct (timer_in_progress None w h j Hw Ht) as (b & i & m & Hb & Hin).
  set (w0 := on_timers (filter (λ t, t.1 ≠ h)) w).
  destruct (fail_in_progress j b h i m (timeout_message (timeout b)) w w0 Hw Hb Hin)
    as (w' & Hf & He); try done; [by right|].
  exists b, w'. split_and!; [done| | |by destruct Hin as (_&_&_&_&_&_&_&?&_)].
  - cbn. rewrite (timer_closure_armed None w h j Hw Ht). fold w0.
    unfold timer_fn. change (jobs w0) with (jobs w). rewrite Hb.
    unfold fail_with, timeout_message in Hf. by rewrite Hf.
  - destruct He as [? ? (es & Hes & Hlog)]. split; [done|done|]. exists es. split; [|done].
    change (loader w0) with (loader w) in Hes.
    destruct Hes as [[? ->]|(n & bn & ? & ? & ? & ->)]; [by left|right]. by exists n, bn.
Qed.

Lemma elem_of_callbacks j cb img err req l :
  Callback j cb img err req ∈ l → (img, err) ∈ callbacks_of j l.
Proof.
  intros H. unfold callbacks_of. apply list_elem_of_fmap. exists (j, (img, err)).
  split; [done|]. apply list_elem_of_filter. split; [done|].
  unfold callbacks. apply list_elem_of_omap. by exists (Callback j cb img err req).
Qed.

Lemma elem_of_starts j s l : TileLoadStart j s ∈ l → j ∈ starts l.
Proof.
  intros H. unfold starts. apply list_elem_of_omap. by exists (TileLoadStart j s).
Qed.

(** A job that has not started has no effects; one that has started is in
    progress, loaded or failed. *)
Lemma job_status w j :
  consistent None w → (j < length (jobs w))%nat →
  ∃ b, jobs w !! j = Some b ∧
    (jobId b = None ∧ callbacks_of j (log w) = [] ∧ j ∉ starts (log w)
     ∨ j ∈ starts (log w) ∧
       ((∃ h, (h, j) ∈ timers w ∧ callbacks_of j (log w) = [])
        ∨ (∃ i, callbacks_of j (log w) = [(Some i, None)])
        ∨ (∃ msg, callbacks_of j (log w) = [(None, Some msg)]))).
Proof.
  intros Hw Hj. destruct (lookup_lt_is_Some_2 _ _ Hj) as [b Hb]. exists b. split; [done|].
  pose proof (c_jobs _ _ Hw j b Hb) as H. unfold job_ok in H.
  destruct (jobId b) as [h|].
  - right. destruct H as [? H]. split; [done|]. destruct (image b) as [i|].
    + destruct H as (m & _ & [H|H]).
      * left. exists h. by destruct H as (_ & _ & ? & _ & ? & _).
      * right. left. exists i. destruct H as (_ & _ & _ & _ & _ & Hr).
        unfold reported in Hr. rewrite decide_False in Hr by done.
        by destruct Hr as (x & -> & ->).
    + right. right. destruct H as (_ & _ & Hr).
      unfold reported in Hr. rewrite decide_False in Hr by done.
      destruct Hr as ([i e] & -> & Hi & [msg He]). cbn in *. subst. by exists msg.
  - left. by destruct H as (_ & _ & _ & _ & _ & ? & ? & _).
Qed.

Lemma clear_trace_hooks c w :
  consistent c w → clear_trace (jobs w) (jobQueue (loader w)) = abort_hooks w.
Proof.
  intros Hw. unfold clear_trace, abort_hooks.
  assert (H : ∀ j, j ∈ jobQueue (loader w) →
            ∃ b, jobs w !! j = Some b ∧ plain_abort (abort b)).
  { intros j (b & Hb & Hid)%(c_queue _ _ Hw). exists b. split; [done|].
    pose proof (c_jobs _ _ Hw j b Hb) as Hok. unfold job_ok in Hok. rewrite Hid in Hok.
    by destruct Hok as (_ & _ & _ & ? & _). }
  induction (jobQueue (loader w)) as [|j q IH]; [done|]. cbn.
  rewrite IH by (intros k Hk; apply H; by right). f_equal.
  destruct (H j) as (b & -> & Hp); [by left|]. by destruct (abort b).
Qed.

(** ** The multi-server rule *)

Lemma prefix_single c s : String.prefix (String c EmptyString) s
  = match s with String x _ => bool_decide (c = x) | EmptyString => false end.
Proof.
  destruct s as [|x s]; [done|]. cbn. destruct (ascii_dec c x); [|by rewrite bool_decide_false].
  rewrite bool_decide_true by done. by destruct s.
Qed.

Lemma append_cons x (a b : string) : String x a +:+ b = String x (a +:+ b).
Proof. done. Qed.

Lemma append_nil_l (a : string) : "" +:+ a = a.
Proof. done. Qed.

Lemma append_assoc (a b c : string) : (a +:+ b) +:+ c = a +:+ (b +:+ c).
Proof. induction a as [|x a IH]; [done|]. rewrite !append_cons. by f_equal. Qed.

Lemma append_nil_r (a : string) : a +:+ "" = a.
Proof. induction a as [|x a IH]; [done|]. rewrite append_cons. by f_equal. Qed.

(** Splitting at a character that does not occur. *)
Lemma split_go_absent c cur s :
  has_char c s = false → JS.split_go (String c EmptyString) 0 cur s = [cur +:+ s].
Proof.
  revert cur. induction s as [|x s IH]; intros cur; cbn [JS.split_go has_char].
  - by rewrite append_nil_r.
  - intros [Hx Hs]%orb_false_elim. rewrite prefix_single, Hx.
    rewrite IH by done. by rewrite append_assoc.
Qed.

(** The last piece of a split at a character. *)
Lemma split_go_last c cur a f :
  has_char c f = false →
  List.last (Some <$> JS.split_go (String c EmptyString) 0 cur (a +:+ String c f)) None
  = Some f.
Proof.
  intros Hf. revert cur. induction a as [|x a IH]; intros cur;
    rewrite ?append_cons, ?append_nil_l; cbn [JS.split_go].
  - rewrite prefix_single, bool_decide_true by done. cbn [String.length Nat.sub].
    by rewrite split_go_absent.
  - rewrite prefix_single. case_bool_decide.
    + cbn [String.length Nat.sub]. rewrite fmap_cons.
      specialize (IH ""). destruct (JS.split_go _ _ _ _); [done|]. exact IH.
    + apply IH.
Qed.

Lemma file_name_last dir f :
  has_char "/" f = false → file_name (dir +:+ String "/" f) = f.
Proof.
  intros Hf. unfold file_name, JS.last_elem, JS.split.
  change (map Some ?l) with (Some <$> l). by rewrite split_go_last.
Qed.

(** The scenario of the specification: any directory, file [5_7.jpg]. *)
Lemma coordinates_5_7 dir :
  coordinates (dir +:+ "/5_7.jpg") = (JS.Int 5, JS.Int 7).
Proof. unfold coordinates. by rewrite file_name_last. Qed.

(** *** File names of the form [<col>_<row><rest>] *)

Lemma has_char_app c a b : has_char c (a +:+ b) = has_char c a || has_char c b.
Proof.
  induction a as [|x a IH]; [done|]. rewrite append_cons. cbn. by rewrite IH, orb_assoc.
Qed.

Lemma digit_not_char c x : JS.is_digit x = true → JS.is_digit c = false → bool_decide (c = x) = false.
Proof. intros Hx Hc. apply bool_decide_false. intros ->. congruence. Qed.

Lemma all_digits_has_char c s :
  JS.is_digit c = false → all_digits s = true → has_char c s = false.
Proof.
  intros Hc. induction s as [|x s IH]; [done|]. cbn.
  intros [Hx Hs]%andb_prop. by rewrite (digit_not_char c x), IH.
Qed.

(** Splitting at a separator whose first character does not occur. *)
Lemma split_go_no_sep c sep cur s :
  has_char c s = false → JS.split_go (String c sep) 0 cur s = [cur +:+ s].
Proof.
  revert cur. induction s as [|x s IH]; intros cur; cbn [JS.split_go has_char].
  - by rewrite append_nil_r.
  - intros [Hx Hs]%orb_false_elim.
    assert (String.prefix (String c sep) (String x s) = false) as ->.
    { cbn. destruct (ascii_dec c x) as [->|]; [|done]. by rewrite bool_decide_true in Hx. }
    rewrite IH by done. by rewrite append_assoc.
Qed.

(** The first piece of a split at a character. *)
Lemma split_go_first c cur a t :
  has_char c a = false →
  JS.split_go (String c EmptyString) 0 cur (a +:+ String c t)
  = (cur +:+ a) :: JS.split_go (String c EmptyString) 0 EmptyString t.
Proof.
  revert cur. induction a as [|x a IH]; intros cur;
    rewrite ?append_cons, ?append_nil_l; cbn [JS.split_go has_char].
  - intros _. rewrite prefix_single, bool_decide_true by done. by rewrite append_nil_r.
  - intros [Hx Ha]%orb_false_elim. rewrite prefix_single, Hx, IH by done.
    by rewrite append_assoc.
Qed.

Lemma digits_decimal acc r rest :
  all_digits r = true → starts_with_digit rest = false →
  JS.digits (Some acc) (r +:+ rest) = Some (decimal acc r).
Proof.
  intros Hr Hrest. revert acc. induction r as [|x r IH]; intros acc.
  - rewrite append_nil_l. destruct rest as [|y rest]; [done|]. cbn in *. by rewrite Hrest.
  - rewrite append_cons. cbn in *. apply andb_prop in Hr as [-> Hr]. by apply IH.
Qed.

Lemma digit_not_white c : JS.is_digit c = true → JS.is_white c = false.
Proof.
  unfold JS.is_digit, JS.is_white. intros H.
  apply andb_prop in H as [H1%Nat.leb_le H2%Nat.leb_le].
  repeat (apply orb_false_intro); try apply andb_false_intro2;
    try apply Nat.leb_gt; try apply Nat.eqb_neq; lia.
Qed.

Lemma parseInt_decimal x r rest :
  all_digits (String x r) = true → starts_with_digit rest = false →
  JS.parseInt (String x r +:+ rest) = JS.Int (decimal 0 (String x r)).
Proof.
  intros Hr Hrest. pose proof Hr as [Hx _]%andb_prop.
  unfold JS.parseInt. rewrite append_cons. cbn [JS.trim_start].
  rewrite (digit_not_white x Hx).
  assert (Hd : JS.digits None (String x (r +:+ rest)) = Some (decimal 0 (String x r))).
  { cbn [JS.digits]. rewrite Hx. cbn [default decimal]. apply digits_decimal; [|done].
    by apply andb_prop in Hr as [_ ?]. }
  assert (x ≠ "-"%char ∧ x ≠ "+"%char) as [Hm Hp] by (split; intros ->; done).
  destruct x as [[] [] [] [] [] [] [] []]; try done; rewrite Hd; f_equal; lia.
Qed.

(** The coordinates of a well-formed tile URL are its first two numbers. *)
Lemma coordinates_well_formed dir c0 c r0 r rest :
  all_digits (String c0 c) = true → all_digits (String r0 r) = true →
  starts_with_digit rest = false →
  has_char "/" rest = false → has_char "\" rest = false → has_char "_" rest = false →
  coordinates (dir +:+ "/" +:+ String c0 c +:+ "_" +:+ String r0 r +:+ rest)
  = (JS.Int (decimal 0 (String c0 c)), JS.Int (decimal 0 (String r0 r))).
Proof.
  intros Hc Hr Hrest H1 H2 H3.
  set (col := String c0 c) in *. set (row := String r0 r) in *.
  set (file := col +:+ "_" +:+ row +:+ rest).
  assert (Hno : ∀ x, JS.is_digit x = false → has_char x rest = false →
            has_char x (row +:+ rest) = false).
  { intros x Hx Hxr. by rewrite has_char_app, (all_digits_has_char x row), Hxr. }
  assert (Hfile : ∀ x, JS.is_digit x = false → x ≠ "_"%char → has_char x rest = false →
            has_char x file = false).
  { intros x Hx Hne Hxr. unfold file.
    rewrite has_char_app, (all_digits_has_char x col) by done.
    change ("_" +:+ row +:+ rest) with (String "_" (row +:+ rest)). cbn [has_char orb].
    rewrite bool_decide_false by done. by apply Hno. }
  unfold coordinates.
  change (dir +:+ "/" +:+ file) with (dir +:+ String "/" file).
  rewrite file_name_last by (by apply Hfile).
  unfold JS.split. rewrite (split_go_no_sep "\" "." "" file) by (by apply Hfile).
  rewrite append_nil_l. cbn [head JS.to_string].
  unfold file. change ("_" +:+ row +:+ rest) with (String "_" (row +:+ rest)).
  rewrite split_go_first by (by apply all_digits_has_char).
  rewrite split_go_absent by (by apply Hno). cbn [lookup list_lookup JS.to_string].
  rewrite !append_nil_l. f_equal.
  - pose proof (parseInt_decimal c0 c "" Hc eq_refl) as H. by rewrite append_nil_r in H.
  - by apply parseInt_decimal.
Qed.

(** ** The order of the effects of one step *)














(** ** The counter is not negative *)

Lemma NoDup_fst_filter {A} (cs : list (nat * A)) :
  (∀ j, (length (filter (λ c, c.1 = j) cs) ≤ 1)%nat) → NoDup cs.*1.
Proof.
  induction cs as [|[j x] cs IH]; intros H; [constructor|].
  cbn. apply NoDup_cons. split.
  - intros ([j' y] & Hj & Hin)%list_elem_of_fmap. cbn in Hj. subst j'.
    specialize (H j). rewrite filter_cons_True in H by done. cbn in H.
    assert (Hy : (j, y) ∈ filter (λ c, c.1 = j) cs) by (by apply list_elem_of_filter).
    destruct (filter _ cs); [by apply elem_of_nil in Hy|cbn in H; lia].
  - apply IH. intros k. specialize (H k). rewrite filter_cons in H.
    case_decide; cbn in H; lia.
Qed.

Lemma callbacks_le_starts w :
  consistent None w → (length (callbacks (log w)) ≤ length (starts (log w)))%nat.
Proof.
  intros Hw. rewrite <- (length_fmap fst (callbacks (log w))).
  apply submseteq_length, NoDup_submseteq.
  - apply NoDup_fst_filter. intros j.
    rewrite <- (length_fmap snd). fold (callbacks_of j (log w)).
    destruct (decide (callbacks_of j (log w) = [])) as [->|Hne]; [cbn; lia|].
    assert (Hj : (j < length (jobs w))%nat) by (apply (c_log _ _ Hw); by right).
    destruct (job_status w j Hw Hj) as (b & _ & [(_ & ? & _)|(_ & [(h & _ & ?)|[(i & ->)|(msg & ->)]])]);
      done.
  - intros j ([j' x] & -> & Hin)%list_elem_of_fmap. cbn.
    assert (Hne : callbacks_of j' (log w) ≠ []).
    { intros Hnil. by apply (proj1 (callbacks_of_nil_iff j' (log w)) Hnil x). }
    assert (Hj : (j' < length (jobs w))%nat) by (apply (c_log _ _ Hw); by right).
    destruct (job_status w j' Hw Hj) as (b & _ & [(_ & ? & _)|(? & _)]); done.
Qed.

Lemma start_loader_any n w : loader (start n w) = loader w.
Proof.
  destruct (jobs w !! n) as [b|] eqn:Hb; [by apply (start_loader n b)|].
  unfold start. by rewrite Hb.
Qed.

Lemma addJob_counter o w :
  jobsInProgress (loader (addJob o w))
  = if bool_decide (has_room (loader w))
    then jobsInProgress (loader w) + 1 else jobsInProgress (loader w).
Proof.
  unfold addJob. set (w1 := on_jobs _ w). change (loader w1) with (loader w).
  destruct (negb _ || _) eqn:Hroom.
  - apply room_test in Hroom. rewrite bool_decide_true by done. cbn.
    by rewrite start_loader_any.
  - rewrite bool_decide_false; [done|]. intros H%room_test. congruence.
Qed.

Lemma completeJob_counter j cb w :
  jobsInProgress (loader (completeJob j cb w))
  = if bool_decide (jobQueue (loader w) ≠ [] ∧ has_room (loader (leave w)))
    then jobsInProgress (loader w) - 1 + 1 else jobsInProgress (loader w) - 1.
Proof.
  destruct (completeJob_cases j cb w) as [(n & rest & Hq & Hroom & ->)|[Hno ->]];
    rewrite report_loader.
  - rewrite bool_decide_true by (by rewrite Hq). cbn. by rewrite start_loader_any.
  - rewrite bool_decide_false; [done|]. intros [? ?]. by destruct Hno.
Qed.

(** * The properties of the loader *)

(** ** Admission and the limit *)

(** C1.  Whatever callers and the browser do, in whatever order, a loader
    with a positive limit never counts more jobs in progress than its limit
    (which is the limit it was made with), and never fewer than none.
    [addJob] keeps the counter within the limit and raises it only when it
    is below the limit.  [completeJob], in whatever state of the jobs it is
    called, lowers the counter and raises it again at most once, so that
    the counter is within the limit after the promotion as well. *)
Theorem jobsInProgress_within_limit d limit time es w :
  run es (init d limit time) = Some w →
  0 < jobLimit (loader w) →
  jobLimit (loader w) = default (default_imageLoaderLimit d) limit
  ∧ 0 ≤ jobsInProgress (loader w) ≤ jobLimit (loader w)
  ∧ (∀ o, jobsInProgress (loader (addJob o w)) ≤ jobLimit (loader w)
          ∧ (jobsInProgress (loader (addJob o w)) ≠ jobsInProgress (loader w) →
             jobsInProgress (loader w) < jobLimit (loader w)))
  ∧ (∀ w0 j cb, loader w0 = loader w →
       jobsInProgress (loader w) - 1 ≤ jobsInProgress (loader (completeJob j cb w0))
       ∧ jobsInProgress (loader (completeJob j cb w0)) ≤ jobLimit (loader w)).
Proof.
  intros Hrun Hpos.
  assert (Hw : consistent None w) by (by apply (reachable_cons d limit time); exists es).
  destruct (reachable_dispatch d limit time w) as [Ha Hb _]; [by exists es|].
  specialize (Hb Hpos). pose proof (callbacks_le_starts w Hw) as Hle.
  unfold accounted in Ha.
  split_and!; [by apply (reachable_config d limit time es)|lia|done|..].
  - intros o. rewrite addJob_counter. unfold has_room.
    case_bool_decide; [split; lia|split; [lia|done]].
  - intros w0 j cb El. rewrite completeJob_counter. unfold has_room, leave. cbn.
    rewrite El. case_bool_decide; [|lia]. lia.
Qed.

Lemma jobsInProgress_within_limit_witness :
  run three_requests (init sample_settings (Some 2) None) = Some busy
  ∧ 0 < jobLimit (loader busy)
  ∧ 0 ≤ jobsInProgress (loader busy) ≤ jobLimit (loader busy).
Proof.
  assert (H1 : run three_requests (init sample_settings (Some 2) None) = Some busy)
    by reflexivity.
  assert (H2 : 0 < jobLimit (loader busy)) by reflexivity.
  split; [exact H1|]. split; [exact H2|].
  exact (proj1 (proj2 (jobsInProgress_within_limit _ _ _ _ _ H1 H2))).
Defined.


(** ** Completion *)

(** C2.  A job that has started is reported to its caller exactly once.  In
    every world a loader can get into, such a job has either not been
    reported yet, and then its timer is armed and the firing of the timer
    reports it; or it has been reported once, with an image and no message or
    with a message and no image.  Nothing that happens later adds a second
    report for the job, and the counter is always the number of starts minus
    the number of reports, so that no job is taken off the counter twice. *)
Theorem callback_exactly_once d limit time es w j :
  run es (init d limit time) = Some w →
  j ∈ starts (log w) →
  ((∃ h w' msg, callbacks_of j (log w) = [] ∧ (h, j) ∈ timers w
      ∧ step (TimerFires h) w = Some w' ∧ callbacks_of j (log w') = [(None, Some msg)])
   ∨ ∃ img err, callbacks_of j (log w) = [(img, err)]
       ∧ (is_Some img ∧ err = None ∨ img = None ∧ is_Some err))
  ∧ (∀ es' w' x, run es' w = Some w' →
       callbacks_of j (log w) = [x] → callbacks_of j (log w') = [x])
  ∧ jobsInProgress (loader w)
    = Z.of_nat (length (starts (log w))) - Z.of_nat (length (callbacks (log w))).
Proof.
  intros Hrun Hs.
  assert (Hw : consistent None w) by (by apply (reachable_cons d limit time); exists es).
  assert (Hj : (j < length (jobs w))%nat) by (apply (c_log _ _ Hw); by left).
  split_and!.
  - destruct (job_status w j Hw Hj) as (b & Hb & [(_ & _ & ?)|(_ & [(h & Ht & Hc)|[(i & Hc)|(msg & Hc)]])]).
    + done.
    + left. destruct (timer_ends_job w h j Hw Ht) as (b' & w' & _ & Hstep & Hend & _).
      exists h, w', (timeout_message (timeout b')). split_and!; try done.
      rewrite (ended_callbacks _ _ _ _ _ _ _ _ j Hend), Hc, decide_True by done. done.
    + right. exists (Some i), None. split; [done|]. left. split; [by eexists|done].
    + right. exists None, (Some msg). split; [done|]. right. split; [done|by eexists].
  - intros es' w' x Hrun' Hx.
    assert (Hw' : consistent None w') by (by eapply run_cons).
    destruct (ev_run es' w w' Hrun') as [_ _ _ [l Hl] Hlen _].
    assert (Hs' : j ∈ starts (log w')).
    { rewrite Hl, starts_app. apply elem_of_app. by left. }
    assert (Hj' : (j < length (jobs w'))%nat) by lia.
    destruct (job_status w' j Hw' Hj') as (b & Hb & [(_ & _ & ?)|(_ & H)]); [done|].
    rewrite Hl, callbacks_of_app, Hx in *.
    destruct H as [(h & _ & Hc)|[(i & Hc)|(msg & Hc)]]; [done| |];
      destruct (callbacks_of j l); try done; by rewrite app_nil_r.
  - by apply (reachable_dispatch d limit time w); exists es.
Qed.

Lemma callback_exactly_once_witness :
  run three_requests (init sample_settings (Some 2) None) = Some busy
  ∧ 0%nat ∈ starts (log busy)
  ∧ jobsInProgress (loader busy)
    = Z.of_nat (length (starts (log busy))) - Z.of_nat (length (callbacks (log busy))).
Proof.
  assert (H1 : run three_requests (init sample_settings (Some 2) None) = Some busy)
    by reflexivity.
  assert (H2 : 0%nat ∈ starts (log busy)) by constructor.
  split; [exact H1|]. split; [exact H2|].
  exact (proj2 (proj2 (callback_exactly_once _ _ _ _ _ _ H1 H2))).
Defined.



(** ** Clearing *)

(** C5.  [clear] calls the abort function of every waiting job that has one,
    in the order of the queue, and empties the queue.  It leaves the counter,
    the jobs, the images, the timers and the pending operations as they are,
    so that a job in progress still ends through [finish]: its timer, for one,
    still reports it. *)
Theorem clear_aborts_waiting_jobs d limit time es w :
  run es (init d limit time) = Some w →
  log (clear w) = log w ++ abort_hooks w
  ∧ jobQueue (loader (clear w)) = []
  ∧ jobsInProgress (loader (clear w)) = jobsInProgress (loader w)
  ∧ jobs (clear w) = jobs w ∧ images (clear w) = images w
  ∧ timers (clear w) = timers w ∧ pending (clear w) = pending w
  ∧ ∀ h j, (h, j) ∈ timers w →
      ∃ w' msg, step (TimerFires h) (clear w) = Some w'
                ∧ callbacks_of j (log w') = [(None, Some msg)].
Proof.
  intros Hrun.
  assert (Hw : consistent None w) by (by apply (reachable_cons d limit time); exists es).
  pose proof (clear_cons w Hw) as Hc.
  assert (Ht' : timers (clear w) = timers w) by (by rewrite clear_emits).
  split_and!; try (by rewrite clear_emits).
  { rewrite clear_emits. cbn. by rewrite (clear_trace_hooks None w Hw). }
  intros h j Ht. rewrite <- Ht' in Ht.
  destruct (timer_ends_job _ h j Hc Ht) as (b & w' & _ & Hstep & Hend & Hnil).
  exists w', (timeout_message (timeout b)). split; [done|].
  rewrite (ended_callbacks _ _ _ _ _ _ _ _ j Hend), Hnil, decide_True by done. done.
Qed.

Lemma clear_aborts_waiting_jobs_witness :
  run three_requests (init sample_settings (Some 2) None) = Some busy
  ∧ log (clear busy) = log busy ++ abort_hooks busy
  ∧ abort_hooks busy = [AbortCalled 2 103].
Proof.
  assert (H1 : run three_requests (init sample_settings (Some 2) None) = Some busy)
    by reflexivity.
  split; [exact H1|]. split.
  - exact (proj1 (clear_aborts_waiting_jobs _ _ _ _ _ H1)).
  - vm_compute. reflexivity.
Defined.

(** C10.  A job that [clear] removed from the queue is never started and its
    callback is never called, whatever happens afterwards; it does not come
    back into the queue either. *)
Theorem cleared_job_is_never_reported d limit time es w j es' w' :
  run es (init d limit time) = Some w →
  j ∈ jobQueue (loader w) →
  run es' (clear w) = Some w' →
  (∀ cb img err req, Callback j cb img err req ∉ log w')
  ∧ (∀ s, TileLoadStart j s ∉ log w')
  ∧ j ∉ jobQueue (loader w').
Proof.
  intros Hrun Hq Hrun'.
  assert (Hw : consistent None w) by (by apply (reachable_cons d limit time); exists es).
  assert (Hw' : consistent None w') by (eapply run_cons; [done|by apply clear_cons]).
  destruct (c_queue _ _ Hw j Hq) as (b & Hb & Hid).
  pose proof (c_jobs _ _ Hw j b Hb) as Hok. unfold job_ok in Hok. rewrite Hid in Hok.
  destruct Hok as (_ & _ & _ & _ & _ & _ & Hns & _).
  destruct (ev_run es' _ w' Hrun') as [_ _ _ _ Hlen Hmem].
  assert (Hj : (j < length (jobs w))%nat) by (by eapply lookup_lt_Some).
  assert (Hout : j ∉ starts (log w') ++ jobQueue (loader w')).
  { intros [Hin|Hge]%Hmem.
    - rewrite clear_emits in Hin. cbn in Hin.
      rewrite starts_app, (quiet_starts (clear_trace _ _)), !app_nil_r in Hin
        by apply clear_trace_quiet. done.
    - rewrite clear_emits in Hge. cbn in Hge. lia. }
  rewrite clear_emits in Hlen. cbn in Hlen.
  assert (Hj' : (j < length (jobs w'))%nat) by lia.
  destruct (job_status w' j Hw' Hj') as (b' & Hb' & [(_ & Hnil & _)|(Hs & _)]).
  - split_and!.
    + intros cb img err req Hin%elem_of_callbacks. rewrite Hnil in Hin.
      by apply elem_of_nil in Hin.
    + intros s Hin%elem_of_starts. apply Hout, elem_of_app. by left.
    + intros Hin. apply Hout, elem_of_app. by right.
  - destruct Hout. apply elem_of_app. by left.
Qed.

Lemma cleared_job_is_never_reported_witness :
  run three_requests (init sample_settings (Some 2) None) = Some busy
  ∧ 2%nat ∈ jobQueue (loader busy)
  ∧ run [ImageLoads 0] (clear busy) = Some cleared_then_loaded
  ∧ (2%nat ∉ jobQueue (loader cleared_then_loaded)).
Proof.
  assert (H1 : run three_requests (init sample_settings (Some 2) None) = Some busy)
    by reflexivity.
  assert (H2 : 2%nat ∈ jobQueue (loader busy)) by constructor.
  assert (H3 : run [ImageLoads 0] (clear busy) = Some cleared_then_loaded) by reflexivity.
  split; [exact H1|]. split; [exact H2|]. split; [exact H3|].
  exact (proj2 (proj2 (cleared_job_is_never_reported _ _ _ _ _ _ _ _ H1 H2 H3))).
Defined.

(** ** Timeout *)




(** ** AJAX *)

(** C7 fails as stated: the message for an empty response is not the text
    [empty response]. *)
Lemma empty_blob_counterexample :
  callbacks (log (after [CallAddJob (ajax "a" 1); XhrSucceeds 0 0 (Some 0%N)]
                    (init sample_settings None None)))
  = [(0%nat, (None, Some "Empty image response."))]
  ∧ "Empty image response." ≠ "empty response".
Proof. vm_compute. split_and!; try reflexivity; discriminate. Qed.

(** C7, amended.  When the request of an AJAX job that still has its image
    succeeds with a response that makes a Blob of size 0, the job ends: its
    callback gets no image and the message [Empty image response.], and the
    job's image is dropped. *)
Theorem empty_blob_fails_the_job d limit time es w x j b :
  run es (init d limit time) = Some w →
  jobs w !! j = Some b → PXhr x j ∈ pending w → is_Some (image b) →
  ∃ w', step (XhrSucceeds x j (Some 0%N)) w = Some w'
    ∧ callbacks_of j (log w') = [(None, Some "Empty image response.")]
    ∧ ∃ b', jobs w' !! j = Some b' ∧ image b' = None.
Proof.
  intros Hrun Hb Hp [i Hi].
  assert (Hw : consistent None w) by (by apply (reachable_cons d limit time); exists es).
  destruct (owner_cases None w _ Hw Hp) as (b0 & Hb0 & [(h & i0 & m & Hin & _)|[_ Hf]]);
    cbn [owner] in *; [|congruence].
  assert (b0 = b) as -> by congruence.
  set (w1 := on_pending (remove_first (PXhr x j)) w).
  assert (Hw1 : consistent None w1) by (by apply cons_remove_pending).
  apply (in_progress_remove (PXhr x j)) in Hin. fold w1 in Hin.
  destruct (fail_in_progress j b h i0 m "Empty image response." w1 w1 Hw1 Hb Hin)
    as (w2 & Hf & He); try done; [by left|].
  pose proof He as [? (b' & Hb' & Hi' & _) _].
  exists (emit (Uncaught j) w2). split_and!.
  - cbn. unfold deliver. rewrite bool_decide_true by done. fold w1.
    unfold xhr_success_fn. cbn. unfold fail_with in Hf. rewrite Hf.
    unfold assign_image_src. by rewrite Hb', Hi'.
  - cbn. rewrite callbacks_of_quiet by (by repeat constructor).
    rewrite (ended_callbacks _ _ _ _ _ _ _ _ j He), decide_True by done.
    by destruct Hin as (_&_&_&_&_&_&_&->&_).
  - by exists b'.
Qed.

Lemma empty_blob_fails_the_job_witness :
  run [CallAddJob (ajax "a" 1)] (init sample_settings None None) = Some fetching
  ∧ jobs fetching !! 0%nat = Some fetching_job
  ∧ PXhr 0 0 ∈ pending fetching
  ∧ is_Some (image fetching_job)
  ∧ ∃ w', step (XhrSucceeds 0 0 (Some 0%N)) fetching = Some w'
          ∧ callbacks_of 0 (log w') = [(None, Some "Empty image response.")].
Proof.
  assert (H1 : run [CallAddJob (ajax "a" 1)] (init sample_settings None None) = Some fetching)
    by reflexivity.
  assert (H2 : jobs fetching !! 0%nat = Some fetching_job) by reflexivity.
  assert (H3 : PXhr 0 0 ∈ pending fetching) by constructor.
  assert (H4 : is_Some (image fetching_job)) by (eexists; reflexivity).
  split; [exact H1|]. split; [exact H2|]. split; [exact H3|]. split; [exact H4|].
  destruct (empty_blob_fails_the_job _ _ _ _ _ _ _ _ H1 H2 H3 H4) as (w' & Hs & Hc & _).
  exists w'. split; [exact Hs|exact Hc].
Defined.

(** ** Multiple servers *)

(** C8 fails as stated: the code reads the column and the row from the first
    and the second piece of the file name, not from the second-to-last and
    the third-to-last, and it leaves a URL alone when [labels_] or
    [predictions_] occurs anywhere in it, not only at the start of the file
    name. *)
Lemma multi_server_counterexample :
  let w0 := init sample_settings (Some 0) None in
  let o1 := sharded "/t/1_2_4_8.jpg" 1 in
  let o2 := sharded "/labels_x/0_4_6_0.jpg" 1 in
  (img_src <$> images (addJob o1 w0) !! 0%nat) = Some (Some (Url "s2/t/1_2_4_8.jpg"))
  ∧ spec_balanced_src (new_ImageJob (loader w0) o1) = "s0/t/1_2_4_8.jpg"
  ∧ (img_src <$> images (addJob o2 w0) !! 0%nat) = Some (Some (Url "/labels_x/0_4_6_0.jpg"))
  ∧ spec_balanced_src (new_ImageJob (loader w0) o2) = "s0/labels_x/0_4_6_0.jpg"
  ∧ balanced_src (new_ImageJob (loader w0) o1) ≠ spec_balanced_src (new_ImageJob (loader w0) o1)
  ∧ balanced_src (new_ImageJob (loader w0) o2) ≠ spec_balanced_src (new_ImageJob (loader w0) o2).
Proof. vm_compute. split_and!; try reflexivity; discriminate. Qed.

(** C8, amended.  A multi-server job asks for [balanced_src].  That is the
    URL itself when [labels_] or [predictions_] occurs anywhere in the URL.
    Otherwise the column and the row are [parseInt] of the first and the
    second piece between underscores of the last segment of the URL, and the
    request goes to server 0 for (even, even), 1 for (even, odd), 2 for
    (odd, even) and 3 for (odd, odd), the server's prefix being put before
    the URL.  For a file name [<col>_<row><rest>] these are the numbers [col]
    and [row]; a URL that ends in [/5_7.jpg] goes to server 3. *)
Theorem multi_server_source w n b :
  jobs w !! n = Some b →
  loadWithSignalR b && bool_decide (is_Some (signalRHub b)) = false →
  loadWithAjax b = false → loadWithMultiServers b = true →
  (∃ m, images (start n w) !! length (images w) = Some m
        ∧ img_src m = Some (Url (balanced_src b)))
  ∧ (JS.includes "labels_" (src b) || JS.includes "predictions_" (src b) = true →
     balanced_src b = src b)
  ∧ (JS.includes "labels_" (src b) || JS.includes "predictions_" (src b) = false →
     balanced_src b
     = JS.to_string
         (multiServers b !! endpoint_index (coordinates (src b)).1 (coordinates (src b)).2)
       +:+ src b
     ∧ (∀ dir, src b = dir +:+ "/5_7.jpg" →
          balanced_src b = JS.to_string (multiServers b !! 3%nat) +:+ src b)
     ∧ (∀ dir c0 c r0 r rest,
          all_digits (String c0 c) = true → all_digits (String r0 r) = true →
          starts_with_digit rest = false →
          has_char "/" rest = false → has_char "\" rest = false →
          has_char "_" rest = false →
          src b = dir +:+ "/" +:+ String c0 c +:+ "_" +:+ String r0 r +:+ rest →
          balanced_src b
          = JS.to_string
              (multiServers b !! endpoint_index (JS.Int (decimal 0 (String c0 c)))
                                                (JS.Int (decimal 0 (String r0 r))))
            +:+ src b)).
Proof.
  intros Hb H1 H2 H3.
  assert (Hgen : JS.includes "labels_" (src b) || JS.includes "predictions_" (src b) = false →
            balanced_src b
            = JS.to_string
                (multiServers b !! endpoint_index (coordinates (src b)).1 (coordinates (src b)).2)
              +:+ src b).
  { intros Hm. unfold balanced_src. rewrite Hm. unfold endpoint_index, coordinates, file_name.
    cbn [fst snd]. by repeat case_match. }
  split_and!.
  - unfold start. rewrite Hb, H1, H2, H3. unfold apply_crossOrigin.
    destruct (crossOriginPolicy b); cbn; rewrite !alter_snoc; (eexists; split;
      [by apply list_lookup_middle|done]).
  - intros Hm. unfold balanced_src. by rewrite Hm.
  - intros Hm. split_and!; [by apply Hgen|..].
    + intros dir Hsrc. rewrite (Hgen Hm), Hsrc, coordinates_5_7. done.
    + intros dir c0 c r0 r rest ? ? ? ? ? ? Hsrc.
      rewrite (Hgen Hm), Hsrc, coordinates_well_formed by done. done.
Qed.

Lemma multi_server_source_witness :
  let w := addJob (sharded "/tiles/5_7.jpg" 1) (init sample_settings (Some 0) None) in
  ∃ b, jobs w !! 0%nat = Some b ∧ balanced_src b = "s3/tiles/5_7.jpg".
Proof.
  set (w0 := on_jobs (λ js, js ++ [new_ImageJob (loader (init sample_settings (Some 0) None))
                                      (sharded "/tiles/5_7.jpg" 1)])
               (init sample_settings (Some 0) None)).
  set (b := new_ImageJob (loader (init sample_settings (Some 0) None))
              (sharded "/tiles/5_7.jpg" 1)).
  destruct (multi_server_source w0 0 b eq_refl eq_refl eq_refl eq_refl) as (_ & _ & H).
  destruct (H eq_refl) as (_ & H57 & _).
  eexists. split; [vm_compute; reflexivity|].
  exact (H57 "/tiles" eq_refl).
Defined.

(** ** SignalR *)

(** C9.  A SignalR job that finds the connection not started asks for it
    to be started, and calls [getTile] when that has been done.  When it
    fails, the code writes to the console and does nothing else: no message
    is stored in the job, [finish] is not called, no callback is called, and
    the counter, the jobs and the timers stay as they were.  A job in
    progress is left in progress, and only its timer is left to end it. *)
Theorem hub_start_failure_is_only_logged w self :
  PHubStart self ∈ pending w →
  (∀ n b w0, jobs w0 !! n = Some b →
     loadWithSignalR b && bool_decide (is_Some (signalRHub b)) = true →
     connected w0 = false →
     pending (start n w0) = pending w0 ++ [PHubStart n])
  ∧ (∃ w', step (HubStartDone self) w = Some w'
       ∧ connected w' = true ∧ log w' = log w
       ∧ pending w' = remove_first (PHubStart self) (pending w) ++ [PGetTile self])
  ∧ ∃ w', step (HubStartFails self) w = Some w'
      ∧ log w' = log w ++ [ConsoleError "SignalR could not Connect!"]
      ∧ callbacks (log w') = callbacks (log w)
      ∧ jobs w' = jobs w ∧ loader w' = loader w
      ∧ images w' = images w ∧ timers w' = timers w
      ∧ pending w' = remove_first (PHubStart self) (pending w).
Proof.
  intros Hp. split_and!.
  - intros n b w0 Hb Hs Hc. unfold start. rewrite Hb, Hs. cbn. by rewrite Hc.
  - eexists. cbn. unfold deliver. rewrite bool_decide_true by done. done.
  - eexists. cbn. unfold deliver. rewrite bool_decide_true by done.
    split_and!; try done. cbn.
    by rewrite callbacks_app, callbacks_cons, callbacks_nil, app_nil_r.
Qed.

Lemma hub_start_failure_is_only_logged_witness :
  run [CallAddJob (signalR "a" 1)] (init sample_settings (Some 2) None) = Some connecting
  ∧ PHubStart 0 ∈ pending connecting
  ∧ ∃ w', step (HubStartFails 0) connecting = Some w'
      ∧ log w' = [TileLoadStart 0 "a"; SetTimeout 1 0 30000;
                  ConsoleError "SignalR could not Connect!"]
      ∧ callbacks (log w') = []
      ∧ (errorMsg <$> jobs w' !! 0%nat) = Some None
      ∧ jobsInProgress (loader w') = 1
      ∧ timers w' = [(1%nat, 0%nat)].
Proof.
  assert (H1 : PHubStart 0 ∈ pending connecting) by constructor.
  split; [reflexivity|]. split; [exact H1|].
  destruct (hub_start_failure_is_only_logged connecting 0 H1)
    as (_ & _ & w' & Hs & Hl & Hc & Hj & Hld & _ & Ht & _).
  exists w'. split; [exact Hs|]. rewrite Hc, Hl, Hj, Hld, Ht. repeat split.
Defined.

(** * Further properties of the loader *)

(** ** How a job ends *)

Lemma reported_no_timer w j h :
  consistent None w → callbacks_of j (log w) ≠ [] → (h, j) ∉ timers w.
Proof.
  intros Hw Hc Ht. destruct (timer_in_progress None w h j Hw Ht) as (b & i & m & _ & Hin).
  by destruct Hin as (_&_&_&_&_&_&_&Hnil&_).
Qed.

Lemma promotion_no_callbacks w es : promotion w es → callbacks es = [].
Proof. intros [[_ ->]|(n & bn & _ & _ & _ & ->)]; done. Qed.

Lemma ended_reports j b img err h w0 w w' :
  dispatch_inv w0 → dispatch_inv w' →
  ended j (callback b) img err (request b) h w w' →
  jobs w0 !! j = Some b → (h, j) ∈ timers w0 →
  loader w = loader w0 → jobs w = jobs w0 → nextTimer w = nextTimer w0 → log w = log w0 →
  reports w0 w' j img err.
Proof.
  intros [Ha _ _] [Ha' _ _] He Hb Ht El Ej En Elog.
  pose proof (ended_callbacks _ _ _ _ _ _ _ _ j He) as Hcb. rewrite decide_True in Hcb by done.
  destruct He as [Hc Hj (es & Hes & Hlog)].
  exists h, b, es. split_and!; try done.
  - unfold promotion, leave in *. cbn [loader on_loader] in *. by rewrite <- El, <- Ej, <- En.
  - by rewrite Hlog, Elog.
  - intros h'. apply reported_no_timer; [done|]. rewrite Hcb. by destruct (callbacks_of j (log w)).
  - unfold accounted in *. rewrite Ha', Ha, Hlog, Elog.
    rewrite !starts_app, !callbacks_app, (promotion_no_callbacks w es Hes).
    rewrite starts_cons, starts_nil, callbacks_cons, callbacks_nil.
    rewrite (starts_cons (Callback _ _ _ _ _)), starts_nil, callbacks_cons, callbacks_nil.
    rewrite !length_app. cbn. lia.
Qed.

(** An image with a handler of job [j] reports the end of its load. *)
Lemma image_handler_ready w i m j :
  consistent None w → images w !! i = Some m → loading m = true →
  onload m = Some j ∨ onerror m = Some j ∨ onabort m = Some j →
  let w1 := on_image i (set_loading false) w in
  consistent None w1
  ∧ handled_by j m
  ∧ ∃ b h, jobs w !! j = Some b ∧ (h, j) ∈ timers w
      ∧ in_progress w1 j b h i (set_loading false m)
      ∧ pend_of j (pending w1) = [].
Proof.
  intros Hw Hm Hl Hh w1.
  assert (Hw1 : consistent None w1) by (by apply cons_on_image).
  destruct (handler_in_progress None w i m j Hw Hm Hh) as (b & h & Hb & Hin).
  assert (Hm1 : images w1 !! i = Some (set_loading false m)).
  { cbn. by rewrite list_lookup_alter_eq, Hm. }
  destruct (handler_in_progress None w1 i _ j Hw1 Hm1 Hh) as (b1 & h1 & Hb1 & Hin1).
  assert (b1 = b) as -> by (cbn in Hb1; congruence).
  assert (h1 = h) as ->.
  { destruct Hin as (E1 & _). destruct Hin1 as (E2 & _). congruence. }
  destruct Hin as (_ & _ & _ & _ & Hhb & Ht & _ & _ & Hc).
  split_and!; [done|done|]. exists b, h. split_and!; try done.
  rewrite Hl in Hc. cbn. destruct (pend_of j (pending w)); [done|cbn in Hc; lia].
Qed.

Lemma image_load_reports w i m j :
  consistent None w → dispatch_inv w →
  images w !! i = Some m → loading m = true → onload m = Some j →
  ∃ w', step (ImageLoads i) w = Some w' ∧ reports w w' j (Some i) None.
Proof.
  intros Hw Hd Hm Hl Hj.
  destruct (image_handler_ready w i m j Hw Hm Hl (or_introl Hj))
    as (Hw1 & _ & b & h & Hb & Ht & Hin & Hnil).
  destruct (finish_ok_in_progress j b h i _ _ Hw1 Hb Hin Hnil eq_refl) as (w2 & Hf & He).
  assert (Hstep : step (ImageLoads i) w = Some w2).
  { cbn. unfold image_event. rewrite Hm, Hl, Hj. unfold onload_fn. by rewrite Hf. }
  exists w2. split; [done|].
  apply (ended_reports j b (Some i) None h w (on_image i (set_loading false) w) w2);
    try done. by apply (step_dispatch _ _ _ Hstep).
Qed.

Lemma image_failure_reports w i m j (abort : bool) :
  consistent None w → dispatch_inv w →
  images w !! i = Some m → loading m = true →
  onload m = Some j ∨ onerror m = Some j ∨ onabort m = Some j →
  ∃ w', step (if abort then ImageAborts i else ImageErrors i) w = Some w'
        ∧ reports w w' j None (Some "Image load aborted").
Proof.
  intros Hw Hd Hm Hl Hj.
  destruct (image_handler_ready w i m j Hw Hm Hl Hj)
    as (Hw1 & (_ & He1 & He2) & b & h & Hb & Ht & Hin & Hnil).
  set (w1 := on_image i (set_loading false) w) in *.
  destruct (fail_in_progress j b h i _ "Image load aborted" w1 w1 Hw1 Hb Hin)
    as (w2 & Hf & He); try done; [by left|].
  assert (Hstep : step (if abort then ImageAborts i else ImageErrors i) w = Some w2).
  { destruct abort; cbn; unfold image_event; rewrite Hm, Hl, ?He1, ?He2; fold w1;
      unfold onerror_fn; unfold fail_with in Hf; by rewrite Hf. }
  exists w2. split; [done|].
  apply (ended_reports j b None _ h w w1 w2); try done.
  by apply (step_dispatch _ _ _ Hstep).
Qed.

(** An operation of a job that still has its image. *)
Lemma delivered_in_progress w p b :
  consistent None w → p ∈ pending w →
  jobs w !! owner p = Some b → is_Some (image b) →
  let w1 := on_pending (remove_first p) w in
  consistent None w1
  ∧ ∃ h i m, in_progress w1 (owner p) b h i m ∧ (h, owner p) ∈ timers w
      ∧ image b = Some i ∧ images w !! i = Some m ∧ loading m = false
      ∧ pend_of (owner p) (pending w1) = [].
Proof.
  intros Hw Hp Hb [i0 Hi0] w1. split; [by apply cons_remove_pending|].
  destruct (owner_cases None w p Hw Hp) as (b0 & Hb0 & [(h & i & m & Hin & Hl & _)|[_ Hf]]);
    [|congruence].
  assert (b0 = b) as -> by congruence.
  exists h, i, m. split_and!; try done.
  - by apply in_progress_remove.
  - by destruct Hin as (_&_&_&_&_&?&_).
  - by destruct Hin as (_&_&?&_).
  - by destruct Hin as (_&_&_&?&_).
  - destruct Hin as (_ & _ & Hi & Hm & _). by apply (settled_job None p w b i m).
Qed.

Lemma delivered_failure_reports e p msg w b :
  consistent None w → dispatch_inv w → p ∈ pending w →
  jobs w !! owner p = Some b → is_Some (image b) →
  step e w = Some (settle (owner p) (fail_with (owner p) msg (on_pending (remove_first p) w))) →
  ∃ w', step e w = Some w' ∧ reports w w' (owner p) None (Some msg).
Proof.
  intros Hw Hd Hp Hb Hi Hstep.
  destruct (delivered_in_progress w p b Hw Hp Hb Hi) as (Hw1 & h & i & m & Hin & Ht & _).
  set (w1 := on_pending (remove_first p) w) in *.
  destruct (fail_in_progress (owner p) b h i m msg w1 w1 Hw1 Hb Hin)
    as (w2 & Hf & He); try done; [by left|].
  rewrite Hf in Hstep. cbn [settle] in Hstep.
  exists w2. split; [done|].
  apply (ended_reports (owner p) b None _ h w w1 w2); try done.
  by apply (step_dispatch _ _ _ Hstep).
Qed.

Lemma deliver_pending p fn w :
  p ∈ pending w →
  deliver p (owner p) fn w = Some (settle (owner p) (fn (on_pending (remove_first p) w))).
Proof. intros Hp. unfold deliver. by rewrite bool_decide_true. Qed.

(** [self.image.src = v] in the callback of the operation [p] of a job that
    still has its image: the image starts to load. *)
Lemma delivered_source e p v w b :
  consistent None w → p ∈ pending w →
  jobs w !! owner p = Some b → is_Some (image b) →
  step e w = Some (settle (owner p) (assign_image_src (owner p) v (on_pending (remove_first p) w))) →
  ∃ w' i m, step e w = Some w' ∧ image b = Some i ∧ images w !! i = Some m
    ∧ w' = on_image i (set_img_src v) (on_pending (remove_first p) w)
    ∧ images w' !! i = Some (set_img_src v m)
    ∧ onload m = Some (owner p).
Proof.
  intros Hw Hp Hb Hi Hstep.
  destruct (delivered_in_progress w p b Hw Hp Hb Hi)
    as (Hw1 & h & i & m & Hin & Ht & Hbi & Hm & Hl & Hnil).
  unfold assign_image_src in Hstep. cbn [jobs on_pending] in Hstep.
  rewrite Hb, Hbi in Hstep. cbn [settle] in Hstep.
  eexists _, i, m. split_and!; try done.
  - cbn. by rewrite list_lookup_alter_eq, Hm.
  - by destruct Hin as (_ & _ & _ & _ & (? & _) & _).
Qed.

(** X1.  When an image that is loading fires [onload] for the job that holds
    its handlers, the job ends well: its timer is cleared, a waiting job is
    promoted if there is room, and the caller's callback is called once, with
    the image and no message; the job keeps its image. *)
Theorem image_load_reports_the_image d limit time es w i m j :
  run es (init d limit time) = Some w →
  images w !! i = Some m → loading m = true → onload m = Some j →
  ∃ w', step (ImageLoads i) w = Some w' ∧ reports w w' j (Some i) None.
Proof.
  intros Hrun. apply image_load_reports.
  - by apply (reachable_cons d limit time); exists es.
  - by apply (reachable_dispatch d limit time); exists es.
Qed.

Lemma image_load_reports_the_image_witness :
  run three_requests (init sample_settings (Some 2) None) = Some busy
  ∧ images busy !! 0%nat = Some first_image
  ∧ loading first_image = true ∧ onload first_image = Some 0%nat
  ∧ ∃ w', step (ImageLoads 0) busy = Some w' ∧ reports busy w' 0 (Some 0%nat) None.
Proof.
  assert (H1 : run three_requests (init sample_settings (Some 2) None) = Some busy)
    by reflexivity.
  assert (H2 : images busy !! 0%nat = Some first_image) by reflexivity.
  assert (H3 : loading first_image = true) by reflexivity.
  assert (H4 : onload first_image = Some 0%nat) by reflexivity.
  split; [exact H1|]. split; [exact H2|]. split; [exact H3|]. split; [exact H4|].
  exact (image_load_reports_the_image _ _ _ _ _ _ _ _ H1 H2 H3 H4).
Defined.

(** X2.  When an image that is loading fires [onerror] or [onabort] for the
    job that holds its handlers, the job fails: its timer is cleared, its
    image is dropped, and the callback is called once with no image and the
    message [Image load aborted]. *)
Theorem image_error_reports_failure d limit time es w i m j :
  run es (init d limit time) = Some w →
  images w !! i = Some m → loading m = true →
  onerror m = Some j ∨ onabort m = Some j →
  (∃ w', step (ImageErrors i) w = Some w'
         ∧ reports w w' j None (Some "Image load aborted"))
  ∧ (∃ w', step (ImageAborts i) w = Some w'
           ∧ reports w w' j None (Some "Image load aborted")).
Proof.
  intros Hrun Hm Hl Hj.
  assert (Hw : consistent None w) by (by apply (reachable_cons d limit time); exists es).
  assert (Hd : dispatch_inv w) by (by apply (reachable_dispatch d limit time); exists es).
  split.
  - by apply (image_failure_reports w i m j false); [..|right].
  - by apply (image_failure_reports w i m j true); [..|right].
Qed.

Lemma image_error_reports_failure_witness :
  run three_requests (init sample_settings (Some 2) None) = Some busy
  ∧ images busy !! 0%nat = Some first_image
  ∧ loading first_image = true ∧ onerror first_image = Some 0%nat
  ∧ ∃ w', step (ImageErrors 0) busy = Some w'
          ∧ reports busy w' 0 None (Some "Image load aborted").
Proof.
  assert (H1 : run three_requests (init sample_settings (Some 2) None) = Some busy)
    by reflexivity.
  assert (H2 : images busy !! 0%nat = Some first_image) by reflexivity.
  assert (H3 : loading first_image = true) by reflexivity.
  assert (H4 : onerror first_image = Some 0%nat) by reflexivity.
  split; [exact H1|]. split; [exact H2|]. split; [exact H3|]. split; [exact H4|].
  exact (proj1 (image_error_reports_failure _ _ _ _ _ _ _ _ H1 H2 H3 (or_introl H4))).
Defined.

(** X3.  When the request of an AJAX job that still has its image fails, the
    job fails: the callback is called once with no image and the message
    [Image load aborted - XHR error]. *)
Theorem xhr_error_reports_failure d limit time es w x j b :
  run es (init d limit time) = Some w →
  PXhr x j ∈ pending w → jobs w !! j = Some b → is_Some (image b) →
  ∃ w', step (XhrFails x j) w = Some w'
        ∧ reports w w' j None (Some "Image load aborted - XHR error").
Proof.
  intros Hrun Hp Hb Hi.
  assert (Hw : consistent None w) by (by apply (reachable_cons d limit time); exists es).
  assert (Hd : dispatch_inv w) by (by apply (reachable_dispatch d limit time); exists es).
  apply (delivered_failure_reports _ (PXhr x j) _ w b); try done.
  cbn. by rewrite (deliver_pending (PXhr x j)).
Qed.

Lemma xhr_error_reports_failure_witness :
  run [CallAddJob (ajax "a" 1)] (init sample_settings None None) = Some fetching
  ∧ PXhr 0 0 ∈ pending fetching
  ∧ jobs fetching !! 0%nat = Some fetching_job
  ∧ is_Some (image fetching_job)
  ∧ ∃ w', step (XhrFails 0 0) fetching = Some w'
          ∧ reports fetching w' 0 None (Some "Image load aborted - XHR error").
Proof.
  assert (H1 : run [CallAddJob (ajax "a" 1)] (init sample_settings None None) = Some fetching)
    by reflexivity.
  assert (H2 : PXhr 0 0 ∈ pending fetching) by constructor.
  assert (H3 : jobs fetching !! 0%nat = Some fetching_job) by reflexivity.
  assert (H4 : is_Some (image fetching_job)) by (eexists; reflexivity).
  split; [exact H1|]. split; [exact H2|]. split; [exact H3|]. split; [exact H4|].
  exact (xhr_error_reports_failure _ _ _ _ _ _ _ _ H1 H2 H3 H4).
Defined.

(** X6.  When [getTile] of a SignalR job that still has its image returns
    nothing, the job fails with the message
    [Image load aborted - Empty image response.]; when it fails with [error],
    the job fails with [Image load aborted - SignalR error: ] followed by
    [error]. *)
Theorem getTile_failure_reports d limit time es w j b :
  run es (init d limit time) = Some w →
  PGetTile j ∈ pending w → jobs w !! j = Some b → is_Some (image b) →
  (∃ w', step (GetTileDone j None) w = Some w'
         ∧ reports w w' j None (Some "Image load aborted - Empty image response."))
  ∧ (∀ error, ∃ w',
       step (GetTileFails j error) w = Some w'
       ∧ reports w w' j None (Some ("Image load aborted - SignalR error: " +:+ error))).
Proof.
  intros Hrun Hp Hb Hi.
  assert (Hw : consistent None w) by (by apply (reachable_cons d limit time); exists es).
  assert (Hd : dispatch_inv w) by (by apply (reachable_dispatch d limit time); exists es).
  split; [|intros error];
    (apply (delivered_failure_reports _ (PGetTile j) _ w b); try done;
     cbn; by rewrite (deliver_pending (PGetTile j))).
Qed.

Lemma getTile_failure_reports_witness :
  run [CallAddJob (signalR "a" 1); HubStartDone 0] (init sample_settings None None)
  = Some asking
  ∧ PGetTile 0 ∈ pending asking
  ∧ jobs asking !! 0%nat = Some asking_job
  ∧ is_Some (image asking_job)
  ∧ ∃ w', step (GetTileFails 0 "closed") asking = Some w'
          ∧ reports asking w' 0 None (Some "Image load aborted - SignalR error: closed").
Proof.
  assert (H1 : run [CallAddJob (signalR "a" 1); HubStartDone 0]
                 (init sample_settings None None) = Some asking) by reflexivity.
  assert (H2 : PGetTile 0 ∈ pending asking) by constructor.
  assert (H3 : jobs asking !! 0%nat = Some asking_job) by reflexivity.
  assert (H4 : is_Some (image asking_job)) by (eexists; reflexivity).
  split; [exact H1|]. split; [exact H2|]. split; [exact H3|]. split; [exact H4|].
  exact (proj2 (getTile_failure_reports _ _ _ _ _ _ _ H1 H2 H3 H4) "closed").
Defined.

(** A source that was assigned to the image of job [j] loads. *)
Lemma source_then_load e p v w b :
  consistent None w → dispatch_inv w → p ∈ pending w →
  jobs w !! owner p = Some b → is_Some (image b) →
  step e w = Some (settle (owner p) (assign_image_src (owner p) v (on_pending (remove_first p) w))) →
  ∃ w1 i m,
    step e w = Some w1 ∧ image b = Some i
    ∧ log w1 = log w ∧ timers w1 = timers w ∧ jobs w1 = jobs w ∧ loader w1 = loader w
    ∧ pending w1 = remove_first p (pending w)
    ∧ images w1 !! i = Some m ∧ img_src m = Some v ∧ loading m = true
    ∧ ∃ w2, step (ImageLoads i) w1 = Some w2 ∧ reports w1 w2 (owner p) (Some i) None.
Proof.
  intros Hw Hd Hp Hb Hi Hstep.
  destruct (delivered_source e p v w b Hw Hp Hb Hi Hstep)
    as (w1 & i & m & Hs & Hbi & Hm & -> & Hm1 & Hon).
  eexists _, i, _. split_and!; try done.
  apply (image_load_reports _ i (set_img_src v m) (owner p)); try done.
  - by apply (step_cons _ _ _ Hs).
  - by apply (step_dispatch _ _ _ Hs).
Qed.

(** X4.  When the request of an AJAX job that still has its image succeeds
    with a response that is not empty, no callback is called yet: the image
    is given the object URL of the response as its source and starts to
    load, and the job stays in progress.  When that load ends, the job is
    reported with its image. *)
Theorem ajax_response_becomes_the_image d limit time es w x j b size :
  run es (init d limit time) = Some w →
  PXhr x j ∈ pending w → jobs w !! j = Some b → is_Some (image b) → size ≠ 0%N →
  ∃ w1 i m,
    step (XhrSucceeds x j (Some size)) w = Some w1 ∧ image b = Some i
    ∧ log w1 = log w ∧ timers w1 = timers w ∧ jobs w1 = jobs w ∧ loader w1 = loader w
    ∧ pending w1 = remove_first (PXhr x j) (pending w)
    ∧ images w1 !! i = Some m ∧ img_src m = Some (BlobUrl x) ∧ loading m = true
    ∧ ∃ w2, step (ImageLoads i) w1 = Some w2 ∧ reports w1 w2 j (Some i) None.
Proof.
  intros Hrun Hp Hb Hi Hsize.
  assert (Hw : consistent None w) by (by apply (reachable_cons d limit time); exists es).
  assert (Hd : dispatch_inv w) by (by apply (reachable_dispatch d limit time); exists es).
  apply (source_then_load _ (PXhr x j) (BlobUrl x) w b); try done.
  cbn. rewrite (deliver_pending (PXhr x j)) by done. cbn. unfold xhr_success_fn.
  by rewrite (proj2 (N.eqb_neq size 0) Hsize).
Qed.

Lemma ajax_response_becomes_the_image_witness :
  run [CallAddJob (ajax "a" 1)] (init sample_settings None None) = Some fetching
  ∧ PXhr 0 0 ∈ pending fetching
  ∧ jobs fetching !! 0%nat = Some fetching_job
  ∧ is_Some (image fetching_job)
  ∧ ∃ w1 m, step (XhrSucceeds 0 0 (Some 512%N)) fetching = Some w1
      ∧ images w1 !! 0%nat = Some m ∧ img_src m = Some (BlobUrl 0).
Proof.
  assert (H1 : run [CallAddJob (ajax "a" 1)] (init sample_settings None None) = Some fetching)
    by reflexivity.
  assert (H2 : PXhr 0 0 ∈ pending fetching) by constructor.
  assert (H3 : jobs fetching !! 0%nat = Some fetching_job) by reflexivity.
  assert (H4 : is_Some (image fetching_job)) by (eexists; reflexivity).
  assert (H5 : 512%N ≠ 0%N) by discriminate.
  split; [exact H1|]. split; [exact H2|]. split; [exact H3|]. split; [exact H4|].
  destruct (ajax_response_becomes_the_image _ _ _ _ _ _ _ _ _ H1 H2 H3 H4 H5)
    as (w1 & i & m & Hs & Hi & _ & _ & _ & _ & _ & Hm & Hsrc & _).
  injection Hi as <-. exists w1, m. split; [exact Hs|]. split; [exact Hm|exact Hsrc].
Defined.

(** X5.  When [getTile] of a SignalR job that still has its image returns
    data, the image is given the source [data:<Mime>;base64,<Base64>] and
    starts to load, no callback being called yet; when that load ends, the
    job is reported with its image. *)
Theorem getTile_data_becomes_the_image d limit time es w j b mime base64 :
  run es (init d limit time) = Some w →
  PGetTile j ∈ pending w → jobs w !! j = Some b → is_Some (image b) →
  ∃ w1 i m,
    step (GetTileDone j (Some (mime, base64))) w = Some w1 ∧ image b = Some i
    ∧ log w1 = log w ∧ timers w1 = timers w ∧ jobs w1 = jobs w ∧ loader w1 = loader w
    ∧ pending w1 = remove_first (PGetTile j) (pending w)
    ∧ images w1 !! i = Some m
    ∧ img_src m = Some (Url ("data:" +:+ mime +:+ ";base64," +:+ base64))
    ∧ loading m = true
    ∧ ∃ w2, step (ImageLoads i) w1 = Some w2 ∧ reports w1 w2 j (Some i) None.
Proof.
  intros Hrun Hp Hb Hi.
  assert (Hw : consistent None w) by (by apply (reachable_cons d limit time); exists es).
  assert (Hd : dispatch_inv w) by (by apply (reachable_dispatch d limit time); exists es).
  apply (source_then_load _ (PGetTile j) _ w b); try done.
  cbn. by rewrite (deliver_pending (PGetTile j)).
Qed.

Lemma getTile_data_becomes_the_image_witness :
  run [CallAddJob (signalR "a" 1); HubStartDone 0] (init sample_settings None None)
  = Some asking
  ∧ PGetTile 0 ∈ pending asking
  ∧ jobs asking !! 0%nat = Some asking_job
  ∧ is_Some (image asking_job)
  ∧ ∃ w1 m, step (GetTileDone 0 (Some ("image/png", "AAAA"))) asking = Some w1
      ∧ images w1 !! 0%nat = Some m
      ∧ img_src m = Some (Url "data:image/png;base64,AAAA").
Proof.
  assert (H1 : run [CallAddJob (signalR "a" 1); HubStartDone 0]
                 (init sample_settings None None) = Some asking) by reflexivity.
  assert (H2 : PGetTile 0 ∈ pending asking) by constructor.
  assert (H3 : jobs asking !! 0%nat = Some asking_job) by reflexivity.
  assert (H4 : is_Some (image asking_job)) by (eexists; reflexivity).
  split; [exact H1|]. split; [exact H2|]. split; [exact H3|]. split; [exact H4|].
  destruct (getTile_data_becomes_the_image _ _ _ _ _ _ _ "image/png" "AAAA" H1 H2 H3 H4)
    as (w1 & i & m & Hs & Hi & _ & _ & _ & _ & _ & Hm & Hsrc & _).
  injection Hi as <-. exists w1, m. split; [exact Hs|]. split; [exact Hm|exact Hsrc].
Defined.

(** ** Events that come too late *)

Lemma dropped_uncaught w p err w1 :
  log w1 = log w → loader w1 = loader w → timers w1 = timers w → images w1 = images w →
  pending w1 = remove_first p (pending w) →
  jobs w1 = match err with
            | Some msg => alter (set_errorMsg (Some msg)) (owner p) (jobs w)
            | None => jobs w
            end →
  dropped w (emit (Uncaught (owner p)) w1) p err.
Proof.
  intros El Eld Et Ei Ep Ej. unfold dropped. cbn. rewrite El, Eld, Et, Ei, Ep, Ej.
  split_and!; try done.
  by rewrite callbacks_app, callbacks_cons, callbacks_nil, app_nil_r.
Qed.

Lemma late_failure p j msg w b :
  consistent None w → p ∈ pending w → owner p = j →
  jobs w !! j = Some b → image b = None →
  finish j false (on_job j (set_errorMsg (Some msg)) (on_pending (remove_first p) w))
  = Throw (on_job j (set_errorMsg (Some msg)) (on_pending (remove_first p) w)).
Proof.
  intros Hw Hp <- Hb Hi.
  destruct (delivered_job p w Hw Hp) as (Hw1 & b1 & Hb1 & Hcase).
  assert (b1 = b) as -> by (cbn in Hb1; congruence).
  destruct Hcase as [(h & i & m & Hin)|Hf].
  - destruct Hin as (_ & _ & ? & _). congruence.
  - destruct (fail_failed None (owner p) b msg _ Hw1 Hb1 Hf) as [Hf' _]. exact Hf'.
Qed.

Lemma late_source p j v w b :
  owner p = j → jobs w !! j = Some b → image b = None →
  assign_image_src j v (on_pending (remove_first p) w)
  = Throw (on_pending (remove_first p) w).
Proof. intros <- Hb Hi. unfold assign_image_src. cbn. by rewrite Hb, Hi. Qed.

(** X7.  The callback of a request or of [getTile] that arrives after its job
    has lost its image (it has run into its timeout) ends in a TypeError:
    the caller's callback is not called again, and the counter, the timers
    and the images stay as they were.  The handlers that store a message
    before they call [finish] overwrite the job's [errorMsg], which then
    differs from the message that was reported. *)
Theorem late_transport_events_are_dropped d limit time es w j b :
  run es (init d limit time) = Some w →
  jobs w !! j = Some b → image b = None →
  (∀ x, PXhr x j ∈ pending w →
     (∀ size, ∃ w', step (XhrSucceeds x j (Some size)) w = Some w'
        ∧ dropped w w' (PXhr x j)
            (if (size =? 0)%N then Some "Empty image response." else None))
     ∧ ∃ w', step (XhrFails x j) w = Some w'
         ∧ dropped w w' (PXhr x j) (Some "Image load aborted - XHR error"))
  ∧ (PGetTile j ∈ pending w →
     (∀ mime base64, ∃ w', step (GetTileDone j (Some (mime, base64))) w = Some w'
        ∧ dropped w w' (PGetTile j) None)
     ∧ (∃ w', step (GetTileDone j None) w = Some w'
          ∧ dropped w w' (PGetTile j) (Some "Image load aborted - Empty image response."))
     ∧ ∀ error, ∃ w', step (GetTileFails j error) w = Some w'
          ∧ dropped w w' (PGetTile j)
              (Some ("Image load aborted - SignalR error: " +:+ error))).
Proof.
  intros Hrun Hb Hi.
  assert (Hw : consistent None w) by (by apply (reachable_cons d limit time); exists es).
  split.
  - intros x Hp. split.
    + intros size. eexists. split.
      * cbn. rewrite (deliver_pending (PXhr x j)) by done. cbn [owner]. reflexivity.
      * unfold xhr_success_fn. destruct (size =? 0)%N.
        -- rewrite (late_failure (PXhr x j) j _ w b Hw Hp eq_refl Hb Hi). cbn [settle owner].
           by apply (dropped_uncaught w (PXhr x j) (Some _)).
        -- rewrite (late_source (PXhr x j) j _ w b eq_refl Hb Hi). cbn [settle owner].
           by apply (dropped_uncaught w (PXhr x j) None).
    + eexists. split.
      * cbn. rewrite (deliver_pending (PXhr x j)) by done. cbn [owner]. reflexivity.
      * unfold xhr_error_fn. rewrite (late_failure (PXhr x j) j _ w b Hw Hp eq_refl Hb Hi).
        by apply (dropped_uncaught w (PXhr x j) (Some _)).
  - intros Hp. split_and!.
    + intros mime base64. eexists. split.
      * cbn. rewrite (deliver_pending (PGetTile j)) by done. cbn [owner]. reflexivity.
      * unfold getTile_done_fn. rewrite (late_source (PGetTile j) j _ w b eq_refl Hb Hi).
        by apply (dropped_uncaught w (PGetTile j) None).
    + eexists. split.
      * cbn. rewrite (deliver_pending (PGetTile j)) by done. cbn [owner]. reflexivity.
      * unfold getTile_done_fn. rewrite (late_failure (PGetTile j) j _ w b Hw Hp eq_refl Hb Hi).
        by apply (dropped_uncaught w (PGetTile j) (Some _)).
    + intros error. eexists. split.
      * cbn. rewrite (deliver_pending (PGetTile j)) by done. cbn [owner]. reflexivity.
      * unfold getTile_fail_fn. rewrite (late_failure (PGetTile j) j _ w b Hw Hp eq_refl Hb Hi).
        by apply (dropped_uncaught w (PGetTile j) (Some _)).
Qed.

Lemma late_transport_events_are_dropped_witness :
  run [CallAddJob (ajax "a" 1); TimerFires 1] (init sample_settings None None) = Some late
  ∧ jobs late !! 0%nat = Some late_job
  ∧ image late_job = None
  ∧ PXhr 0 0 ∈ pending late
  ∧ callbacks (log late) = [(0%nat, (None, Some "Image load exceeded timeout (30000 ms)"))]
  ∧ ∃ w', step (XhrFails 0 0) late = Some w'
      ∧ callbacks (log w') = [(0%nat, (None, Some "Image load exceeded timeout (30000 ms)"))]
      ∧ (errorMsg <$> jobs w' !! 0%nat) = Some (Some "Image load aborted - XHR error").
Proof.
  assert (H1 : run [CallAddJob (ajax "a" 1); TimerFires 1] (init sample_settings None None)
               = Some late) by reflexivity.
  assert (H2 : jobs late !! 0%nat = Some late_job) by reflexivity.
  assert (H3 : image late_job = None) by reflexivity.
  assert (H4 : PXhr 0 0 ∈ pending late) by constructor.
  split; [exact H1|]. split; [exact H2|]. split; [exact H3|]. split; [exact H4|].
  split; [reflexivity|].
  destruct (proj1 (late_transport_events_are_dropped _ _ _ _ _ _ _ H1 H2 H3) 0%nat H4)
    as (_ & w' & Hs & _ & Hc & _ & _ & _ & _ & Hj).
  exists w'. split; [exact Hs|]. rewrite Hc, Hj. split; reflexivity.
Defined.

(** ** What the invariants say of timers, handlers and waiting jobs *)

(** X9.  Every armed timer and every handler of an image belongs to a job
    that has started and has not been reported, and that job holds the
    timer's handle and the image.  A job that has been reported has no timer
    and no handler left, and does not wait. *)
Theorem timers_and_handlers_belong_to_jobs_in_progress d limit time es w j :
  run es (init d limit time) = Some w →
  (∀ h, (h, j) ∈ timers w →
     j ∈ starts (log w) ∧ callbacks_of j (log w) = []
     ∧ ∃ b, jobs w !! j = Some b ∧ jobId b = Some h ∧ is_Some (image b))
  ∧ (∀ i m, images w !! i = Some m →
       onload m = Some j ∨ onerror m = Some j ∨ onabort m = Some j →
       handled_by j m ∧ callbacks_of j (log w) = []
       ∧ ∃ b h, jobs w !! j = Some b ∧ image b = Some i ∧ (h, j) ∈ timers w)
  ∧ (callbacks_of j (log w) ≠ [] →
       (∀ h, (h, j) ∉ timers w)
       ∧ (∀ i m, images w !! i = Some m →
            onload m ≠ Some j ∧ onerror m ≠ Some j ∧ onabort m ≠ Some j)
       ∧ j ∉ jobQueue (loader w)).
Proof.
  intros Hrun.
  assert (Hw : consistent None w) by (by apply (reachable_cons d limit time); exists es).
  assert (Ht : ∀ h, (h, j) ∈ timers w →
            j ∈ starts (log w) ∧ callbacks_of j (log w) = []
            ∧ ∃ b, jobs w !! j = Some b ∧ jobId b = Some h ∧ is_Some (image b)).
  { intros h Hin. destruct (timer_in_progress None w h j Hw Hin) as (b & i & m & Hb & Hp).
    destruct Hp as (Hid & _ & Hi & _ & _ & _ & _ & Hc & _).
    pose proof (c_jobs _ _ Hw j b Hb) as Hok. unfold job_ok in Hok. rewrite Hid in Hok.
    destruct Hok as [Hs _]. split_and!; [done|done|]. exists b. split_and!; [done|done|by eexists]. }
  assert (Hh : ∀ i m, images w !! i = Some m →
            onload m = Some j ∨ onerror m = Some j ∨ onabort m = Some j →
            handled_by j m ∧ callbacks_of j (log w) = []
            ∧ ∃ b h, jobs w !! j = Some b ∧ image b = Some i ∧ (h, j) ∈ timers w).
  { intros i m Hm Hj. destruct (handler_in_progress None w i m j Hw Hm Hj) as (b & h & Hb & Hp).
    destruct Hp as (_ & _ & Hi & _ & Hhb & Hin & _ & Hc & _).
    split_and!; [done|done|]. by exists b, h. }
  split_and!; [done|done|].
  intros Hc. split_and!.
  - intros h Hin. by destruct (Ht h Hin) as (_ & ? & _).
  - intros i m Hm. split_and!; intros Hj.
    + by destruct (Hh i m Hm (or_introl Hj)) as (_ & ? & _).
    + by destruct (Hh i m Hm (or_intror (or_introl Hj))) as (_ & ? & _).
    + by destruct (Hh i m Hm (or_intror (or_intror Hj))) as (_ & ? & _).
  - intros Hq. destruct (c_queue _ _ Hw j Hq) as (b & Hb & Hid).
    pose proof (c_jobs _ _ Hw j b Hb) as Hok. unfold job_ok in Hok. rewrite Hid in Hok.
    by destruct Hok as (_ & _ & _ & _ & _ & ? & _).
Qed.

Lemma timers_and_handlers_belong_to_jobs_in_progress_witness :
  run (three_requests ++ [TimerFires 1]) (init sample_settings (Some 2) None)
  = Some timed_out
  ∧ callbacks_of 0 (log timed_out) ≠ []
  ∧ ∀ h, (h, 0%nat) ∉ timers timed_out.
Proof.
  assert (H1 : run (three_requests ++ [TimerFires 1]) (init sample_settings (Some 2) None)
               = Some timed_out) by reflexivity.
  assert (H2 : callbacks_of 0 (log timed_out) ≠ []) by discriminate.
  split; [exact H1|]. split; [exact H2|].
  exact (proj1 (proj2 (proj2
    (timers_and_handlers_belong_to_jobs_in_progress _ _ _ _ _ 0%nat H1)) H2)).
Defined.

(** X16.  A job that waits holds nothing: it has no timer handle, image,
    request or message, it has not started and has not been reported, no
    timer, pending operation or image handler refers to it, and it is in the
    queue once. *)
Theorem waiting_job_holds_nothing d limit time es w j :
  run es (init d limit time) = Some w →
  j ∈ jobQueue (loader w) →
  NoDup (jobQueue (loader w))
  ∧ (∃ b, jobs w !! j = Some b
       ∧ jobId b = None ∧ image b = None ∧ request b = None ∧ errorMsg b = None)
  ∧ (j ∉ starts (log w)) ∧ callbacks_of j (log w) = []
  ∧ (∀ h, (h, j) ∉ timers w)
  ∧ (∀ p, p ∈ pending w → owner p ≠ j)
  ∧ (∀ i m, images w !! i = Some m →
       onload m ≠ Some j ∧ onerror m ≠ Some j ∧ onabort m ≠ Some j).
Proof.
  intros Hrun Hq.
  assert (Hw : consistent None w) by (by apply (reachable_cons d limit time); exists es).
  destruct (c_queue _ _ Hw j Hq) as (b & Hb & Hid).
  pose proof (c_jobs _ _ Hw j b Hb) as Hok. unfold job_ok in Hok. rewrite Hid in Hok.
  destruct Hok as (Hi & He & Hr & _ & Hp & Hc & Hs & _).
  split_and!; try done.
  - apply (c_queue_nodup _ _ Hw).
  - by exists b.
  - intros h Hin. destruct (c_timers _ _ Hw h j Hin) as (_ & b' & Hb' & Hid'). congruence.
  - by apply pend_of_nil_iff.
  - assert (Hno : ∀ i m, images w !! i = Some m →
              ¬ (onload m = Some j ∨ onerror m = Some j ∨ onabort m = Some j)).
    { intros i m Hm Hj. destruct (c_images _ _ Hw i m j Hm Hj) as (b' & Hb' & Hi'). congruence. }
    intros i m Hm. split_and!; intros Hj; apply (Hno i m Hm); auto.
Qed.

Lemma waiting_job_holds_nothing_witness :
  run three_requests (init sample_settings (Some 2) None) = Some busy
  ∧ 2%nat ∈ jobQueue (loader busy)
  ∧ ∀ h, (h, 2%nat) ∉ timers busy.
Proof.
  assert (H1 : run three_requests (init sample_settings (Some 2) None) = Some busy)
    by reflexivity.
  assert (H2 : 2%nat ∈ jobQueue (loader busy)) by constructor.
  split; [exact H1|]. split; [exact H2|].
  destruct (waiting_job_holds_nothing _ _ _ _ _ _ H1 H2) as (_ & _ & _ & _ & Ht & _).
  exact Ht.
Defined.

(** X11.  Jobs wait only while the loader is full: when the queue is not
    empty, the limit is not 0 and the counter has reached it, and with a
    positive limit the counter is the limit. *)
Theorem jobs_wait_only_when_loader_is_full d limit time es w :
  run es (init d limit time) = Some w →
  jobQueue (loader w) ≠ [] →
  jobLimit (loader w) ≠ 0
  ∧ jobLimit (loader w) ≤ jobsInProgress (loader w)
  ∧ (0 < jobLimit (loader w) → jobsInProgress (loader w) = jobLimit (loader w)).
Proof.
  intros Hrun Hq.
  destruct (reachable_dispatch d limit time w) as [_ Hb [_ _ Hf]]; [by exists es|].
  destruct (Hf Hq) as [? ?]. split_and!; [done|done|].
  intros Hpos. specialize (Hb Hpos). lia.
Qed.

Lemma jobs_wait_only_when_loader_is_full_witness :
  run three_requests (init sample_settings (Some 2) None) = Some busy
  ∧ jobQueue (loader busy) ≠ []
  ∧ jobsInProgress (loader busy) = 2.
Proof.
  assert (H1 : run three_requests (init sample_settings (Some 2) None) = Some busy)
    by reflexivity.
  assert (H2 : jobQueue (loader busy) ≠ []) by discriminate.
  split; [exact H1|]. split; [exact H2|].
  destruct (jobs_wait_only_when_loader_is_full _ _ _ _ _ H1 H2) as (_ & _ & H).
  exact (H eq_refl).
Defined.

Lemma idle_addJob o w :
  idle w →
  addJob o w
  = on_loader (λ l, set_jobQueue (jobQueue l ++ [length (jobs w)]) l)
      (on_jobs (λ js, js ++ [new_ImageJob (loader w) o]) w).
Proof.
  intros (Hl & Hj & _). unfold addJob. cbn [loader on_jobs].
  assert (E : negb (JS.truthy (jobLimit (loader w)))
              || (jobsInProgress (loader w) <? jobLimit (loader w)) = false).
  { apply not_true_iff_false. intros [?|?]%room_test; lia. }
  by rewrite E.
Qed.

Lemma idle_step e w w' : idle w → step e w = Some w' → idle w'.
Proof.
  intros Hw. pose proof Hw as (Hl & Hj & Hq & Ht & Hi & Hp). destruct e; cbn.
  - intros [= <-]. by rewrite idle_addJob.
  - intros [= <-]. rewrite clear_emits. unfold idle. cbn. split_and!; try done.
    apply Forall_app. split; [done|apply clear_trace_quiet].
  - by rewrite Ht.
  - unfold image_event. by rewrite Hi.
  - unfold image_event. by rewrite Hi.
  - unfold image_event. by rewrite Hi.
  - unfold deliver. rewrite Hp, bool_decide_false; [done|apply not_elem_of_nil].
  - unfold deliver. rewrite Hp, bool_decide_false; [done|apply not_elem_of_nil].
  - unfold deliver. rewrite Hp, bool_decide_false; [done|apply not_elem_of_nil].
  - unfold deliver. rewrite Hp, bool_decide_false; [done|apply not_elem_of_nil].
  - unfold deliver. rewrite Hp, bool_decide_false; [done|apply not_elem_of_nil].
  - unfold deliver. rewrite Hp, bool_decide_false; [done|apply not_elem_of_nil].
  - by intros [= <-].
Qed.

Lemma idle_run es w w' : idle w → run es w = Some w' → idle w'.
Proof.
  revert w. induction es as [|e es IH]; intros w Hw; cbn.
  - by intros [= <-].
  - destruct (step e w) as [w1|] eqn:He; [|done]. apply IH. by apply (idle_step e w).
Qed.

(** X12.  A loader with a negative limit starts nothing: no job is started
    or reported, there is no timer, image or request, and every submission
    is put at the end of the queue. *)
Theorem negative_limit_starts_nothing d limit time es w :
  run es (init d limit time) = Some w →
  jobLimit (loader w) < 0 →
  starts (log w) = [] ∧ callbacks (log w) = []
  ∧ jobsInProgress (loader w) = 0
  ∧ timers w = [] ∧ images w = [] ∧ pending w = []
  ∧ ∀ o, log (addJob o w) = log w
         ∧ jobQueue (loader (addJob o w)) = jobQueue (loader w) ++ [length (jobs w)].
Proof.
  intros Hrun Hneg.
  assert (Hw : idle w).
  { apply (idle_run es (init d limit time)); [|done].
    destruct (reachable_config d limit time es w Hrun) as (_ & El & _).
    unfold idle. cbn. rewrite <- El. split_and!; try done. }
  pose proof Hw as (_ & Hj & Hq & Ht & Hi & Hp).
  split_and!; try done.
  - by apply quiet_starts.
  - by apply quiet_callbacks.
  - intros o. by rewrite idle_addJob.
Qed.

Lemma negative_limit_starts_nothing_witness :
  run three_requests (init sample_settings (Some (-1)) None) = Some stuck
  ∧ jobLimit (loader stuck) < 0
  ∧ starts (log stuck) = []
  ∧ jobQueue (loader stuck) = [0; 1; 2]%nat.
Proof.
  assert (H1 : run three_requests (init sample_settings (Some (-1)) None) = Some stuck)
    by reflexivity.
  assert (H2 : jobLimit (loader stuck) < 0) by reflexivity.
  split; [exact H1|]. split; [exact H2|].
  split; [exact (proj1 (negative_limit_starts_nothing _ _ _ _ _ H1 H2))|reflexivity].
Defined.

(** ** Relations that every step respects *)

Lemma same_options_refl b : same_options b b.
Proof. by repeat split. Qed.

Lemma same_options_trans b1 b2 b3 :
  same_options b1 b2 → same_options b2 b3 → same_options b1 b3.
Proof. unfold same_options. intros H1 H2. split_and!; destruct_and!; congruence. Qed.

Lemma emits_snoc es e w : emits (es ++ [e]) w = emit e (emits es w).
Proof. unfold emits, emit. cbn. by rewrite app_assoc. Qed.

Lemma abort_hooks_plain w : Forall plain_effect (abort_hooks w).
Proof.
  unfold abort_hooks. induction (jobQueue (loader w)) as [|j q IH]; cbn; [constructor|].
  apply Forall_app. split; [|done]. repeat case_match; by repeat constructor.
Qed.

(** How a relation between worlds that the elementary updates respect
    extends to the functions of the program and to the steps. *)
Section Pass.
Context (R : World → World → Prop).
Context (R_refl : ∀ w, R w w).
Context (R_trans : ∀ w1 w2 w3, R w1 w2 → R w2 w3 → R w1 w3).
Context (R_job : ∀ j f w, (∀ b, same_options b (f b)) → R w (on_job j f w)).
Context (R_image : ∀ i f w, R w (on_image i f w)).
Context (R_pending : ∀ f w, R w (on_pending f w)).
Context (R_connected : ∀ v w, R w (set_connected v w)).
Context (R_emit : ∀ e w, plain_effect e → R w (emit e w)).
Context (R_clearTimeout : ∀ h w, R w (clearTimeout h w)).
Context (R_timer_fired : ∀ h w, R w (on_timers (filter (λ t, t.1 ≠ h)) w)).
Context (R_leave : ∀ w, R w (leave w)).
Context (R_enter : ∀ w, R w (enter w)).
Context (R_promote : ∀ n rest w,
  jobQueue (loader w) = n :: rest → R w (start n (on_loader (set_jobQueue rest) w))).
Context (R_clear_queue : ∀ w, R w (on_loader (set_jobQueue []) w)).

Lemma pass_retired j ok b i w : R w (retired j ok b i w).
Proof using R_refl R_trans R_job R_image R_clearTimeout.
  unfold retired.
  assert (H1 : R w (on_image i (set_handlers None) w)) by apply R_image.
  assert (H2 : R w (if ok then on_image i (set_handlers None) w
                    else on_job j (set_image None) (on_image i (set_handlers None) w))).
  { destruct ok; [done|]. eapply R_trans; [done|]. apply R_job. intros ?. by repeat split. }
  destruct (jobId b) as [h|]; [|done]. case_bool_decide; [|done].
  eapply R_trans; [done|apply R_clearTimeout].
Qed.

Lemma pass_report j cb w : R w (report j cb w).
Proof using R_refl R_emit. unfold report. case_match; [by apply R_emit|apply R_refl]. Qed.

Lemma pass_completeJob j cb w : R w (completeJob j cb w).
Proof using R_refl R_trans R_emit R_leave R_enter R_promote.
  destruct (completeJob_cases j cb w) as [(n & rest & Hq & Hroom & ->)|[Hno ->]].
  - eapply R_trans; [|apply pass_report].
    eapply R_trans; [|apply R_enter].
    eapply R_trans; [apply R_leave|]. by apply R_promote.
  - eapply R_trans; [apply R_leave|apply pass_report].
Qed.

Lemma pass_finish j ok w : R w (world_of (finish j ok w)).
Proof using R_refl R_trans R_job R_image R_emit R_clearTimeout R_leave R_enter R_promote.
  unfold finish. destruct (jobs w !! j) as [b|]; [|apply R_refl].
  destruct (image b) as [i|]; [|apply R_refl]. cbn.
  eapply R_trans; [|apply pass_completeJob]. apply (pass_retired j ok b i w).
Qed.

Lemma pass_settle j r w : R w (world_of r) → R w (settle j r).
Proof using R_trans R_emit.
  destruct r; cbn; [done|]. intros H. eapply R_trans; [done|by apply R_emit].
Qed.

Lemma pass_fail j msg w :
  R w (world_of (finish j false (on_job j (set_errorMsg msg) w))).
Proof using R_refl R_trans R_job R_image R_emit R_clearTimeout R_leave R_enter R_promote.
  eapply R_trans; [|apply pass_finish]. apply R_job. intros ?. by repeat split.
Qed.

Lemma pass_assign j v w : R w (world_of (assign_image_src j v w)).
Proof using R_refl R_image.
  unfold assign_image_src. repeat case_match; cbn; try apply R_refl. apply R_image.
Qed.

Lemma pass_emits es w : Forall plain_effect es → R w (emits es w).
Proof using R_refl R_trans R_emit.
  induction es as [|e es IH] using rev_ind; intros H.
  - rewrite emits_nil. apply R_refl.
  - apply Forall_app in H as [H1 H2]. rewrite Forall_singleton in H2.
    rewrite emits_snoc. eapply R_trans; [by apply IH|by apply R_emit].
Qed.

Lemma pass_clear c w : consistent c w → R w (clear w).
Proof using R_refl R_trans R_emit R_clear_queue.
  intros Hw. rewrite clear_emits, (clear_trace_hooks c w Hw).
  eapply R_trans; [apply pass_emits, abort_hooks_plain|apply R_clear_queue].
Qed.

Lemma pass_deliver p j fn w w' :
  (∀ w, R w (world_of (fn w))) → deliver p j fn w = Some w' → R w w'.
Proof using R_trans R_pending R_emit.
  intros Hfn. unfold deliver. case_bool_decide; [|done]. intros [= <-].
  apply pass_settle. eapply R_trans; [apply R_pending|apply Hfn].
Qed.

Lemma pass_image_event i slot fn w w' :
  (∀ j w, R w (world_of (fn j w))) → image_event i slot fn w = Some w' → R w w'.
Proof using R_trans R_image R_emit.
  intros Hfn. unfold image_event. repeat case_match; try done; intros [= <-].
  - apply pass_settle. eapply R_trans; [apply R_image|apply Hfn].
  - apply R_image.
Qed.

(** Every step but a submission. *)
Lemma pass_later e w w' :
  (∀ o, e ≠ CallAddJob o) → consistent None w → step e w = Some w' → R w w'.
Proof using All.
  intros He Hw. destruct e; cbn.
  - by destruct (He options).
  - intros [= <-]. by apply (pass_clear None).
  - case_match; [|done]. intros [= <-]. apply pass_settle.
    eapply R_trans; [apply R_timer_fired|]. unfold timer_fn.
    case_match; [apply pass_fail|apply R_refl].
  - apply pass_image_event. intros. apply pass_finish.
  - apply pass_image_event. intros. apply pass_fail.
  - apply pass_image_event. intros. apply pass_fail.
  - apply pass_deliver. intros w0. unfold xhr_success_fn.
    destruct blob as [size|]; [|apply R_refl]. destruct (size =? 0)%N.
    + pose proof (pass_fail self (Some "Empty image response."%string) w0) as H.
      destruct (finish _ _ _); [|done]. eapply R_trans; [done|apply pass_assign].
    + apply pass_assign.
  - apply pass_deliver. intros. apply pass_fail.
  - apply pass_deliver. intros w0. unfold getTile_done_fn.
    destruct data as [[mime base64]|]; [apply pass_assign|apply pass_fail].
  - apply pass_deliver. intros. apply pass_fail.
  - apply pass_deliver. intros w0. cbn.
    eapply R_trans; [apply R_connected|].
    unfold signalRDownloadImageDataFromServer. apply R_pending.
  - apply pass_deliver. intros w0. cbn. by apply R_emit.
  - intros [= <-]. apply R_connected.
Qed.

Context (R_addJob : ∀ o w, consistent None w → R w (addJob o w)).

Lemma pass_step e w w' : consistent None w → step e w = Some w' → R w w'.
Proof using All.
  intros Hw Hs. destruct e as [o| | | | | | | | | | | |];
    [|refine (pass_later _ w w' _ Hw Hs); intros o; discriminate..].
  cbn in Hs. injection Hs as <-. by apply R_addJob.
Qed.

Lemma pass_run es w w' : consistent None w → run es w = Some w' → R w w'.
Proof using All.
  revert w. induction es as [|e es IH]; intros w Hw; cbn.
  - intros [= <-]. apply R_refl.
  - destruct (step e w) as [w1|] eqn:He; [|done]. intros Hrun.
    eapply R_trans; [by apply (pass_step e)|]. apply IH; [|done]. by apply (step_cons e w).
Qed.

End Pass.

(** ** Steps other than submissions *)

Lemma calm_refl w : calm w w.
Proof. split_and!; try done. intros j b Hb. exists b. split; [done|apply same_options_refl]. Qed.

Lemma calm_trans w1 w2 w3 : calm w1 w2 → calm w2 w3 → calm w1 w3.
Proof.
  intros (L1 & F1 & Q1) (L2 & F2 & Q2). split_and!.
  - congruence.
  - intros j b (b2 & Hb2 & S1)%F1. destruct (F2 j b2 Hb2) as (b3 & Hb3 & S2).
    exists b3. split; [done|]. by apply (same_options_trans b b2 b3).
  - intros H1. destruct (Q1 H1) as [H2 E1]. destruct (Q2 H2) as [H3 E2].
    split; [done|congruence].
Qed.

Lemma calm_same w w' :
  jobs w' = jobs w → jobQueue (loader w') = jobQueue (loader w) →
  starts (log w') = starts (log w) → calm w w'.
Proof.
  intros Ej Eq Es. split_and!; [by rewrite Ej| |by rewrite Eq, Es].
  intros j b Hb. exists b. rewrite Ej. split; [done|apply same_options_refl].
Qed.

Lemma calm_emit e w : (∀ j s, e ≠ TileLoadStart j s) → calm w (emit e w).
Proof.
  intros He. apply calm_same; try done. cbn. rewrite starts_app, starts_cons, starts_nil.
  destruct e; try apply app_nil_r. by destruct (He j s).
Qed.

Lemma calm_on_job j f w : (∀ b, same_options b (f b)) → calm w (on_job j f w).
Proof.
  intros Hf. split_and!; cbn; [by rewrite length_alter| |done].
  intros k b Hb. destruct (decide (k = j)) as [->|Hne].
  - exists (f b). by rewrite list_lookup_alter_eq, Hb.
  - exists b. rewrite list_lookup_alter_ne by done. split; [done|apply same_options_refl].
Qed.

Lemma start_same n b w :
  jobs w !! n = Some b → ∃ b', jobs (start n w) !! n = Some b' ∧ same_options b b'.
Proof.
  intros Hb. start_unfold Hb; rewrite ?list_lookup_alter_eq, Hb; cbn;
    eexists; (split; [reflexivity|]); by repeat split.
Qed.

Lemma calm_promote n rest w :
  jobQueue (loader w) = n :: rest → calm w (start n (on_loader (set_jobQueue rest) w)).
Proof.
  intros Hq. set (w2 := on_loader (set_jobQueue rest) w).
  destruct (jobs w2 !! n) as [b|] eqn:Hb.
  - split_and!; [by rewrite (start_length n b w2 Hb)| |by rewrite Hq].
    intros k bk Hk. destruct (decide (k = n)) as [->|Hne].
    + assert (bk = b) as -> by (cbn in Hb; congruence). by apply start_same.
    + exists bk. rewrite (start_other n b w2 Hb k Hne). split; [done|apply same_options_refl].
  - rewrite (start_absent n w2 Hb). split_and!; [done| |by rewrite Hq].
    intros k bk Hk. exists bk. split; [done|apply same_options_refl].
Qed.

Lemma calm_later e w w' :
  is_addJob e = false → consistent None w → step e w = Some w' → calm w w'.
Proof.
  intros He. apply (pass_later calm calm_refl calm_trans).
  - apply calm_on_job.
  - intros. by apply calm_same.
  - intros. by apply calm_same.
  - intros. by apply calm_same.
  - intros e0 w0 H0. apply calm_emit. intros j s ->. done.
  - intros h w0. unfold clearTimeout.
    eapply calm_trans; [|by apply (calm_emit (ClearTimeout h))]. by apply calm_same.
  - intros. by apply calm_same.
  - intros. by apply calm_same.
  - intros. by apply calm_same.
  - apply calm_promote.
  - intros. split_and!; try done. intros j b Hb. exists b. split; [done|apply same_options_refl].
  - intros o ->. done.
Qed.

Lemma calm_run es w w' :
  Forall (λ e, is_addJob e = false) es → consistent None w → run es w = Some w' → calm w w'.
Proof.
  revert w. induction es as [|e es IH]; intros w Hes Hw; cbn.
  - intros [= <-]. apply calm_refl.
  - apply Forall_cons in Hes as [He Hes].
    destruct (step e w) as [w1|] eqn:Hs; [|done]. intros Hrun.
    eapply calm_trans; [by apply (calm_later e)|]. apply IH; [done| |done].
    by apply (step_cons e w).
Qed.

(** The new job of a submission. *)
Lemma addJob_job o w :
  length (jobs (addJob o w)) = S (length (jobs w))
  ∧ (∀ j b, jobs w !! j = Some b → jobs (addJob o w) !! j = Some b)
  ∧ ∃ b', jobs (addJob o w) !! length (jobs w) = Some b'
      ∧ same_options (new_ImageJob (loader w) o) b'.
Proof.
  unfold addJob. set (b0 := new_ImageJob (loader w) o). set (w1 := on_jobs _ w).
  assert (Hnew : jobs w1 !! length (jobs w) = Some b0) by (cbn; by apply list_lookup_middle).
  assert (Hlen : length (jobs w1) = S (length (jobs w))) by (cbn; rewrite length_app; cbn; lia).
  assert (Hold : ∀ j b, jobs w !! j = Some b → jobs w1 !! j = Some b).
  { intros j b Hb. cbn. by apply lookup_app_l_Some. }
  destruct (negb _ || _); cbn [jobs on_loader].
  - split_and!.
    + by rewrite (start_length _ _ _ Hnew).
    + intros j b Hb. rewrite (start_other _ _ _ Hnew); [by apply Hold|].
      apply lookup_lt_Some in Hb. lia.
    + by apply start_same.
  - split_and!; [done|done|]. exists b0. split; [done|apply same_options_refl].
Qed.



(** ** Clearing, the unlimited loader, and whose callback is called *)

Lemma run_invariant (P : World → Prop) :
  (∀ e w w', consistent None w → P w → step e w = Some w' → P w') →
  ∀ es w w', consistent None w → P w → run es w = Some w' → P w'.
Proof.
  intros Hstep es. induction es as [|e es IH]; intros w w' Hw HP; cbn.
  - by intros [= <-].
  - destruct (step e w) as [w1|] eqn:Hs; [|done]. apply IH.
    + by apply (step_cons e w).
    + by apply (Hstep e w).
Qed.

Lemma clear_log_starts w : starts (log (clear w)) = starts (log w).
Proof.
  rewrite clear_emits. cbn. rewrite starts_app, (quiet_starts (clear_trace _ _)), app_nil_r;
    [done|apply clear_trace_quiet].
Qed.

(** X13.  After [clear], nothing starts until the next submission: whatever
    happens other than calls of [addJob], the started jobs stay the same, the
    queue stays empty and no job is made. *)
Theorem clear_stops_all_starts d limit time es w es' w' :
  run es (init d limit time) = Some w →
  Forall (λ e, is_addJob e = false) es' →
  run es' (clear w) = Some w' →
  starts (log w') = starts (log w)
  ∧ jobQueue (loader w') = []
  ∧ length (jobs w') = length (jobs w).
Proof.
  intros Hrun Hes Hrun'.
  assert (Hw : consistent None w) by (by apply (reachable_cons d limit time); exists es).
  destruct (calm_run es' (clear w) w' Hes (clear_cons w Hw) Hrun') as (Hl & _ & Hq).
  destruct Hq as [Hq Hs]; [by rewrite clear_emits|].
  split_and!; [by rewrite Hs, clear_log_starts|done|].
  rewrite Hl, clear_emits. done.
Qed.

Lemma clear_stops_all_starts_witness :
  run three_requests (init sample_settings (Some 2) None) = Some busy
  ∧ Forall (λ e, is_addJob e = false) [ImageLoads 0]
  ∧ run [ImageLoads 0] (clear busy) = Some cleared_then_loaded
  ∧ starts (log cleared_then_loaded) = starts (log busy).
Proof.
  assert (H1 : run three_requests (init sample_settings (Some 2) None) = Some busy)
    by reflexivity.
  assert (H2 : Forall (λ e, is_addJob e = false) [ImageLoads 0]) by (by repeat constructor).
  assert (H3 : run [ImageLoads 0] (clear busy) = Some cleared_then_loaded) by reflexivity.
  split; [exact H1|]. split; [exact H2|]. split; [exact H3|].
  exact (proj1 (clear_stops_all_starts _ _ _ _ _ _ _ H1 H2 H3)).
Defined.

Lemma addJob_unlimited o w :
  jobLimit (loader w) = 0 →
  log (addJob o w)
  = log w ++ [TileLoadStart (length (jobs w)) (opt_src o);
              SetTimeout (nextTimer w) (length (jobs w)) (loader_timeout (loader w))]
  ∧ loader (addJob o w) = loader (enter w).
Proof.
  intros Hl. unfold addJob. set (b0 := new_ImageJob (loader w) o). set (w1 := on_jobs _ w).
  assert (Hnew : jobs w1 !! length (jobs w) = Some b0) by (cbn; by apply list_lookup_middle).
  change (loader w1) with (loader w).
  assert (E : negb (JS.truthy (jobLimit (loader w)))
              || (jobsInProgress (loader w) <? jobLimit (loader w)) = true).
  { apply room_test. by left. }
  rewrite E. cbn [log loader on_loader enter].
  by rewrite (start_log _ _ _ Hnew), (start_loader _ _ _ Hnew).
Qed.

(** X15.  A loader with limit 0 starts every job when it is submitted: the
    started jobs are all the jobs, in the order of their submission, and the
    queue is empty. *)
Theorem unlimited_loader_starts_every_job d limit time es w :
  run es (init d limit time) = Some w →
  jobLimit (loader w) = 0 →
  starts (log w) = seq 0 (length (jobs w))
  ∧ jobQueue (loader w) = []
  ∧ ∀ o, starts (log (addJob o w)) = starts (log w) ++ [length (jobs w)].
Proof.
  intros Hrun Hl.
  destruct (reachable_config d limit time es w Hrun) as (_ & El & _).
  set (P := λ w : World, jobLimit (loader w) = 0 ∧ starts (log w) = seq 0 (length (jobs w))
                         ∧ jobQueue (loader w) = []).
  assert (HP : P w).
  { apply (run_invariant P) with (es := es) (w := init d limit time);
      [|apply init_cons|split_and!; [cbn; congruence|done|done]|done].
    intros e w1 w2 Hw1 (L1 & S1 & Q1) Hs. unfold P. destruct (is_addJob e) eqn:He.
    - destruct e; try done. cbn in Hs. injection Hs as <-.
      destruct (addJob_unlimited options w1 L1) as [Elog Eld].
      destruct (addJob_job options w1) as (Elen & _).
      rewrite Elog, Eld, Elen, starts_app, !starts_cons, starts_nil, S1, seq_S.
      split_and!; done.
    - destruct (calm_later e w1 w2 He Hw1 Hs) as (Elen & _ & HQ).
      destruct (HQ Q1) as [Q2 S2]. destruct (ev_step e w1 w2 Hs) as [_ E2 _ _ _ _].
      split_and!; [congruence|congruence|done]. }
  destruct HP as (_ & HS & HQ). split_and!; [done|done|].
  intros o. destruct (addJob_unlimited o w Hl) as [-> _].
  by rewrite starts_app, !starts_cons, starts_nil.
Qed.

Lemma unlimited_loader_starts_every_job_witness :
  run three_requests (init sample_settings (Some 0) None) = Some unlimited
  ∧ jobLimit (loader unlimited) = 0
  ∧ starts (log unlimited) = [0; 1; 2]%nat.
Proof.
  assert (H1 : run three_requests (init sample_settings (Some 0) None) = Some unlimited)
    by reflexivity.
  assert (H2 : jobLimit (loader unlimited) = 0) by reflexivity.
  split; [exact H1|]. split; [exact H2|].
  exact (proj1 (unlimited_loader_starts_every_job _ _ _ _ _ H1 H2)).
Defined.




(** ** Timers and requests *)

Lemma addJob_log_cases o w :
  log (addJob o w) = log w
  ∨ ∃ s ms, log (addJob o w)
            = log w ++ [TileLoadStart (length (jobs w)) s;
                        SetTimeout (nextTimer w) (length (jobs w)) ms].
Proof.
  unfold addJob. set (b0 := new_ImageJob (loader w) o). set (w1 := on_jobs _ w).
  assert (Hnew : jobs w1 !! length (jobs w) = Some b0) by (cbn; by apply list_lookup_middle).
  destruct (negb _ || _); [right|by left].
  eexists _, _. cbn [log on_loader]. by rewrite (start_log _ _ _ Hnew).
Qed.

Lemma addJob_timers o w :
  (timers (addJob o w) = timers w ∧ nextTimer (addJob o w) = nextTimer w)
  ∨ (timers (addJob o w) = timers w ++ [(nextTimer w, length (jobs w))]
     ∧ nextTimer (addJob o w) = S (nextTimer w)).
Proof.
  unfold addJob. set (b0 := new_ImageJob (loader w) o). set (w1 := on_jobs _ w).
  assert (Hnew : jobs w1 !! length (jobs w) = Some b0) by (cbn; by apply list_lookup_middle).
  destruct (negb _ || _); [right|by left].
  cbn [timers nextTimer on_loader].
  by rewrite (start_timers _ _ _ Hnew), (start_nextTimer _ _ _ Hnew).
Qed.

Lemma timers_ok_same w w' :
  timers w' = timers w → nextTimer w' = nextTimer w → timers_ok w → timers_ok w'.
Proof. intros Et En. unfold timers_ok. by rewrite Et, En. Qed.

Lemma NoDup_fst_filter_keep {A B} (P : A * B → Prop) `{∀ x, Decision (P x)} (l : list (A * B)) :
  NoDup l.*1 → NoDup (filter P l).*1.
Proof.
  induction l as [|x l IH]; [done|]. rewrite fmap_cons. intros [Hx Hl]%NoDup_cons.
  rewrite filter_cons. case_decide; [|by apply IH].
  rewrite fmap_cons. apply NoDup_cons. split; [|by apply IH].
  intros (y & Hy1 & [_ Hy2]%list_elem_of_filter)%list_elem_of_fmap.
  apply Hx. apply list_elem_of_fmap. by exists y.
Qed.

Lemma timers_ok_filter h w w' :
  timers w' = filter (λ t, t.1 ≠ h) (timers w) → nextTimer w' = nextTimer w →
  timers_ok w → timers_ok w'.
Proof.
  intros Et En [Hnd Hlt]. unfold timers_ok. rewrite Et, En. split.
  - by apply NoDup_fst_filter_keep.
  - intros t [_ Ht]%list_elem_of_filter. by apply Hlt.
Qed.

Lemma timers_ok_armed n w w' :
  timers w' = timers w ++ [(nextTimer w, n)] → nextTimer w' = S (nextTimer w) →
  timers_ok w → timers_ok w'.
Proof.
  intros Et En [Hnd Hlt]. unfold timers_ok. rewrite Et, En. split.
  - rewrite fmap_app. apply NoDup_app. split_and!; [done| |by apply NoDup_singleton].
    intros h (t & -> & Ht)%list_elem_of_fmap. cbn. intros Hh%list_elem_of_singleton.
    specialize (Hlt t Ht). lia.
  - intros t [Ht|Ht%list_elem_of_singleton]%elem_of_app.
    + specialize (Hlt t Ht). lia.
    + subst. cbn. lia.
Qed.

Lemma timers_ok_step e w w' :
  consistent None w → step e w = Some w' → timers_ok w → timers_ok w'.
Proof.
  apply (pass_step (λ w w', timers_ok w → timers_ok w')).
  - done.
  - auto.
  - intros j f w0 _. by apply timers_ok_same.
  - intros i f w0. by apply timers_ok_same.
  - intros f w0. by apply timers_ok_same.
  - intros v w0. by apply timers_ok_same.
  - intros e0 w0 _. by apply timers_ok_same.
  - intros h w0. by apply (timers_ok_filter h).
  - intros h w0. by apply (timers_ok_filter h).
  - intros w0. by apply timers_ok_same.
  - intros w0. by apply timers_ok_same.
  - intros n rest w0 Hq. set (w2 := on_loader (set_jobQueue rest) w0).
    destruct (jobs w2 !! n) as [b|] eqn:Hb.
    + apply (timers_ok_armed n w0).
      * by rewrite (start_timers n b w2 Hb).
      * by rewrite (start_nextTimer n b w2 Hb).
    + by rewrite (start_absent n w2 Hb).
  - intros w0. by apply timers_ok_same.
  - intros o w0 _. destruct (addJob_timers o w0) as [[Et En]|[Et En]].
    + by apply timers_ok_same.
    + by apply (timers_ok_armed (length (jobs w0))).
Qed.

Lemma reachable_timers_ok d limit time w : reachable d limit time w → timers_ok w.
Proof.
  intros [es Hrun].
  apply (run_invariant timers_ok) with (es := es) (w := init d limit time);
    [|apply init_cons| |done].
  - intros e w1 w2 Hw1 H1 Hs. by apply (timers_ok_step e w1).
  - split; [constructor|]. by intros t ?%elem_of_nil.
Qed.

Lemma NoDup_snd_of_fst {A B} (l : list (A * B)) :
  NoDup l.*1 → (∀ a1 a2 b, (a1, b) ∈ l → (a2, b) ∈ l → a1 = a2) → NoDup l.*2.
Proof.
  induction l as [|[a b] l IH]; [constructor|]. cbn. intros [Ha Hl]%NoDup_cons Hf.
  apply NoDup_cons. split.
  - intros ([a' b'] & Hb & Hin)%list_elem_of_fmap. cbn in Hb. subst b'.
    apply Ha. assert (a = a') as -> by (apply (Hf a a' b); [by left|by right]).
    apply list_elem_of_fmap. by exists (a', b).
  - apply IH; [done|]. intros a1 a2 b0 H1 H2. apply (Hf a1 a2 b0); by right.
Qed.

Lemma StronglySorted_lt_NoDup (l : list nat) : StronglySorted lt l → NoDup l.
Proof.
  induction 1 as [|x l Hl IH Hx]; [constructor|]. apply NoDup_cons. split; [|done].
  intros Hin. rewrite Forall_forall in Hx. specialize (Hx x Hin). lia.
Qed.

Lemma callbacks_NoDup w : consistent None w → NoDup (callbacks (log w)).*1.
Proof.
  intros Hw. apply NoDup_fst_filter. intros j.
  rewrite <- (length_fmap snd). fold (callbacks_of j (log w)).
  destruct (decide (callbacks_of j (log w) = [])) as [->|Hne]; [cbn; lia|].
  assert (Hj : (j < length (jobs w))%nat) by (apply (c_log _ _ Hw); by right).
  destruct (job_status w j Hw Hj) as (b & _ & [(_ & ? & _)|(_ & [(h & _ & ?)|[(i & ->)|(msg & ->)]])]);
    done.
Qed.

Lemma reported_iff w j :
  j ∈ (callbacks (log w)).*1 ↔ callbacks_of j (log w) ≠ [].
Proof.
  rewrite callbacks_of_nil_iff. split.
  - intros ([j' x] & -> & Hin)%list_elem_of_fmap Hno. by apply (Hno x).
  - intros Hne. destruct (decide (j ∈ (callbacks (log w)).*1)) as [|Hn]; [done|].
    destruct Hne. intros x Hx. apply Hn. apply list_elem_of_fmap. by exists (j, x).
Qed.

(** X10.  The armed timers are the jobs in progress: their number is the
    loader's counter, their handles are distinct, positive and below the next
    handle, no job has two, and a job has one exactly when it has started and
    has not been reported. *)
Theorem armed_timers_are_the_jobs_in_progress d limit time es w :
  run es (init d limit time) = Some w →
  Z.of_nat (length (timers w)) = jobsInProgress (loader w)
  ∧ NoDup (timers w).*1 ∧ NoDup (timers w).*2
  ∧ (∀ t, t ∈ timers w → (0 < t.1 < nextTimer w)%nat)
  ∧ ∀ j, j ∈ (timers w).*2 ↔ j ∈ starts (log w) ∧ callbacks_of j (log w) = [].
Proof.
  intros Hrun.
  assert (Hw : consistent None w) by (by apply (reachable_cons d limit time); exists es).
  destruct (reachable_dispatch d limit time w) as [Ha _ [Hs _ _]]; [by exists es|].
  destruct (reachable_timers_ok d limit time w) as [Hnd Hlt]; [by exists es|].
  assert (Hnd2 : NoDup (timers w).*2).
  { apply NoDup_snd_of_fst; [done|]. intros h1 h2 j H1 H2.
    destruct (c_timers _ _ Hw h1 j H1) as (_ & b1 & Hb1 & E1).
    destruct (c_timers _ _ Hw h2 j H2) as (_ & b2 & Hb2 & E2). congruence. }
  assert (Hmem : ∀ j, j ∈ (timers w).*2 ↔ j ∈ starts (log w) ∧ callbacks_of j (log w) = []).
  { intros j. split.
    - intros ([h j'] & -> & Hin)%list_elem_of_fmap. cbn.
      destruct (timer_in_progress None w h j' Hw Hin) as (b & i & m & Hb & Hp).
      destruct Hp as (Hid & _ & _ & _ & _ & _ & _ & Hc & _). split; [|done].
      pose proof (c_jobs _ _ Hw j' b Hb) as Hok. unfold job_ok in Hok. rewrite Hid in Hok.
      by destruct Hok.
    - intros [Hst Hc].
      assert (Hj : (j < length (jobs w))%nat) by (apply (c_log _ _ Hw); by left).
      destruct (job_status w j Hw Hj)
        as (b & _ & [(_ & _ & ?)|(_ & [(h & Hin & _)|[(i & E)|(msg & E)]])]);
        try done; try congruence.
      apply list_elem_of_fmap. by exists (h, j). }
  assert (Hperm : starts (log w) ≡ₚ (timers w).*2 ++ (callbacks (log w)).*1).
  { apply NoDup_Permutation.
    - apply StronglySorted_lt_NoDup. by apply StronglySorted_app_l in Hs.
    - apply NoDup_app. split_and!; [done| |by apply callbacks_NoDup].
      intros j [_ Hc]%Hmem Hr%reported_iff. done.
    - intros j. rewrite elem_of_app, Hmem, reported_iff. split.
      + intros Hst. destruct (decide (callbacks_of j (log w) = [])); [left|right]; done.
      + intros [[? _]|Hne]; [done|].
        assert (Hj : (j < length (jobs w))%nat) by (apply (c_log _ _ Hw); by right).
        by destruct (job_status w j Hw Hj) as (b & _ & [(_ & ? & _)|(? & _)]). }
  split_and!; try done.
  - unfold accounted in Ha. rewrite Ha.
    apply Permutation_length in Hperm. rewrite length_app, !length_fmap in Hperm. lia.
  - intros t Ht. split; [|by apply Hlt]. destruct t as [h j].
    destruct (timer_in_progress None w h j Hw Ht) as (b & i & m & _ & Hp).
    destruct Hp as (_ & Hh & _). cbn. lia.
Qed.

Lemma armed_timers_are_the_jobs_in_progress_witness :
  run three_requests (init sample_settings (Some 2) None) = Some busy
  ∧ Z.of_nat (length (timers busy)) = jobsInProgress (loader busy).
Proof.
  assert (H1 : run three_requests (init sample_settings (Some 2) None) = Some busy)
    by reflexivity.
  split; [exact H1|].
  exact (proj1 (armed_timers_are_the_jobs_in_progress _ _ _ _ _ H1)).
Defined.

Lemma no_request_aborted_more w w' new :
  log w' = log w ++ new → (∀ x, XhrAbort x ∉ new) →
  no_request_aborted w → no_request_aborted w'.
Proof.
  intros El Hnew Hw x. rewrite El. intros [?|?]%elem_of_app; [by apply (Hw x)|by apply (Hnew x)].
Qed.

Lemma no_request_aborted_step e w w' :
  consistent None w → step e w = Some w' → no_request_aborted w → no_request_aborted w'.
Proof.
  apply (pass_step (λ w w', no_request_aborted w → no_request_aborted w')).
  - done.
  - auto.
  - intros j f w0 _. done.
  - intros i f w0. done.
  - intros f w0. done.
  - intros v w0. done.
  - intros e0 w0 He. apply (no_request_aborted_more w0 _ [e0]); [done|].
    intros x Hx%list_elem_of_singleton. subst e0. done.
  - intros h w0. apply (no_request_aborted_more w0 _ [ClearTimeout h]); [done|].
    by intros x ?%list_elem_of_singleton.
  - intros h w0. done.
  - intros w0. done.
  - intros w0. done.
  - intros n rest w0 Hq. set (w2 := on_loader (set_jobQueue rest) w0).
    destruct (jobs w2 !! n) as [b|] eqn:Hb; [|by rewrite (start_absent n w2 Hb)].
    apply (no_request_aborted_more w0 _ _ (start_log n b w2 Hb)).
    intros x Hin. rewrite !elem_of_cons in Hin. by destruct Hin as [?|[?|?%elem_of_nil]].
  - intros w0. done.
  - intros o w0 _. destruct (addJob_log_cases o w0) as [El|(s & ms & El)].
    + apply (no_request_aborted_more w0 _ []); [by rewrite app_nil_r|].
      by intros x ?%elem_of_nil.
    + apply (no_request_aborted_more w0 _ _ El).
      intros x Hin. rewrite !elem_of_cons in Hin. by destruct Hin as [?|[?|?%elem_of_nil]].
Qed.

(** X8.  The loader never calls [request.abort()]: the function that [start]
    installs as [abort] of an AJAX job is never called by [clear], since the
    jobs that wait have not started and have no request. *)
Theorem loader_never_aborts_a_request d limit time es w :
  run es (init d limit time) = Some w →
  (∀ x, XhrAbort x ∉ log w)
  ∧ ∀ j b, jobs w !! j = Some b → j ∈ jobQueue (loader w) →
      request b = None ∧ plain_abort (abort b).
Proof.
  intros Hrun.
  assert (Hw : consistent None w) by (by apply (reachable_cons d limit time); exists es).
  split.
  - apply (run_invariant no_request_aborted) with (es := es) (w := init d limit time);
      [|apply init_cons| |done].
    + intros e w1 w2 Hw1 H1 Hs. by apply (no_request_aborted_step e w1).
    + by intros x ?%elem_of_nil.
  - intros j b Hb Hq. destruct (c_queue _ _ Hw j Hq) as (b' & Hb' & Hid).
    assert (b' = b) as -> by congruence.
    pose proof (c_jobs _ _ Hw j b Hb) as Hok. unfold job_ok in Hok. rewrite Hid in Hok.
    by destruct Hok as (_ & _ & ? & ? & _).
Qed.

Lemma loader_never_aborts_a_request_witness :
  run [CallAddJob (ajax "a" 1); CallClear] (init sample_settings None None)
  = Some (clear fetching)
  ∧ ∀ x, XhrAbort x ∉ log (clear fetching).
Proof.
  assert (H1 : run [CallAddJob (ajax "a" 1); CallClear] (init sample_settings None None)
               = Some (clear fetching)) by reflexivity.
  split; [exact H1|].
  exact (proj1 (loader_never_aborts_a_request _ _ _ _ _ H1)).
Defined.

(** ** A plain job from submission to callback *)

(** A submission that is started at once and uses none of the special
    transports. *)
Lemma addJob_direct o w :
  has_room (loader w) →
  opt_loadWithSignalR o = false → opt_loadWithAjax o = false →
  opt_loadWithMultiServers o = false →
  let j := length (jobs w) in
  let i := length (images w) in
  log (addJob o w)
  = log w ++ [TileLoadStart j (opt_src o); SetTimeout (nextTimer w) j (loader_timeout (loader w))]
  ∧ timers (addJob o w) = timers w ++ [(nextTimer w, j)]
  ∧ loader (addJob o w) = loader (enter w)
  ∧ images (addJob o w)
    = images w ++ [mkImage (Some j) (Some j) (Some j) (opt_crossOriginPolicy o)
                     (Some (Url (opt_src o))) true]
  ∧ ∃ b, jobs (addJob o w) !! j = Some b
      ∧ callback b = opt_callback o ∧ request b = None ∧ image b = Some i.
Proof.
  intros Hroom H1 H2 H3 j i. subst j i. unfold addJob.
  set (b0 := new_ImageJob (loader w) o). set (w1 := on_jobs _ w).
  assert (Hnew : jobs w1 !! length (jobs w) = Some b0) by (cbn; by apply list_lookup_middle).
  change (loader w1) with (loader w).
  rewrite (proj2 (room_test (loader w)) Hroom).
  cbn [log timers loader images jobs on_loader enter].
  rewrite (start_log _ _ _ Hnew), (start_timers _ _ _ Hnew), (start_loader _ _ _ Hnew).
  split_and!; try done.
  - unfold start. rewrite Hnew. cbn [loadWithSignalR loadWithAjax loadWithMultiServers b0
      new_ImageJob]. rewrite H1, H2, H3. cbn. rewrite !alter_snoc. cbn.
    unfold apply_crossOrigin. cbn. by destruct (opt_crossOriginPolicy o).
  - unfold start. rewrite Hnew. cbn [loadWithSignalR loadWithAjax loadWithMultiServers b0
      new_ImageJob]. rewrite H1, H2, H3. cbn. rewrite !alter_snoc.
    eexists. split; [by apply list_lookup_middle|]. done.
Qed.

(** X17.  A submission that finds room and uses none of the special
    transports makes an image whose source is the URL of the submission and
    whose [crossOrigin] is the policy of the submission; when that image has
    loaded, the callback has been called with the image, no message and no
    request, and the counter is what it was before the submission. *)
Theorem direct_job_round_trip d limit time es w o :
  run es (init d limit time) = Some w →
  has_room (loader w) →
  opt_loadWithSignalR o = false → opt_loadWithAjax o = false →
  opt_loadWithMultiServers o = false →
  let j := length (jobs w) in
  let i := length (images w) in
  ∃ w1 w2 m,
    step (CallAddJob o) w = Some w1
    ∧ images w1 !! i = Some m
    ∧ img_src m = Some (Url (opt_src o)) ∧ crossOrigin m = opt_crossOriginPolicy o
    ∧ step (ImageLoads i) w1 = Some w2
    ∧ log w2 = log w ++ [TileLoadStart j (opt_src o);
                         SetTimeout (nextTimer w) j (loader_timeout (loader w));
                         ClearTimeout (nextTimer w);
                         Callback j (opt_callback o) (Some i) None None]
    ∧ jobsInProgress (loader w2) = jobsInProgress (loader w).
Proof.
  intros Hrun Hroom H1 H2 H3 j i.
  assert (Hw : consistent None w) by (by apply (reachable_cons d limit time); exists es).
  assert (Hd : dispatch_inv w) by (by apply (reachable_dispatch d limit time); exists es).
  destruct (addJob_direct o w Hroom H1 H2 H3) as (Elog & Et & Eld & Ei & b & Hb & Hcb & Hreq & Hi).
  fold j i in Elog, Et, Ei, Hb, Hi.
  set (m := mkImage (Some j) (Some j) (Some j) (opt_crossOriginPolicy o)
              (Some (Url (opt_src o))) true) in *.
  assert (Hm : images (addJob o w) !! i = Some m) by (rewrite Ei; by apply list_lookup_middle).
  destruct (image_load_reports (addJob o w) i m j) as (w2 & Hs & Hrep); try done.
  { by apply addJob_cons. }
  { by apply addJob_dispatch. }
  destruct Hrep as (h & b' & es' & Hb' & Hin & Hes & Hlog & _ & _ & Hjip).
  assert (b' = b) as -> by congruence.
  assert (h = nextTimer w) as ->.
  { rewrite Et in Hin. apply elem_of_app in Hin as [Hin|Hin%list_elem_of_singleton].
    - destruct (c_timers _ _ Hw h j Hin) as (_ & b1 & Hb1%lookup_lt_Some & _).
      unfold j in Hb1. lia.
    - by injection Hin. }
  assert (Hq : jobQueue (loader w) = []).
  { destruct Hd as [_ _ [_ _ Hf]]. destruct (decide (jobQueue (loader w) = [])) as [|Hne];
      [done|]. destruct (Hf Hne) as [? ?]. unfold has_room in Hroom. lia. }
  assert (es' = []) as ->.
  { destruct Hes as [[_ ->]|(n & bn & _ & Hh & _)]; [done|].
    rewrite Eld in Hh. cbn in Hh. by rewrite Hq in Hh. }
  exists (addJob o w), w2, m. split_and!; try done.
  - rewrite Hlog, Elog, Hcb, Hreq, <- app_assoc. done.
  - rewrite Hjip, Eld, starts_nil. cbn. lia.
Qed.

Lemma direct_job_round_trip_witness :
  run [] (init sample_settings (Some 2) None) = Some (init sample_settings (Some 2) None)
  ∧ has_room (loader (init sample_settings (Some 2) None))
  ∧ ∃ w1 w2,
      step (CallAddJob (plain "a" 1)) (init sample_settings (Some 2) None) = Some w1
      ∧ step (ImageLoads 0) w1 = Some w2
      ∧ log w2 = [TileLoadStart 0 "a"; SetTimeout 1 0 30000; ClearTimeout 1;
                  Callback 0 1 (Some 0%nat) None None].
Proof.
  assert (H1 : run [] (init sample_settings (Some 2) None)
               = Some (init sample_settings (Some 2) None)) by reflexivity.
  assert (H2 : has_room (loader (init sample_settings (Some 2) None))).
  { right. reflexivity. }
  split; [exact H1|]. split; [exact H2|].
  destruct (direct_job_round_trip _ _ _ _ _ (plain "a" 1) H1 H2 eq_refl eq_refl eq_refl)
    as (w1 & w2 & m & Hs1 & _ & _ & _ & Hs2 & Hlog & _).
  exists w1, w2. split; [exact Hs1|]. split; [exact Hs2|exact Hlog].
Defined.

(** ** A job loaded over a transport, from submission to callback *)

Lemma addJob_ajax o w :
  has_room (loader w) → opt_loadWithSignalR o = false → opt_loadWithAjax o = true →
  ∃ b m, admitted o w (addJob o w) b m
    ∧ pending (addJob o w) = pending w ++ [PXhr (nextRequest w) (length (jobs w))]
    ∧ request b = Some (nextRequest w)
    ∧ abort b = RequestAbort (length (jobs w))
                  (match opt_abort o with Some f => UserAbort f | None => NotAFunction end).
Proof.
  intros Hroom H1 H2. unfold admitted, addJob.
  set (b0 := new_ImageJob (loader w) o). set (w1 := on_jobs _ w).
  assert (Hnew : jobs w1 !! length (jobs w) = Some b0) by (cbn; by apply list_lookup_middle).
  change (loader w1) with (loader w).
  rewrite (proj2 (room_test (loader w)) Hroom).
  cbn [log timers loader images jobs pending on_loader enter].
  rewrite (start_log _ _ _ Hnew), (start_timers _ _ _ Hnew), (start_loader _ _ _ Hnew).
  unfold start. rewrite Hnew. cbn [loadWithSignalR loadWithAjax loadWithMultiServers b0
    new_ImageJob]. rewrite H1, H2. cbn. rewrite !alter_snoc. cbn.
  eexists _, _. split_and!; try (by apply list_lookup_middle); by subst b0.
Qed.

Lemma addJob_signalR o w hub :
  has_room (loader w) → opt_loadWithSignalR o = true → opt_signalRHub o = Some hub →
  ∃ b m, admitted o w (addJob o w) b m
    ∧ pending (addJob o w)
      = pending w ++ [if connected w then PGetTile (length (jobs w))
                      else PHubStart (length (jobs w))]
    ∧ connected (addJob o w) = connected w
    ∧ request b = None.
Proof.
  intros Hroom H1 H2. unfold admitted, addJob.
  set (b0 := new_ImageJob (loader w) o). set (w1 := on_jobs _ w).
  assert (Hnew : jobs w1 !! length (jobs w) = Some b0) by (cbn; by apply list_lookup_middle).
  change (loader w1) with (loader w).
  rewrite (proj2 (room_test (loader w)) Hroom).
  cbn [log timers loader images jobs pending connected on_loader enter].
  rewrite (start_log _ _ _ Hnew), (start_timers _ _ _ Hnew), (start_loader _ _ _ Hnew).
  unfold start. rewrite Hnew. cbn [loadWithSignalR signalRHub b0 new_ImageJob].
  rewrite H1, H2. cbn. destruct (connected w) eqn:Hc; cbn; rewrite ?Hc, !alter_snoc; cbn;
    (eexists _, _; split_and!; try (by apply list_lookup_middle); by subst b0).
Qed.

Lemma room_no_queue w : dispatch_inv w → has_room (loader w) → jobQueue (loader w) = [].
Proof.
  intros [_ _ [_ _ Hf]] Hroom. destruct (decide (jobQueue (loader w) = [])) as [|Hne]; [done|].
  destruct (Hf Hne) as [? ?]. unfold has_room in Hroom. lia.
Qed.

(** The end of a job that was admitted to a loader with an empty queue. *)
Lemma reports_admitted o w0 w1 w w' b0 m0 img err :
  consistent None w0 → admitted o w0 w1 b0 m0 → jobQueue (loader w0) = [] →
  log w = log w1 → timers w = timers w1 → loader w = loader w1 → jobs w = jobs w1 →
  reports w w' (length (jobs w0)) img err →
  log w' = log w0 ++ [TileLoadStart (length (jobs w0)) (opt_src o);
                      SetTimeout (nextTimer w0) (length (jobs w0)) (loader_timeout (loader w0));
                      ClearTimeout (nextTimer w0);
                      Callback (length (jobs w0)) (opt_callback o) img err (request b0)]
  ∧ jobsInProgress (loader w') = jobsInProgress (loader w0).
Proof.
  intros Hw0 (Elog & Et & Eld & Hb0 & Hcb & _) Hq El Etw Eldw Ej
    (h & b' & es & Hb' & Hin & Hes & Hlog & _ & _ & Hjip).
  rewrite Ej, Hb0 in Hb'. injection Hb' as <-.
  assert (h = nextTimer w0) as ->.
  { rewrite Etw, Et in Hin. apply elem_of_app in Hin as [Hin|Hin%list_elem_of_singleton].
    - destruct (c_timers _ _ Hw0 h _ Hin) as (_ & b1 & Hb1%lookup_lt_Some & _). lia.
    - by injection Hin. }
  assert (es = []) as ->.
  { destruct Hes as [[_ ->]|(n & bn & _ & Hh & _)]; [done|].
    rewrite Eldw, Eld in Hh. cbn in Hh. by rewrite Hq in Hh. }
  split.
  - rewrite Hlog, El, Elog, Hcb, <- app_assoc. done.
  - rewrite Hjip, Eldw, Eld, starts_nil. cbn. lia.
Qed.

(** X18. A job that loads with AJAX, submitted to a loader with room, from
    submission to callback: [addJob] starts it at once and leaves one
    request pending; when the request succeeds with a response that is not
    empty, the image's source becomes the blob URL made of that response
    (the crossOrigin policy of the options is never applied to the image on
    this path); when that image then loads, the submitter's callback is
    called once with the image, no error message and the request.  In all,
    the log gains the tile-load-start event, the timer, its clearing and the
    callback, and the counter of jobs in progress is back to what it was. *)
Theorem ajax_job_round_trip d limit time es w o size :
  run es (init d limit time) = Some w →
  has_room (loader w) →
  opt_loadWithSignalR o = false → opt_loadWithAjax o = true → size ≠ 0%N →
  let j := length (jobs w) in
  let i := length (images w) in
  let x := nextRequest w in
  ∃ w1 w2 w3 m,
    step (CallAddJob o) w = Some w1
    ∧ pending w1 = pending w ++ [PXhr x j]
    ∧ step (XhrSucceeds x j (Some size)) w1 = Some w2
    ∧ images w2 !! i = Some m
    ∧ img_src m = Some (BlobUrl x) ∧ crossOrigin m = None
    ∧ step (ImageLoads i) w2 = Some w3
    ∧ log w3 = log w ++ [TileLoadStart j (opt_src o);
                         SetTimeout (nextTimer w) j (loader_timeout (loader w));
                         ClearTimeout (nextTimer w);
                         Callback j (opt_callback o) (Some i) None (Some x)]
    ∧ jobsInProgress (loader w3) = jobsInProgress (loader w).
Proof.
  intros Hrun Hroom H1 H2 Hsize j i x.
  assert (Hw : consistent None w) by (by apply (reachable_cons d limit time); exists es).
  assert (Hd : dispatch_inv w) by (by apply (reachable_dispatch d limit time); exists es).
  destruct (addJob_ajax o w Hroom H1 H2) as (b & m0 & Hadm & Ep & Hreq & _).
  fold j x in Ep, Hreq.
  pose proof Hadm as (_ & _ & _ & Hb & _ & Hi & Hm0 & Hco & _). fold j i in Hb, Hi, Hm0.
  set (w1 := addJob o w) in *.
  assert (Hw1 : consistent None w1) by (by apply addJob_cons).
  assert (Hd1 : dispatch_inv w1) by (by apply addJob_dispatch).
  assert (Hp : PXhr x j ∈ pending w1).
  { rewrite Ep. apply elem_of_app. right. by left. }
  assert (Hsome : is_Some (image b)) by (by eexists).
  assert (Hstep : step (XhrSucceeds x j (Some size)) w1
                  = Some (settle j (assign_image_src j (BlobUrl x)
                                      (on_pending (remove_first (PXhr x j)) w1)))).
  { cbn. rewrite (deliver_pending (PXhr x j)) by done. cbn. unfold xhr_success_fn.
    by rewrite (proj2 (N.eqb_neq size 0) Hsize). }
  destruct (source_then_load (XhrSucceeds x j (Some size)) (PXhr x j) (BlobUrl x) w1 b
              Hw1 Hd1 Hp Hb Hsome Hstep)
    as (w2 & i' & m & Hs2 & Hi' & El & Et & Ej & Eld & _ & Hm & Hsrc & _ & w3 & Hs3 & Hrep).
  assert (i' = i) as -> by congruence.
  destruct (reports_admitted o w w1 w2 w3 b m0 (Some i) None) as [Hlog Hjip]; try done.
  { by apply room_no_queue. }
  exists w1, w2, w3, m. split_and!; try done.
  - rewrite Hstep in Hs2. injection Hs2 as <-.
    unfold assign_image_src in Hm. cbn in Hm. rewrite Hb, Hi in Hm. cbn in Hm.
    rewrite list_lookup_alter_eq in Hm.
    cbn in Hm0. rewrite Hm0 in Hm. injection Hm as <-. done.
  - by rewrite Hlog, Hreq.
Qed.

Lemma ajax_job_round_trip_witness :
  run [] (init sample_settings (Some 2) None) = Some (init sample_settings (Some 2) None)
  ∧ has_room (loader (init sample_settings (Some 2) None))
  ∧ ∃ w1 w2 w3,
      step (CallAddJob ajax_cors) (init sample_settings (Some 2) None) = Some w1
      ∧ step (XhrSucceeds 0 0 (Some 512%N)) w1 = Some w2
      ∧ step (ImageLoads 0) w2 = Some w3
      ∧ log w3 = [TileLoadStart 0 "a"; SetTimeout 1 0 30000; ClearTimeout 1;
                  Callback 0 1 (Some 0%nat) None (Some 0%nat)].
Proof.
  assert (H1 : run [] (init sample_settings (Some 2) None)
               = Some (init sample_settings (Some 2) None)) by reflexivity.
  assert (H2 : has_room (loader (init sample_settings (Some 2) None))).
  { right. reflexivity. }
  assert (H3 : 512%N ≠ 0%N) by discriminate.
  split; [exact H1|]. split; [exact H2|].
  destruct (ajax_job_round_trip _ _ _ _ _ ajax_cors _ H1 H2 eq_refl eq_refl H3)
    as (w1 & w2 & w3 & m & Hs1 & _ & Hs2 & _ & _ & _ & Hs3 & Hlog & _).
  exists w1, w2, w3. split; [exact Hs1|]. split; [exact Hs2|]. split; [exact Hs3|exact Hlog].
Defined.

(** X19. A job that loads with SignalR through a hub, submitted to a loader
    with room, from submission to callback: with an open connection
    [getTile] is asked at once, otherwise the hub is started first and
    [getTile] is asked when the start is done; when [getTile] answers with
    data, the image's source becomes the data URL
    "data:<Mime>;base64,<Base64>" (the crossOrigin policy is never applied
    on this path); when that image then loads, the submitter's callback is
    called once with the image, no error message and no request, and the
    counter of jobs in progress is back to what it was. *)
Theorem signalR_job_round_trip d limit time es w o hub mime base64 :
  run es (init d limit time) = Some w →
  has_room (loader w) →
  opt_loadWithSignalR o = true → opt_signalRHub o = Some hub →
  let j := length (jobs w) in
  let i := length (images w) in
  ∃ w1 w2 w3 w4 m,
    step (CallAddJob o) w = Some w1
    ∧ pending w1 = pending w ++ [if connected w then PGetTile j else PHubStart j]
    ∧ (if connected w then w2 = w1 else step (HubStartDone j) w1 = Some w2)
    ∧ PGetTile j ∈ pending w2
    ∧ step (GetTileDone j (Some (mime, base64))) w2 = Some w3
    ∧ images w3 !! i = Some m
    ∧ img_src m = Some (Url ("data:" +:+ mime +:+ ";base64," +:+ base64))
    ∧ crossOrigin m = None
    ∧ step (ImageLoads i) w3 = Some w4
    ∧ log w4 = log w ++ [TileLoadStart j (opt_src o);
                         SetTimeout (nextTimer w) j (loader_timeout (loader w));
                         ClearTimeout (nextTimer w);
                         Callback j (opt_callback o) (Some i) None None]
    ∧ jobsInProgress (loader w4) = jobsInProgress (loader w).
Proof.
  intros Hrun Hroom H1 H2 j i.
  assert (Hw : consistent None w) by (by apply (reachable_cons d limit time); exists es).
  assert (Hd : dispatch_inv w) by (by apply (reachable_dispatch d limit time); exists es).
  destruct (addJob_signalR o w hub Hroom H1 H2) as (b & m0 & Hadm & Ep & Ec & Hreq).
  fold j in Ep.
  pose proof Hadm as (_ & _ & _ & Hb & _ & Hi & Hm0 & Hco & _). fold j i in Hb, Hi, Hm0.
  set (w1 := addJob o w) in *.
  assert (Hw1 : consistent None w1) by (by apply addJob_cons).
  assert (Hd1 : dispatch_inv w1) by (by apply addJob_dispatch).
  assert (Hmid : ∃ w2, (if connected w then w2 = w1 else step (HubStartDone j) w1 = Some w2)
            ∧ consistent None w2 ∧ dispatch_inv w2 ∧ PGetTile j ∈ pending w2
            ∧ log w2 = log w1 ∧ timers w2 = timers w1 ∧ loader w2 = loader w1
            ∧ jobs w2 = jobs w1 ∧ images w2 = images w1).
  { destruct (connected w) eqn:Hc.
    - exists w1. split_and!; try done. rewrite Ep. apply elem_of_app. right. by left.
    - assert (Hp : PHubStart j ∈ pending w1).
      { rewrite Ep. apply elem_of_app. right. by left. }
      assert (Hs : step (HubStartDone j) w1
                   = Some (signalRDownloadImageDataFromServer j
                             (set_connected true (on_pending (remove_first (PHubStart j)) w1)))).
      { cbn. by rewrite (deliver_pending (PHubStart j)). }
      eexists. split; [exact Hs|]. split_and!; try done.
      + by apply (step_cons _ _ _ Hs).
      + by apply (step_dispatch _ _ _ Hs).
      + cbn. apply elem_of_app. right. by left. }
  destruct Hmid as (w2 & Hs2 & Hw2 & Hd2 & Hp2 & El2 & Et2 & Eld2 & Ej2 & Ei2).
  assert (Hb2 : jobs w2 !! j = Some b) by (by rewrite Ej2).
  assert (Hsome : is_Some (image b)) by (by eexists).
  assert (Hstep : step (GetTileDone j (Some (mime, base64))) w2
                  = Some (settle j (assign_image_src j
                                      (Url ("data:" +:+ mime +:+ ";base64," +:+ base64))
                                      (on_pending (remove_first (PGetTile j)) w2)))).
  { cbn. by rewrite (deliver_pending (PGetTile j)). }
  destruct (source_then_load (GetTileDone j (Some (mime, base64))) (PGetTile j)
              (Url ("data:" +:+ mime +:+ ";base64," +:+ base64)) w2 b
              Hw2 Hd2 Hp2 Hb2 Hsome Hstep)
    as (w3 & i' & m & Hs3 & Hi' & El & Et & Ej & Eld & _ & Hm & Hsrc & _ & w4 & Hs4 & Hrep).
  assert (i' = i) as -> by congruence.
  destruct (reports_admitted o w w1 w3 w4 b m0 (Some i) None) as [Hlog Hjip];
    try done; try congruence.
  { by apply room_no_queue. }
  exists w1, w2, w3, w4, m. split_and!; try done.
  - rewrite Hstep in Hs3. injection Hs3 as <-.
    unfold assign_image_src in Hm. cbn in Hm. rewrite Hb2, Hi in Hm. cbn in Hm.
    rewrite list_lookup_alter_eq, Ei2 in Hm.
    rewrite Hm0 in Hm. injection Hm as <-. done.
  - by rewrite Hlog, Hreq.
Qed.

Lemma signalR_job_round_trip_witness :
  run [] (init sample_settings (Some 2) None) = Some (init sample_settings (Some 2) None)
  ∧ has_room (loader (init sample_settings (Some 2) None))
  ∧ ∃ w1 w2 w3 w4,
      step (CallAddJob signalR_cors) (init sample_settings (Some 2) None) = Some w1
      ∧ step (HubStartDone 0) w1 = Some w2
      ∧ step (GetTileDone 0 (Some ("image/png", "AAAA"))) w2 = Some w3
      ∧ step (ImageLoads 0) w3 = Some w4
      ∧ log w4 = [TileLoadStart 0 "a"; SetTimeout 1 0 30000; ClearTimeout 1;
                  Callback 0 1 (Some 0%nat) None None].
Proof.
  assert (H1 : run [] (init sample_settings (Some 2) None)
               = Some (init sample_settings (Some 2) None)) by reflexivity.
  assert (H2 : has_room (loader (init sample_settings (Some 2) None))).
  { right. reflexivity. }
  split; [exact H1|]. split; [exact H2|].
  destruct (signalR_job_round_trip _ _ _ _ _ signalR_cors 0%nat "image/png" "AAAA"
              H1 H2 eq_refl eq_refl)
    as (w1 & w2 & w3 & w4 & m & Hs1 & _ & Hs2 & _ & Hs3 & _ & _ & _ & Hs4 & Hlog & _).
  exists w1, w2, w3, w4. split; [exact Hs1|]. split; [exact Hs2|]. split; [exact Hs3|].
  split; [exact Hs4|exact Hlog].
Defined.
